(** * A shallow embedding of [shell.c]

    The interpreter of [shell.c] is a loop that reads a line, tokenizes it
    ([parse_line]), and either dispatches a single command
    ([execute_command], [handle_builtin], [launch_process]) or runs a
    two-stage pipeline ([handle_pipe]).

    Conventions of the embedding.

    - A C string is the Rocq [string] of its characters up to, and
      excluding, the terminating NUL; [strdup] is therefore the identity
      on values.  [malloc] and [strdup] are taken to succeed.  The
      storage of strings is not tracked: the program releases each of
      them at most once.
    - The array of [MAX_ARGS + 1] pointers that [parse_line] allocates is
      tracked, because the program hands out pointers into it and
      releases it through them.  Its content is a [list (option string)],
      the cells written so far, with [None] for NULL.  A [char **] that
      is going to be released is an [argv]: the array it points into,
      the cell it points at, and the cells from there on.  Functions
      that only read a vector ([execute_command], [launch_process],
      [handle_builtin]) take its entries, a [list string].
    - Everything the interpreter process asks of the kernel goes through
      the [world]: its own signal disposition, descriptor table, working
      directory and [errno]; the list of children it has forked, each
      with what that child did up to [execvp] or [exit]; the trace of
      calls made; and the answers the environment is going to give
      ([pipe], [fork], [waitpid], [chdir], [getenv]).
    - A call that never returns ([waitpid] on a child that never changes
      state any more) is the outcome [Block].  An operation whose
      behaviour C does not define (using a value that was never
      written, releasing what [malloc] did not return or what has been
      released) is the outcome [Undefined]; nothing is said of what
      follows it.  The world an outcome carries is the one reached when
      the run returned, blocked, or came to that operation.
    - A local variable declared without an initializer is an [option]:
      [None] until it is assigned. *)

From Stdlib Require Import ZArith String Ascii List Lia Bool.
From stdpp Require Import base option list gmap fin_maps strings.

Local Open Scope string_scope.
Local Open Scope list_scope.
Local Open Scope Z_scope.

(** ** Constants of the program *)

Definition MAX_LINE_LENGTH : nat := 1024.
Definition MAX_ARGS : nat := 64.
Definition TOKEN_DELIMITERS : list ascii := [" "%char; "009"%char; "010"%char].

Definition builtin_commands : list string := ["cd"; "exit"].
Definition NUM_BUILTINS : nat := length builtin_commands.

(** ** The C string functions the program uses *)

Module CString.

(** [strchr(s, c) != NULL] *)
Fixpoint strchr (s : string) (c : ascii) : bool :=
  match s with
  | EmptyString => false
  | String a s' => if Ascii.eqb a c then true else strchr s' c
  end.

(** [strcmp]: only the sign of the result is specified by C. *)
Definition strcmp (a b : string) : Z :=
  match String.compare a b with
  | Eq => 0
  | Lt => -1
  | Gt => 1
  end.

Definition strdup (s : string) : string := s.

Definition is_delim (c : ascii) : bool :=
  existsb (Ascii.eqb c) TOKEN_DELIMITERS.

(** [strtok] keeps a pointer to the rest of the string between calls;
    here the rest is passed in and handed back.  [strtok s] skips
    leading delimiters; at the end of the string it returns NULL;
    otherwise the token runs up to the next delimiter, which is
    overwritten by NUL, and the saved pointer moves past it. *)
Fixpoint skip_delims (s : string) : string :=
  match s with
  | EmptyString => EmptyString
  | String c s' => if is_delim c then skip_delims s' else s
  end.

Fixpoint span_token (s : string) : string * string :=
  match s with
  | EmptyString => (EmptyString, EmptyString)
  | String c s' =>
      if is_delim c then (EmptyString, s')
      else let (t, r) := span_token s' in (String c t, r)
  end.

Definition strtok (s : string) : option string * string :=
  match skip_delims s with
  | EmptyString => (None, EmptyString)
  | String c s' => let (t, r) := span_token (String c s') in (Some t, r)
  end.

(** [buffer[len - 1] == '\n'] and what the buffer is without it *)
Fixpoint chop_newline (s : string) : string :=
  match s with
  | EmptyString => EmptyString
  | String c EmptyString => if Ascii.eqb c "010"%char then EmptyString else s
  | String c s' => String c (chop_newline s')
  end.

End CString.
Import CString.

(** ** What a token sequence is, independently of [strtok]

    The tokens of a line are its maximal runs of characters that are not
    delimiters.  [words s] is the run in progress at the head of [s]
    (empty when [s] starts with a delimiter) and the runs after it. *)

Definition cons_word (w : string) (ws : list string) : list string :=
  match w with
  | EmptyString => ws
  | _ => w :: ws
  end.

Fixpoint words (s : string) : string * list string :=
  match s with
  | EmptyString => (EmptyString, [])
  | String c s' =>
      let (w, ws) := words s' in
      if is_delim c then (EmptyString, cons_word w ws) else (String c w, ws)
  end.

Definition tokens (s : string) : list string :=
  let (w, ws) := words s in cons_word w ws.

(** ** The tokenizing loop of [parse_line]

    [while (token != NULL && i < MAX_ARGS)]: [room] is [MAX_ARGS - i],
    [args] the cells written so far, [saved] the pointer [strtok] keeps. *)

Fixpoint tokenize_loop (room : nat) (token : option string) (saved : string)
    (args : list (option string)) : option string * list (option string) :=
  match token, room with
  | Some t, S room' =>
      let args' := args ++ [Some (strdup t)] in
      let (token', saved') := strtok saved in
      tokenize_loop room' token' saved' args'
  | _, _ => (token, args)
  end.

Definition tokenize (line_copy : string) : option string * list (option string) :=
  let (token, saved) := strtok line_copy in
  tokenize_loop MAX_ARGS token saved [].

(** Reading a NULL-terminated vector that starts at a cell of the array. *)
Fixpoint argv_at (a : list (option string)) : list string :=
  match a with
  | Some s :: a' => s :: argv_at a'
  | _ => []
  end.

(** [for (j = 0; args[j] != NULL; j++) if (strcmp(args[j], "|") == 0) ...]:
    the index of the first cell holding ["|"], or [-1]. *)
Fixpoint find_pipe (a : list (option string)) (j : Z) : Z :=
  match a with
  | Some s :: a' => if strcmp s "|" =? 0 then j else find_pipe a' (j + 1)
  | _ => -1
  end.

(** ** The interpreter process and its environment *)

Inductive disposition := SIG_IGN | SIG_DFL.

Definition SIGINT : Z := 2.
Definition SIGTERM : Z := 15.
Definition WUNTRACED : Z := 2.
Definition STDIN_FILENO : nat := 0.
Definition STDOUT_FILENO : nat := 1.
Definition STDERR_FILENO : nat := 2.

(** What an open descriptor refers to.  Channels are numbered in the
    order [pipe] creates them. *)
Inductive file :=
| Terminal
| PipeRead (ch : nat)
| PipeWrite (ch : nat).

(** The status [waitpid] stores, seen through [WIFEXITED], [WIFSIGNALED]
    and [WIFSTOPPED]. *)
Inductive wstatus :=
| WExited (code : Z)
| WSignaled (sig : Z)
| WStopped (sig : Z).

Definition WIFEXITED (st : wstatus) : bool :=
  match st with WExited _ => true | _ => false end.
Definition WIFSIGNALED (st : wstatus) : bool :=
  match st with WSignaled _ => true | _ => false end.

(** Calls made by a process, in the order it makes them.  A failing call
    carries the [errno] it set. *)
Inductive event :=
| EvSignal (sig : Z) (d : disposition)
| EvWrite (fd : nat) (text : string)
| EvPerror (prefix : string) (errno : Z)
| EvGetenv (name : string) (value : option string)
| EvChdir (path : string) (err : option Z)
| EvPipe (ends : nat * nat + Z)
| EvFork (child : positive + Z)
| EvClose (fd : nat)
| EvDup2 (oldfd newfd : nat) (err : option Z)
| EvKill (pid : positive) (sig : Z)
| EvWaitpid (pid : positive) (options : Z) (answer : option (wstatus + Z))
| EvExecvp (argv : list string) (err : option Z)
| EvExit (code : Z).

(** *** Children

    [fork] returns twice.  On the child's side the code that follows is
    short: it adjusts the disposition and the descriptors it inherited
    and then calls [execvp] or [exit].  A child is recorded with the
    state it had when it did so. *)

Record cproc := {
  c_sigint : disposition;
  c_fds : gmap nat file;
  c_trace : list event
}.

(** How the child's own calls are going to fare: the [errno] of a failing
    [dup2] or [execvp], if they fail. *)
Record child_env := {
  ce_dup2 : option Z;
  ce_exec : option Z
}.

Inductive child_end :=
| Image (argv : list string)
| Exited (code : Z).

Record child := {
  ch_pid : positive;
  ch_inherited : disposition;
  ch_state : cproc;
  ch_end : child_end
}.

Definition child_code := child_env -> cproc -> cproc * child_end.

Definition c_emit (e : event) (c : cproc) : cproc :=
  {| c_sigint := c_sigint c; c_fds := c_fds c; c_trace := c_trace c ++ [e] |}.

(** [signal(SIGINT, d)] *)
Definition c_signal (d : disposition) (c : cproc) : cproc :=
  c_emit (EvSignal SIGINT d)
    {| c_sigint := d; c_fds := c_fds c; c_trace := c_trace c |}.

Definition c_close (fd : nat) (c : cproc) : cproc :=
  c_emit (EvClose fd)
    {| c_sigint := c_sigint c; c_fds := delete fd (c_fds c); c_trace := c_trace c |}.

(** [dup2(oldfd, newfd)]: on success [newfd] refers to what [oldfd]
    refers to, whatever it referred to before. *)
Definition c_dup2_ok (oldfd newfd : nat) (c : cproc) : cproc :=
  c_emit (EvDup2 oldfd newfd None)
    {| c_sigint := c_sigint c;
       c_fds := match c_fds c !! oldfd with
                | Some f => <[newfd := f]> (c_fds c)
                | None => c_fds c
                end;
       c_trace := c_trace c |}.

(** [perror(prefix); exit(1)] *)
Definition c_die (call : event) (prefix : string) (e : Z) (c : cproc) : cproc * child_end :=
  (c_emit (EvExit 1) (c_emit (EvPerror prefix e) (c_emit call c)), Exited 1).

(** [if (execvp(argv[0], argv) == -1) { perror("shell"); exit(1); }] *)
Definition c_execvp (argv : list string) (env : child_env) (c : cproc) : cproc * child_end :=
  match ce_exec env with
  | None => (c_emit (EvExecvp argv None) c, Image argv)
  | Some e => c_die (EvExecvp argv (Some e)) "shell" e c
  end.

(** *** The world *)

Inductive fork_answer :=
| ForkOk (pid : positive) (env : child_env)
| ForkFail (errno : Z).

Inductive wait_answer :=
| WaitStatus (st : wstatus)
| WaitFail (errno : Z).

Record world := {
  w_sigint : disposition;
  w_fds : gmap nat file;
  w_cwd : string;
  w_errno : Z;
  w_trace : list event;
  w_children : list child;
  w_live : gset nat;                        (* argument arrays not yet released *)
  w_nblocks : nat;                          (* argument arrays allocated so far *)
  (** the environment *)
  w_home : option string;                   (* getenv("HOME") *)
  w_fs : string -> string -> string + Z;    (* chdir: cwd, path, new cwd or errno *)
  w_npipes : nat;                           (* calls of pipe so far *)
  w_pipe_ans : nat -> option Z;             (* errno of the n-th pipe call, if it fails *)
  w_nforks : nat;                           (* calls of fork so far *)
  w_fork_ans : nat -> fork_answer;          (* answer to the n-th fork call *)
  w_waits : list wait_answer                (* answers to the waitpid calls to come *)
}.

Inductive outcome (A : Type) :=
| Ret (a : A) (w : world)
| Block (w : world)
| Undefined (w : world).
Arguments Ret {A} a w.
Arguments Block {A} w.
Arguments Undefined {A} w.

Definition M (A : Type) : Type := world -> outcome A.

Definition ret {A} (a : A) : M A := fun w => Ret a w.

Definition bind {A B} (m : M A) (k : A -> M B) : M B :=
  fun w => match m w with
           | Ret a w' => k a w'
           | Block w' => Block w'
           | Undefined w' => Undefined w'
           end.

Declare Scope shell_scope.
Delimit Scope shell_scope with shell.
Notation "'do' x <- m ; k" := (bind m (fun x => k))
  (at level 10, x name, m at level 100, k at level 200) : shell_scope.
Notation "m ;; k" := (bind m (fun _ => k))
  (at level 100, k at level 200, right associativity) : shell_scope.
Local Open Scope shell_scope.

Definition world_of {A} (o : outcome A) : world :=
  match o with Ret _ w => w | Block w => w | Undefined w => w end.

Definition returned {A} (o : outcome A) : option A :=
  match o with Ret a _ => Some a | _ => None end.

(** *** Changing one component of the world *)

Definition set_proc (sigint : disposition) (fds : gmap nat file) (cwd : string)
    (errno : Z) (trace : list event) (w : world) : world :=
  {| w_sigint := sigint; w_fds := fds; w_cwd := cwd; w_errno := errno;
     w_trace := trace; w_children := w_children w;
     w_live := w_live w; w_nblocks := w_nblocks w;
     w_home := w_home w; w_fs := w_fs w;
     w_npipes := w_npipes w; w_pipe_ans := w_pipe_ans w;
     w_nforks := w_nforks w; w_fork_ans := w_fork_ans w;
     w_waits := w_waits w |}.

Definition set_env (children : list child) (npipes nforks : nat)
    (waits : list wait_answer) (w : world) : world :=
  {| w_sigint := w_sigint w; w_fds := w_fds w; w_cwd := w_cwd w;
     w_errno := w_errno w; w_trace := w_trace w; w_children := children;
     w_live := w_live w; w_nblocks := w_nblocks w;
     w_home := w_home w; w_fs := w_fs w;
     w_npipes := npipes; w_pipe_ans := w_pipe_ans w;
     w_nforks := nforks; w_fork_ans := w_fork_ans w;
     w_waits := waits |}.

Definition set_store (live : gset nat) (nblocks : nat) (w : world) : world :=
  {| w_sigint := w_sigint w; w_fds := w_fds w; w_cwd := w_cwd w;
     w_errno := w_errno w; w_trace := w_trace w; w_children := w_children w;
     w_live := live; w_nblocks := nblocks;
     w_home := w_home w; w_fs := w_fs w;
     w_npipes := w_npipes w; w_pipe_ans := w_pipe_ans w;
     w_nforks := w_nforks w; w_fork_ans := w_fork_ans w;
     w_waits := w_waits w |}.

Definition log (e : event) (w : world) : world :=
  set_proc (w_sigint w) (w_fds w) (w_cwd w) (w_errno w) (w_trace w ++ [e]) w.
Definition with_sigint (d : disposition) (w : world) : world :=
  set_proc d (w_fds w) (w_cwd w) (w_errno w) (w_trace w) w.
Definition with_fds (fds : gmap nat file) (w : world) : world :=
  set_proc (w_sigint w) fds (w_cwd w) (w_errno w) (w_trace w) w.
Definition with_cwd (cwd : string) (w : world) : world :=
  set_proc (w_sigint w) (w_fds w) cwd (w_errno w) (w_trace w) w.
Definition with_errno (e : Z) (w : world) : world :=
  set_proc (w_sigint w) (w_fds w) (w_cwd w) e (w_trace w) w.
Definition with_child (c : child) (w : world) : world :=
  set_env (w_children w ++ [c]) (w_npipes w) (S (w_nforks w)) (w_waits w) w.
Definition count_fork (w : world) : world :=
  set_env (w_children w) (w_npipes w) (S (w_nforks w)) (w_waits w) w.
Definition count_pipe (w : world) : world :=
  set_env (w_children w) (S (w_npipes w)) (w_nforks w) (w_waits w) w.
Definition with_waits (waits : list wait_answer) (w : world) : world :=
  set_env (w_children w) (w_npipes w) (w_nforks w) waits w.
Definition allocated (w : world) : world :=
  set_store ({[ w_nblocks w ]} ∪ w_live w) (S (w_nblocks w)) w.
Definition released (block : nat) (w : world) : world :=
  set_store (w_live w ∖ {[ block ]}) (w_nblocks w) w.

(** *** The calls the interpreter makes *)

Module Sys.

(** [signal(SIGINT, d)] *)
Definition signal (d : disposition) : M unit :=
  fun w => Ret tt (log (EvSignal SIGINT d) (with_sigint d w)).

(** [printf], followed by [fflush(stdout)] where the code has it *)
Definition printf (text : string) : M unit :=
  fun w => Ret tt (log (EvWrite STDOUT_FILENO text) w).

(** [fprintf(stderr, ...)] *)
Definition eprintf (text : string) : M unit :=
  fun w => Ret tt (log (EvWrite STDERR_FILENO text) w).

(** [perror(prefix)] writes the prefix and the message of [errno]. *)
Definition perror (prefix : string) : M unit :=
  fun w => Ret tt (log (EvPerror prefix (w_errno w)) w).

(** [getenv("HOME")] *)
Definition getenv_HOME : M (option string) :=
  fun w => Ret (w_home w) (log (EvGetenv "HOME" (w_home w)) w).

(** [chdir(path)]: 0 and a new working directory, or -1 and [errno]. *)
Definition chdir (path : string) : M Z :=
  fun w => match w_fs w (w_cwd w) path with
           | inl dir => Ret 0 (log (EvChdir path None) (with_cwd dir w))
           | inr e => Ret (-1) (log (EvChdir path (Some e)) (with_errno e w))
           end.

(** The lowest descriptor number that is not open: among the numbers
    [0 .. size t] at least one is free. *)
Definition lowest_free (t : gmap nat file) : nat :=
  default (size t)
    (List.find (fun k => bool_decide (t !! k = None)) (seq 0 (S (size t)))).

(** [pipe(pipe_fd)]: a new channel on the two lowest free descriptors,
    read end first. *)
Definition pipe : M (option (nat * nat)) :=
  fun w =>
    let n := w_npipes w in
    match w_pipe_ans w n with
    | Some e =>
        Ret None (log (EvPipe (inr e)) (count_pipe (with_errno e w)))
    | None =>
        let r := lowest_free (w_fds w) in
        let t := <[r := PipeRead n]> (w_fds w) in
        let wr := lowest_free t in
        let t' := <[wr := PipeWrite n]> t in
        Ret (Some (r, wr)) (log (EvPipe (inl (r, wr))) (count_pipe (with_fds t' w)))
    end.

Definition close (fd : nat) : M unit :=
  fun w => Ret tt (log (EvClose fd) (with_fds (delete fd (w_fds w)) w)).

(** [fork()]: the child starts as a copy of the caller and runs
    [code], the branch of the program under [pid == 0]; the caller gets
    the child's pid, or -1. *)
Definition fork (code : child_code) : M (option positive) :=
  fun w =>
    match w_fork_ans w (w_nforks w) with
    | ForkFail e =>
        Ret None (log (EvFork (inr e)) (count_fork (with_errno e w)))
    | ForkOk pid env =>
        let c0 := {| c_sigint := w_sigint w; c_fds := w_fds w; c_trace := [] |} in
        let (c, e) := code env c0 in
        let ch := {| ch_pid := pid; ch_inherited := w_sigint w;
                     ch_state := c; ch_end := e |} in
        Ret (Some pid) (log (EvFork (inl pid)) (with_child ch w))
    end.

Definition kill (pid : positive) (sig : Z) : M unit :=
  fun w => Ret tt (log (EvKill pid sig) w).

(** [waitpid(pid, &status, options)]: the next answer of the
    environment; with none left the call does not return. *)
Definition waitpid (pid : positive) (options : Z) : M (option wstatus) :=
  fun w =>
    match w_waits w with
    | [] => Block (log (EvWaitpid pid options None) w)
    | WaitStatus st :: rest =>
        Ret (Some st) (log (EvWaitpid pid options (Some (inl st))) (with_waits rest w))
    | WaitFail e :: rest =>
        Ret None (log (EvWaitpid pid options (Some (inr e)))
                    (with_waits rest (with_errno e w)))
    end.

End Sys.

(** ** The program *)

Definition nl : string := String "010"%char EmptyString.

(** *** Argument vectors and their release *)

Record argv := {
  av_block : nat;                   (* the array the pointer points into *)
  av_index : nat;                   (* the cell it points at *)
  av_cells : list (option string)   (* the cells written, from that one on *)
}.

(** [args[0], args[1], ...] up to the first NULL. *)
Definition entries (args : argv) : list string := argv_at (av_cells args).

(** The vector has its terminating NULL. *)
Definition terminated (args : argv) : bool :=
  bool_decide (None ∈ av_cells args).

(** [malloc] of the [MAX_ARGS + 1] pointers: a new array, no cell of
    which has been written. *)
Definition malloc_args : M nat :=
  fun w => Ret (w_nblocks w) (allocated w).

(** [free_args(args)] walks the cells from [args[0]] to the first NULL,
    releasing the strings, and then calls [free(args)].  Reading the
    cells of an array that has been released is undefined; so is going
    past the cells that have been written, when no NULL is among them;
    so is [free] of a pointer that is not the one [malloc] returned. *)
Definition free_args (args : argv) : M unit :=
  fun w =>
    if negb (bool_decide (av_block args ∈ w_live w)) then Undefined w
    else if negb (terminated args) then Undefined w
    else if negb (av_index args =? 0)%nat then Undefined w
    else Ret tt (released (av_block args) w).

(** [free(line)], [free(line_copy)]: see the conventions. *)
Definition free (line : string) : M unit := ret tt.

(** *** [launch_process] *)

(** The branch [pid == 0]. *)
Definition launch_child (args : list string) : child_code :=
  fun env c =>
    let c := c_signal SIG_DFL c in
    c_execvp args env c.

(** The [do ... while (!WIFEXITED(status) && !WIFSIGNALED(status))] loop.
    Every turn takes one answer from [w_waits], so [S (length (w_waits w))]
    turns cannot be used up; [launch_process] starts the loop with that
    many. *)
Fixpoint wait_child (turns : nat) (pid : positive) : M Z :=
  match turns with
  | O => fun w => Block w
  | S turns' =>
      do wpid <- Sys.waitpid pid WUNTRACED;
      match wpid with
      | None => Sys.perror "waitpid failed";; ret 1
      | Some status =>
          if negb (WIFEXITED status) && negb (WIFSIGNALED status)
          then wait_child turns' pid
          else ret 1
      end
  end.

Definition launch_process (args : list string) : M Z :=
  do pid <- Sys.fork (launch_child args);
  match pid with
  | None => Sys.perror "fork failed";; ret 1
  | Some pid => fun w => wait_child (S (length (w_waits w))) pid w
  end.

(** *** [handle_builtin]

    The code reads [args[0]] without a test; the vector is passed as its
    first entry and the entries after it. *)
Definition handle_builtin (arg0 : string) (rest : list string) : M Z :=
  if strcmp arg0 "exit" =? 0 then ret 0
  else if strcmp arg0 "cd" =? 0 then
    match rest with
    | [] =>
        do home_dir <- Sys.getenv_HOME;
        match home_dir with
        | None =>
            Sys.eprintf ("shell: 'cd' requires an argument if HOME is not set." +:+ nl);;
            ret 1
        | Some dir =>
            do r <- Sys.chdir dir;
            (if negb (r =? 0) then Sys.perror "shell" else ret tt);;
            ret 1
        end
    | path :: _ =>
        do r <- Sys.chdir path;
        (if negb (r =? 0) then Sys.perror "shell" else ret tt);;
        ret 1
    end
  else
    Sys.eprintf ("shell: built-in command '" +:+ arg0 +:+ "' not implemented." +:+ nl);;
    ret 1.

(** *** [execute_command] *)

(** [for (i = 0; i < NUM_BUILTINS; i++)] with the test
    [strcmp(args[0], builtin_commands[i]) == 0]: whether some turn of
    the loop returns through [handle_builtin]. *)
Definition is_builtin (arg0 : string) : bool :=
  existsb
    (fun i => match builtin_commands !! i with
              | Some name => strcmp arg0 name =? 0
              | None => false
              end)
    (seq 0 NUM_BUILTINS).

Definition execute_command (args : list string) : M Z :=
  match args with
  | [] => ret 1
  | arg0 :: rest =>
      if is_builtin arg0
      then handle_builtin arg0 rest
      else launch_process args
  end.

(** *** [handle_pipe] *)

(** The branch [pid1 == 0]. *)
Definition pipe_child1 (rd wr : nat) (command1 : list string) : child_code :=
  fun env c =>
    let c := c_signal SIG_DFL c in
    let c := c_close rd c in
    match ce_dup2 env with
    | Some e =>
        c_die (EvDup2 wr STDOUT_FILENO (Some e)) "dup2 failed for first command" e c
    | None =>
        let c := c_dup2_ok wr STDOUT_FILENO c in
        let c := c_close wr c in
        c_execvp command1 env c
    end.

(** The branch [pid2 == 0]. *)
Definition pipe_child2 (rd wr : nat) (command2 : list string) : child_code :=
  fun env c =>
    let c := c_signal SIG_DFL c in
    let c := c_close wr c in
    match ce_dup2 env with
    | Some e =>
        c_die (EvDup2 rd STDIN_FILENO (Some e)) "dup2 failed for second command" e c
    | None =>
        let c := c_dup2_ok rd STDIN_FILENO c in
        let c := c_close rd c in
        c_execvp command2 env c
    end.

Definition handle_pipe (command1 command2 : argv) : M Z :=
  match entries command1, entries command2 with
  | _ :: _, _ :: _ =>
      do pipe_fd <- Sys.pipe;
      match pipe_fd with
      | None => Sys.perror "pipe failed";; ret 1
      | Some (rd, wr) =>
          do pid1 <- Sys.fork (pipe_child1 rd wr (entries command1));
          match pid1 with
          | None =>
              Sys.perror "fork failed for first command";;
              Sys.close rd;;
              Sys.close wr;;
              ret 1
          | Some pid1 =>
              do pid2 <- Sys.fork (pipe_child2 rd wr (entries command2));
              match pid2 with
              | None =>
                  Sys.perror "fork failed for second command";;
                  Sys.kill pid1 SIGTERM;;
                  Sys.waitpid pid1 0;;
                  Sys.close rd;;
                  Sys.close wr;;
                  ret 1
              | Some pid2 =>
                  Sys.close rd;;
                  Sys.close wr;;
                  Sys.waitpid pid1 0;;
                  Sys.waitpid pid2 0;;
                  free_args command1;;
                  free_args command2;;
                  ret 1
              end
          end
      end
  | _, _ =>
      Sys.eprintf ("shell: Invalid command usage with pipe." +:+ nl);;
      ret 1
  end.

(** *** [parse_line]

    The result is the argument vector, or NULL.  [args] is the array,
    [cells] what the code has written into it. *)
Definition parse_line (line : string) : M (option argv) :=
  let line_copy := strdup line in
  let pipe_check_copy := strdup line in
  let pipe_present := strchr pipe_check_copy "|"%char in
  do args <- malloc_args;
  let (token, cells) := tokenize line_copy in
  if bool_decide (token <> None) && (MAX_ARGS <=? length cells)%nat then
    Sys.eprintf ("shell: Too many arguments." +:+ nl);;
    free_args {| av_block := args; av_index := 0; av_cells := cells |};;
    free line_copy;;
    ret None
  else
    let cells := cells ++ [None] in
    free line_copy;;
    if pipe_present then
      let pipe_index := find_pipe cells 0 in
      if negb (pipe_index =? -1) then
        let cells := <[Z.to_nat pipe_index := None]> cells in
        let command1 :=
          {| av_block := args; av_index := 0; av_cells := cells |} in
        let command2 :=
          {| av_block := args; av_index := Z.to_nat (pipe_index + 1);
             av_cells := drop (Z.to_nat (pipe_index + 1)) cells |} in
        handle_pipe command1 command2;;
        ret None
      else ret (Some {| av_block := args; av_index := 0; av_cells := cells |})
    else ret (Some {| av_block := args; av_index := 0; av_cells := cells |}).

(** *** [read_line] and [main]

    [stdin] is the list of the buffers successive [fgets] calls fill,
    each of at most [MAX_LINE_LENGTH - 1] characters; when it is used up
    [fgets] returns NULL. *)
Definition read_line (fgets_result : option string) : option string :=
  match fgets_result with
  | None => None
  | Some buffer => Some (chop_newline buffer)
  end.

(** [status] is declared without an initializer: it is [None] until
    the first assignment.

    One turn of the [do ... while (status)] loop, up to the test: [None]
    when the turn leaves the loop by [break], otherwise [status] as the
    test is going to find it. *)
Definition shell_turn (line : option string) (status : option Z)
  : M (option (option Z)) :=
  Sys.printf "> ";;
  match line with
  | None => ret None
  | Some line =>
      do args <- parse_line line;
      match args with
      | None => free line;; ret (Some status)
      | Some args =>
          do status <- execute_command (entries args);
          free line;;
          free_args args;;
          ret (Some (Some status))
      end
  end.

(** [while (status)]: using the variable before it has been assigned is
    undefined. *)
Definition loop_test (status : option Z) : M bool :=
  match status with
  | None => fun w => Undefined w
  | Some status => ret (negb (status =? 0))
  end.

Fixpoint shell_loop (stdin : list string) (status : option Z) : M unit :=
  do next <- shell_turn (read_line (head stdin)) status;
  match next, stdin with
  | Some status, _ :: stdin' =>
      do again <- loop_test status;
      if again then shell_loop stdin' status else ret tt
  | _, _ => ret tt
  end.

Definition main (stdin : list string) : M Z :=
  Sys.signal SIG_IGN;;
  shell_loop stdin None;;
  Sys.printf ("Exiting simple shell..." +:+ nl);;
  ret 0.

(** The world the interpreter starts in: the three standard descriptors
    on the terminal, the default disposition, nothing done yet. *)
Definition boot (cwd : string) (home : option string)
    (fs : string -> string -> string + Z)
    (pipe_ans : nat -> option Z) (fork_ans : nat -> fork_answer)
    (waits : list wait_answer) : world :=
  {| w_sigint := SIG_DFL;
     w_fds := {[ STDIN_FILENO := Terminal; STDOUT_FILENO := Terminal;
                 STDERR_FILENO := Terminal ]};
     w_cwd := cwd; w_errno := 0; w_trace := []; w_children := [];
     w_live := ∅; w_nblocks := 0;
     w_home := home; w_fs := fs;
     w_npipes := 0; w_pipe_ans := pipe_ans;
     w_nforks := 0; w_fork_ans := fork_ans;
     w_waits := waits |}.

(** *** The standard input as a sequence of characters

    [fgets(buffer, n, stdin)] reads characters up to and including the
    first newline, but no more than [n - 1] of them, and stores them
    with a NUL after the last; at the end of the input, with nothing
    read, it returns NULL.  [room] is the number of characters that may
    still be read; the second component is the input left. *)
Fixpoint fgets_loop (room : nat) (input : string) : string * string :=
  match room, input with
  | S room', String c input' =>
      if Ascii.eqb c "010"%char then (String c EmptyString, input')
      else let (b, rest) := fgets_loop room' input' in (String c b, rest)
  | _, _ => (EmptyString, input)
  end.

Definition fgets (n : nat) (input : string) : option string * string :=
  match input with
  | EmptyString => (None, EmptyString)
  | _ => let (b, rest) := fgets_loop (n - 1) input in (Some b, rest)
  end.

(** The characters stored, read as a C string: those before the first
    NUL among them. *)
Fixpoint c_str (stored : string) : string :=
  match stored with
  | EmptyString => EmptyString
  | String c s => if Ascii.eqb c "000"%char then EmptyString else String c (c_str s)
  end.

(** The buffers that the calls of [read_line] find, one after the other,
    until [fgets] returns NULL, on a stream whose position only these
    calls move.  A call that returns a buffer has taken at least one
    character of the input.  The children of the interpreter share the
    stream: one that reads from it takes characters away, and when the
    input is a file the [exit] of a child whose [execvp] failed moves
    its position back, so that lines are read again.  [buffers] says
    nothing of such sessions beyond the call that comes next. *)
Fixpoint buffers_loop (calls : nat) (input : string) : list string :=
  match calls with
  | O => []
  | S calls' =>
      match fgets MAX_LINE_LENGTH input with
      | (Some stored, rest) => c_str stored :: buffers_loop calls' rest
      | (None, _) => []
      end
  end.

Definition buffers (input : string) : list string :=
  buffers_loop (String.length input) input.

(** * Properties *)

(** ** The tokenizer computes the tokens of the line *)

Section Tokenizer.

Lemma strcmp_0 (a b : string) : (strcmp a b =? 0) = bool_decide (a = b).
Proof.
  unfold strcmp.
  destruct (String.compare a b) eqn:E.
  - apply String.compare_eq_iff in E. subst. by rewrite bool_decide_eq_true_2.
  - rewrite bool_decide_eq_false_2; [done|].
    intros ->. pose proof (String.compare_antisym b b) as H.
    rewrite E in H. discriminate.
  - rewrite bool_decide_eq_false_2; [done|].
    intros ->. pose proof (String.compare_antisym b b) as H.
    rewrite E in H. discriminate.
Qed.

Lemma tokens_cons (c : ascii) (s : string) :
  tokens (String c s) =
    if is_delim c then tokens s
    else String c (fst (words s)) :: snd (words s).
Proof.
  unfold tokens. simpl. destruct (words s) as [w ws].
  by destruct (is_delim c).
Qed.

(** The run at the head of [s] is what [span_token] cuts off, and the
    runs after it are the tokens of what [span_token] leaves. *)
Lemma words_span (s : string) :
  words s = (fst (span_token s), tokens (snd (span_token s))).
Proof.
  induction s as [|c s IH]; [done|].
  simpl. rewrite IH. destruct (is_delim c); simpl.
  - unfold tokens. by rewrite IH.
  - by destruct (span_token s).
Qed.

Lemma strtok_tokens (s : string) :
  match strtok s with
  | (None, _) => tokens s = []
  | (Some t, saved) => tokens s = t :: tokens saved
  end.
Proof.
  induction s as [|c s IH]; [done|].
  rewrite tokens_cons. unfold strtok in *. simpl.
  destruct (is_delim c) eqn:Ec; [exact IH|].
  rewrite Ec, words_span. simpl. by destruct (span_token s).
Qed.

(** What is still to come when the loop test is evaluated. *)
Definition pending (token : option string) (saved : string) : list string :=
  match token with
  | Some t => t :: tokens saved
  | None => []
  end.

Lemma pending_strtok (s : string) :
  pending (fst (strtok s)) (snd (strtok s)) = tokens s.
Proof.
  pose proof (strtok_tokens s) as H.
  destruct (strtok s) as [[t|] saved]; simpl; congruence.
Qed.

Lemma tokenize_loop_spec (room : nat) :
  forall token saved args,
    tokenize_loop room token saved args =
      (pending token saved !! room,
       args ++ (Some <$> take room (pending token saved))).
Proof.
  induction room as [|room IH]; intros token saved args.
  - destruct token; simpl; by rewrite app_nil_r.
  - destruct token as [t|]; simpl; [|by rewrite app_nil_r].
    pose proof (pending_strtok saved) as H.
    destruct (strtok saved) as [token' saved']. simpl in H.
    rewrite IH, H. unfold strdup. by rewrite <- app_assoc.
Qed.

Lemma tokenize_spec (line : string) :
  tokenize line =
    (tokens line !! MAX_ARGS, Some <$> take MAX_ARGS (tokens line)).
Proof.
  unfold tokenize.
  pose proof (pending_strtok line) as H.
  destruct (strtok line) as [token saved]. simpl in H.
  by rewrite tokenize_loop_spec, H.
Qed.

(** A character of a token is a character of the line. *)
Lemma words_strchr (c : ascii) (s : string) :
  forall t, t ∈ fst (words s) :: snd (words s) ->
            strchr t c = true -> strchr s c = true.
Proof.
  induction s as [|a s IH]; intros t Ht Hc.
  - simpl in Ht. apply list_elem_of_singleton in Ht. by subst.
  - simpl in *. destruct (words s) as [w ws]. simpl in IH.
    destruct (Ascii.eqb a c) eqn:Eac; [done|].
    destruct (is_delim a); simpl in Ht.
    + apply elem_of_cons in Ht as [->|Ht]; [done|].
      apply (IH t); [|done].
      destruct w; simpl in Ht; [by apply elem_of_cons; right|done].
    + apply elem_of_cons in Ht as [->|Ht].
      * simpl in Hc. rewrite Eac in Hc. apply (IH w); [by left|done].
      * apply (IH t); [by right|done].
Qed.

Lemma tokens_strchr (c : ascii) (s t : string) :
  t ∈ tokens s -> strchr t c = true -> strchr s c = true.
Proof.
  intros Ht. apply words_strchr.
  unfold tokens in Ht. destruct (words s) as [w ws]. simpl.
  destruct w; simpl in Ht; [by right|done].
Qed.

Lemma pipe_token_strchr (s : string) :
  "|" ∈ tokens s -> strchr s "|"%char = true.
Proof. intros H. by apply (tokens_strchr _ _ _ H). Qed.

End Tokenizer.

(** ** [parse_line] as a function of the token sequence *)

(** The first ["|"] of a token sequence, with what is before it and what
    is after it. *)
Fixpoint split_pipe (ts : list string) : option (list string * list string) :=
  match ts with
  | [] => None
  | t :: ts' =>
      if bool_decide (t = "|") then Some ([], ts')
      else match split_pipe ts' with
           | Some (before, after) => Some (t :: before, after)
           | None => None
           end
  end.

Inductive parsed :=
| TooMany
| Single (command : list string)
| Piped (command1 command2 : list string).

Definition classify (line : string) : parsed :=
  let ts := tokens line in
  if (MAX_ARGS <? length ts)%nat then TooMany
  else match split_pipe ts with
       | Some (before, after) => Piped before after
       | None => Single ts
       end.

Definition too_many_arguments : event :=
  EvWrite STDERR_FILENO ("shell: Too many arguments." +:+ nl).

Definition pipe_usage : event :=
  EvWrite STDERR_FILENO ("shell: Invalid command usage with pipe." +:+ nl).

(** The vector of a single command in the array [args]. *)
Definition single_vector (args : nat) (command : list string) : argv :=
  {| av_block := args; av_index := 0;
     av_cells := (Some <$> command) ++ [None] |}.

(** The two vectors of a pipeline in the array [args]: the first starts
    at the first cell and ends at the NULL written over the pipe token,
    the second starts in the cell after it. *)
Definition first_vector (args : nat) (command1 command2 : list string) : argv :=
  {| av_block := args; av_index := 0;
     av_cells := (Some <$> command1) ++ None :: (Some <$> command2) ++ [None] |}.

Definition second_vector (args : nat) (command1 command2 : list string) : argv :=
  {| av_block := args; av_index := S (length command1);
     av_cells := (Some <$> command2) ++ [None] |}.

(** What [parse_line] does with a line of each kind, once the array is
    allocated.  With too many tokens the error is written, and then
    [free_args] is given an array in which no NULL has been written. *)
Definition run_parsed (p : parsed) : M (option argv) :=
  do args <- malloc_args;
  match p with
  | TooMany => fun w => Undefined (log too_many_arguments w)
  | Single command => ret (Some (single_vector args command))
  | Piped command1 command2 =>
      handle_pipe (first_vector args command1 command2)
                  (second_vector args command1 command2);;
      ret None
  end.

Section ParseLine.

Lemma split_pipe_Some (ts before after : list string) :
  split_pipe ts = Some (before, after) ->
  ts = before ++ "|" :: after /\ "|" ∉ before.
Proof.
  revert before after.
  induction ts as [|t ts IH]; intros before after H; [done|].
  simpl in H. case_bool_decide as Ht.
  - injection H as <- <-. subst t. split; [done|]. apply not_elem_of_nil.
  - destruct (split_pipe ts) as [[b a]|]; [|done].
    injection H as <- <-. destruct (IH b a eq_refl) as [-> Hb].
    split; [done|]. by apply not_elem_of_cons.
Qed.

Lemma split_pipe_None (ts : list string) :
  split_pipe ts = None <-> "|" ∉ ts.
Proof.
  induction ts as [|t ts IH]; simpl.
  - split; [intros _; apply not_elem_of_nil|done].
  - case_bool_decide as Ht.
    + subst t. split; [done|]. intros H. exfalso. apply H. by left.
    + destruct (split_pipe ts) as [[b a]|].
      * split; [done|]. intros H. apply not_elem_of_cons in H as [_ H].
        by apply IH in H.
      * split; [|done]. intros _. apply not_elem_of_cons. split; [done|].
        by apply IH.
Qed.

Lemma argv_at_terminated (l : list string) (rest : list (option string)) :
  argv_at ((Some <$> l) ++ None :: rest) = l.
Proof. induction l as [|t l IH]; simpl; [done|]. f_equal. exact IH. Qed.

Lemma find_pipe_spec (l : list string) (rest : list (option string)) (j : Z) :
  find_pipe ((Some <$> l) ++ None :: rest) j =
    match split_pipe l with
    | Some (before, _) => j + Z.of_nat (length before)
    | None => -1
    end.
Proof.
  revert j. induction l as [|t l IH]; intros j; simpl; [done|].
  rewrite strcmp_0. case_bool_decide as Ht; simpl; [lia|].
  rewrite IH. destruct (split_pipe l) as [[b a]|]; simpl; [lia|done].
Qed.

(** Writing NULL over the cell of the pipe token leaves the cells of the
    two vectors. *)
Lemma pipe_cells (before after : list string) :
  let cells := (Some <$> (before ++ "|" :: after)) ++ [None] in
  let k := Z.of_nat (length before) in
  let cells' := <[Z.to_nat k := None]> cells in
  cells' = (Some <$> before) ++ None :: (Some <$> after) ++ [None] /\
  drop (Z.to_nat (k + 1)) cells' = (Some <$> after) ++ [None].
Proof.
  intros cells k cells'. subst cells cells' k.
  rewrite Nat2Z.id.
  replace (Z.to_nat (Z.of_nat (length before) + 1)) with (S (length before)) by lia.
  induction before as [|t before [IH1 IH2]]; simpl.
  - split; [done|]. by rewrite drop_0.
  - split; [f_equal; exact IH1|exact IH2].
Qed.

Lemma unterminated (l : list string) : None ∉ (Some <$> l : list (option string)).
Proof. intros H. apply list_elem_of_fmap in H as (t & [=] & _). Qed.

(** [parse_line] does with a line what [run_parsed] does with its kind. *)
Lemma parse_line_classify (line : string) (w : world) :
  parse_line line w = run_parsed (classify line) w.
Proof.
  unfold parse_line, run_parsed, classify, strdup, bind at 1 4, malloc_args.
  rewrite tokenize_spec.
  destruct (MAX_ARGS <? length (tokens line))%nat eqn:Hlen.
  - apply Nat.ltb_lt in Hlen.
    destruct (lookup_lt_is_Some_2 (tokens line) MAX_ARGS Hlen) as [t Ht].
    rewrite Ht, length_fmap, length_take, Nat.min_l by lia.
    rewrite (bool_decide_eq_true_2 (Some t <> None)) by done.
    rewrite Nat.leb_refl. simpl.
    unfold bind, Sys.eprintf, free_args, terminated. simpl.
    rewrite (bool_decide_eq_true_2 (w_nblocks w ∈ _)) by set_solver.
    rewrite (bool_decide_eq_false_2 (None ∈ _)) by apply unterminated.
    done.
  - apply Nat.ltb_ge in Hlen.
    rewrite (lookup_ge_None_2 (tokens line) MAX_ARGS) by lia.
    rewrite (bool_decide_eq_false_2 (None <> None)) by (intros H; by apply H).
    rewrite take_ge by lia. simpl.
    unfold free, bind at 1, ret at 1.
    rewrite find_pipe_spec.
    destruct (split_pipe (tokens line)) as [[before after]|] eqn:Hsp.
    + destruct (split_pipe_Some _ _ _ Hsp) as [Hts Hnot].
      rewrite pipe_token_strchr by (rewrite Hts; set_solver).
      replace (0 + Z.of_nat (length before) =? -1) with false
        by (symmetry; apply Z.eqb_neq; lia).
      simpl.
      rewrite Hts.
      destruct (pipe_cells before after) as [H1 H2].
      rewrite Z.add_0_l, H2, H1.
      replace (Z.to_nat (Z.of_nat (length before) + 1)) with (S (length before)) by lia.
      done.
    + simpl. by destruct (strchr line "|").
Qed.

End ParseLine.
(** ** The continuation signal of the dispatcher *)

Definition is_stop (a : wait_answer) : Prop :=
  match a with
  | WaitStatus (WStopped _) => True
  | _ => False
  end.

Definition is_external (args : list string) : Prop :=
  match args with
  | [] => False
  | arg0 :: _ => arg0 ∉ builtin_commands
  end.

Section Dispatch.

Lemma is_builtin_spec (arg0 : string) :
  is_builtin arg0 = bool_decide (arg0 ∈ builtin_commands).
Proof.
  unfold is_builtin, builtin_commands. simpl. rewrite !strcmp_0, orb_false_r.
  destruct (decide (arg0 = "cd")) as [->|H1]; [done|].
  destruct (decide (arg0 = "exit")) as [->|H2]; [done|].
  rewrite (bool_decide_eq_false_2 (arg0 = "cd")) by done.
  rewrite (bool_decide_eq_false_2 (arg0 = "exit")) by done.
  rewrite bool_decide_eq_false_2; [done|].
  rewrite !elem_of_cons, elem_of_nil. tauto.
Qed.

(** The wait loop returns 1 whenever it returns, and it fails to return
    only when every answer was a stop report. *)
Lemma wait_child_outcome (turns : nat) (pid : positive) :
  forall w, (length (w_waits w) < turns)%nat ->
    match wait_child turns pid w with
    | Ret status _ => status = 1
    | Block _ => Forall is_stop (w_waits w)
    | Undefined _ => False
    end.
Proof.
  induction turns as [|turns IH]; intros w Hlen; [lia|].
  simpl. unfold bind at 1, Sys.waitpid.
  destruct (w_waits w) as [|[st|e] rest] eqn:Hw; simpl in *.
  - constructor.
  - destruct st as [code|sig|sig]; simpl; try done.
    specialize (IH (log (EvWaitpid pid WUNTRACED (Some (inl (WStopped sig))))
                      (with_waits rest w))).
    simpl in IH. specialize (IH ltac:(lia)).
    destruct (wait_child turns pid _); [done| |done].
    constructor; [exact I|exact IH].
  - done.
Qed.

Lemma launch_process_outcome (args : list string) (w : world) :
  match launch_process args w with
  | Ret status _ => status = 1
  | Block _ => Forall is_stop (w_waits w)
  | Undefined _ => False
  end.
Proof.
  unfold launch_process, bind at 1, Sys.fork.
  destruct (w_fork_ans w (w_nforks w)) as [pid env|e]; [|done].
  destruct (launch_child args env _) as [c ce].
  match goal with |- context [wait_child _ pid ?w1] =>
    pose proof (wait_child_outcome (S (length (w_waits w1))) pid w1 ltac:(lia)) as H
  end.
  exact H.
Qed.

Lemma handle_builtin_outcome (arg0 : string) (rest : list string) (w : world) :
  exists w', handle_builtin arg0 rest w
             = Ret (if bool_decide (arg0 = "exit") then 0 else 1) w'.
Proof.
  unfold handle_builtin. rewrite !strcmp_0.
  case_bool_decide; [by eexists|].
  case_bool_decide; [|by eexists].
  destruct rest as [|path rest].
  - unfold bind at 1, Sys.getenv_HOME.
    destruct (w_home w) as [dir|]; [|by eexists].
    unfold bind at 1, Sys.chdir. simpl.
    destruct (w_fs w (w_cwd w) dir); by eexists.
  - unfold bind at 1, Sys.chdir.
    destruct (w_fs w (w_cwd w) path); by eexists.
Qed.

End Dispatch.

(** C1.  Whatever the command and the world, [execute_command] returns 0
    (stop) when the first token is ["exit"], whatever follows it, and 1
    (continue) on every other path: [cd], the message for a built-in
    without a handler, an external command, the empty command.  The
    empty command changes nothing.  The only way not to return is an
    external command whose child is never reported as done: every answer
    of [waitpid] was a stop report.  Nothing on these paths is
    undefined. *)
Theorem execute_command_signal (args : list string) (w : world) :
  execute_command [] w = Ret 1 w /\
  match execute_command args w with
  | Ret status _ =>
      status = (if bool_decide (head args = Some "exit") then 0 else 1)
  | Block _ => is_external args /\ Forall is_stop (w_waits w)
  | Undefined _ => False
  end.
Proof.
  split; [done|].
  destruct args as [|arg0 rest]; [done|].
  unfold execute_command. rewrite is_builtin_spec.
  case_bool_decide as Hb.
  - destruct (handle_builtin_outcome arg0 rest w) as [w' ->]. simpl.
    repeat case_bool_decide; congruence.
  - pose proof (launch_process_outcome (arg0 :: rest) w) as H.
    destruct (launch_process (arg0 :: rest) w); [|done|done].
    subst. simpl. rewrite bool_decide_eq_false_2; [done|].
    intros [= ->]. apply Hb. unfold builtin_commands.
    rewrite !elem_of_cons. tauto.
Qed.

(** ** The wait loop of [launch_process] *)

Definition stop_reports (sigs : list Z) : list wait_answer :=
  (fun sig => WaitStatus (WStopped sig)) <$> sigs.

Definition stop_events (pid : positive) (sigs : list Z) : list event :=
  (fun sig => EvWaitpid pid WUNTRACED (Some (inl (WStopped sig)))) <$> sigs.

(** The call that ends the loop: a report that the child exited or was
    killed by a signal, or a failure of [waitpid], which is reported. *)
Definition final_events (pid : positive) (a : wait_answer) : list event :=
  match a with
  | WaitStatus st => [EvWaitpid pid WUNTRACED (Some (inl st))]
  | WaitFail e =>
      [EvWaitpid pid WUNTRACED (Some (inr e)); EvPerror "waitpid failed" e]
  end.

Section WaitLoop.

Variable pid : positive.

Lemma wait_child_ends (sigs : list Z) :
  forall turns w a rest,
    w_waits w = stop_reports sigs ++ a :: rest ->
    ~ is_stop a ->
    (length (w_waits w) < turns)%nat ->
    exists w',
      wait_child turns pid w = Ret 1 w' /\
      w_waits w' = rest /\
      w_trace w' = w_trace w ++ stop_events pid sigs ++ final_events pid a /\
      w_children w' = w_children w /\
      w_fds w' = w_fds w /\ w_sigint w' = w_sigint w /\ w_cwd w' = w_cwd w.
Proof.
  induction sigs as [|sig sigs IH]; intros turns w a rest Hw Ha Hlen;
    (destruct turns as [|turns]; [lia|]);
    simpl; unfold bind at 1, Sys.waitpid; rewrite Hw; simpl.
  - destruct a as [[code|sig|sig]|e]; simpl; try (by exfalso; apply Ha);
      eexists; (split; [reflexivity|]); simpl; by rewrite <- ?app_assoc.
  - match goal with |- context [wait_child turns pid ?w1] =>
      destruct (IH turns w1 a rest) as (w' & -> & Hr & Ht & Hc & Hf & Hs & Hd)
    end; [done|done|simpl; rewrite Hw in Hlen; simpl in Hlen; lia|].
    exists w'. simpl in *. rewrite Ht, <- app_assoc. done.
Qed.

Lemma wait_child_blocks (sigs : list Z) :
  forall turns w,
    w_waits w = stop_reports sigs ->
    (length (w_waits w) < turns)%nat ->
    exists w',
      wait_child turns pid w = Block w' /\
      w_trace w' =
        w_trace w ++ stop_events pid sigs ++ [EvWaitpid pid WUNTRACED None].
Proof.
  induction sigs as [|sig sigs IH]; intros turns w Hw Hlen;
    (destruct turns as [|turns]; [lia|]);
    simpl; unfold bind at 1, Sys.waitpid; rewrite Hw; simpl.
  - by eexists.
  - match goal with |- context [wait_child turns pid ?w1] =>
      destruct (IH turns w1) as (w' & -> & Ht)
    end; [done|simpl; rewrite Hw in Hlen; simpl in Hlen; lia|].
    exists w'. simpl in *. by rewrite Ht, <- app_assoc.
Qed.

Lemma launch_process_forked (args : list string) (w : world) (env : child_env) :
  w_fork_ans w (w_nforks w) = ForkOk pid env ->
  exists w1,
    launch_process args w = wait_child (S (length (w_waits w1))) pid w1 /\
    w_waits w1 = w_waits w /\
    w_trace w1 = w_trace w ++ [EvFork (inl pid)].
Proof.
  intros Hfork. unfold launch_process, bind, Sys.fork. rewrite Hfork.
  destruct (launch_child args env _) as [c ce]. by eexists.
Qed.

End WaitLoop.

(** A line of 65 tokens, and one of 67 tokens with a pipe among them. *)
Definition long_line : string := String.concat " " (repeat "a" 65).
Definition long_piped_line : string := long_line +:+ " | wc".

(** A world in which [fork] and [pipe] succeed, the home directory is
    [/home/user] and no other directory can be entered. *)
Definition ENOENT : Z := 2.
Definition ECHILD : Z := 10.
Definition SIGTSTP : Z := 20.

Definition demo_fs (cwd path : string) : string + Z :=
  if bool_decide (path = "/home/user") then inl path else inr ENOENT.

Definition demo_world (home : option string) (waits : list wait_answer) : world :=
  boot "/" home demo_fs (fun _ => None)
    (fun n => ForkOk (Pos.of_succ_nat (100 + n))
                {| ce_dup2 := None; ce_exec := None |})
    waits.

(** [exit] with arguments stops; a command that is not built in, once
    its child is reported as done, continues. *)
Example exit_with_arguments :
  execute_command ["exit"; "3"] (demo_world None [])
  = Ret 0 (demo_world None []).
Proof. reflexivity. Qed.

Example external_command_continues :
  returned (execute_command ["ls"; "-l"] (demo_world None [WaitStatus (WSignaled SIGINT)]))
  = Some 1.
Proof. reflexivity. Qed.

(** C9, as the claim states it, fails: the child is reported as stopped,
    the next [waitpid] fails, and [launch_process] returns control with
    no report that the child exited or was killed. *)
Lemma launch_process_returns_on_wait_failure :
  let w := demo_world None [WaitStatus (WStopped SIGTSTP); WaitFail ECHILD] in
  let o := launch_process ["sleep"; "100"] w in
  returned o = Some 1 /\
  w_trace (world_of o) =
    [EvFork (inl 101%positive);
     EvWaitpid 101 WUNTRACED (Some (inl (WStopped SIGTSTP)));
     EvWaitpid 101 WUNTRACED (Some (inr ECHILD));
     EvPerror "waitpid failed" ECHILD] /\
  Forall (fun e => forall p o st, e = EvWaitpid p o (Some (inl st)) ->
                                  WIFEXITED st = false /\ WIFSIGNALED st = false)
    (w_trace (world_of o)).
Proof.
  vm_compute. split; [done|]. split; [done|].
  repeat (apply List.Forall_cons; [intros p o st [=]; by subst|]).
  apply List.Forall_nil.
Qed.

(** C9, amended.  Once the child [pid] is forked, [launch_process] calls
    [waitpid(pid, &status, WUNTRACED)] and nothing else.  Each report
    that the child is stopped is followed by another such call.  The loop
    ends, with 1, at the first answer that is not a stop report: a report
    that the child exited or was killed by a signal, or a failure of
    [waitpid] itself, which is reported.  When every answer is a stop
    report control does not return. *)
Theorem launch_process_waits (args : list string) (w : world)
    (pid : positive) (env : child_env) (sigs : list Z) :
  w_fork_ans w (w_nforks w) = ForkOk pid env ->
  (forall a rest,
      w_waits w = stop_reports sigs ++ a :: rest ->
      ~ is_stop a ->
      exists w',
        launch_process args w = Ret 1 w' /\
        w_waits w' = rest /\
        w_trace w' =
          w_trace w ++ EvFork (inl pid) :: stop_events pid sigs ++ final_events pid a) /\
  (w_waits w = stop_reports sigs ->
   exists w',
     launch_process args w = Block w' /\
     w_trace w' =
       w_trace w ++ EvFork (inl pid) :: stop_events pid sigs
         ++ [EvWaitpid pid WUNTRACED None]).
Proof.
  intros Hfork.
  destruct (launch_process_forked pid args w env Hfork) as (w1 & -> & Hw1 & Ht1).
  assert (Hlen : (length (w_waits w1) < S (length (w_waits w1)))%nat) by lia.
  rewrite <- Hw1. split.
  - intros a rest Hw Ha.
    destruct (wait_child_ends pid sigs _ w1 a rest Hw Ha Hlen)
      as (w' & Hrun & Hr & Ht & _).
    exists w'. split; [exact Hrun|]. split; [exact Hr|].
    rewrite Ht, Ht1. by rewrite <- app_assoc.
  - intros Hw.
    destruct (wait_child_blocks pid sigs _ w1 Hw Hlen) as (w' & Hrun & Ht).
    exists w'. split; [exact Hrun|].
    rewrite Ht, Ht1. by rewrite <- app_assoc.
Qed.

Lemma launch_process_waits_witness :
  exists w',
    launch_process ["sleep"; "1"]
      (demo_world None [WaitStatus (WStopped SIGTSTP); WaitStatus (WExited 0)])
    = Ret 1 w' /\
    w_waits w' = [] /\
    w_trace w' =
      [] ++ EvFork (inl 101%positive)
         :: stop_events 101 [SIGTSTP] ++ final_events 101 (WaitStatus (WExited 0)).
Proof.
  refine (proj1 (launch_process_waits ["sleep"; "1"]
                   (demo_world None [WaitStatus (WStopped SIGTSTP); WaitStatus (WExited 0)])
                   101%positive {| ce_dup2 := None; ce_exec := None |} [SIGTSTP] _)
            (WaitStatus (WExited 0)) [] _ _).
  - reflexivity.
  - reflexivity.
  - simpl. intros H. exact H.
Defined.

(** ** Descriptors of the pipeline *)

(** The calls made between two states of the world. *)
Definition events_since (w w' : world) : list event :=
  drop (length (w_trace w)) (w_trace w').

Definition blocked {A} (o : outcome A) : Prop :=
  match o with
  | Block _ => True
  | _ => False
  end.

(** The last statements of [handle_pipe]. *)
Definition release_both (command1 command2 : argv) : M Z :=
  free_args command1;; free_args command2;; ret 1.

Section Pipeline.

Lemma lowest_free_fresh (t : gmap nat file) : t !! Sys.lowest_free t = None.
Proof.
  unfold Sys.lowest_free.
  destruct (List.find _ _) as [k|] eqn:E; simpl.
  - apply find_some in E as [_ E]. by apply bool_decide_eq_true_1 in E.
  - exfalso.
    assert (Hsub : set_seq (C:=gset nat) 0 (S (size t)) ⊆ dom t).
    { intros k Hk. apply elem_of_set_seq in Hk.
      apply elem_of_dom. apply not_eq_None_Some.
      assert (Hin : In k (seq 0 (S (size t)))) by (apply in_seq; lia).
      pose proof (find_none _ _ E k Hin) as Hk'. simpl in Hk'.
      by apply bool_decide_eq_false_1 in Hk'. }
    apply subseteq_size in Hsub.
    rewrite size_set_seq, size_dom in Hsub. lia.
Qed.

(** Closing the two descriptors [pipe] has just opened gives the table
    back. *)
Lemma close_new_pipe (t : gmap nat file) (n : nat) :
  let rd := Sys.lowest_free t in
  let t1 := <[rd := PipeRead n]> t in
  let wr := Sys.lowest_free t1 in
  delete wr (delete rd (<[wr := PipeWrite n]> t1)) = t /\
  t !! rd = None /\ t !! wr = None.
Proof.
  intros rd t1 wr.
  pose proof (lowest_free_fresh t) as Hrd.
  pose proof (lowest_free_fresh t1) as Hwr.
  fold rd in Hrd. fold wr in Hwr.
  assert (Hne : rd <> wr).
  { intros Heq. subst t1. rewrite <- Heq, lookup_insert_eq in Hwr. done. }
  subst t1. rewrite lookup_insert_ne in Hwr by done.
  split; [|done].
  apply map_eq. intros k.
  destruct (decide (k = wr)) as [->|Hkw].
  { by rewrite lookup_delete_eq. }
  rewrite lookup_delete_ne by done.
  destruct (decide (k = rd)) as [->|Hkr].
  { by rewrite lookup_delete_eq. }
  by rewrite lookup_delete_ne, !lookup_insert_ne.
Qed.

Lemma events_since_app (w w' : world) (new : list event) :
  w_trace w' = w_trace w ++ new -> events_since w w' = new.
Proof. unfold events_since. intros ->. apply drop_app_length. Qed.

(** Releasing the vectors is no call of the kernel: it touches the set
    of live arrays and nothing else, and it does not block. *)
Lemma free_args_frame (args : argv) (w : world) :
  let w' := world_of (free_args args w) in
  w_trace w' = w_trace w /\ w_fds w' = w_fds w /\
  w_children w' = w_children w /\ w_sigint w' = w_sigint w /\
  ~ blocked (free_args args w).
Proof.
  unfold free_args.
  repeat (match goal with |- context [if ?b then _ else _] => destruct b end);
    simpl; repeat split; auto.
Qed.

Lemma release_both_frame (command1 command2 : argv) (w : world) :
  let w' := world_of (release_both command1 command2 w) in
  w_trace w' = w_trace w /\ w_fds w' = w_fds w /\
  w_children w' = w_children w /\ w_sigint w' = w_sigint w /\
  ~ blocked (release_both command1 command2 w).
Proof.
  unfold release_both, bind.
  pose proof (free_args_frame command1 w) as H1.
  destruct (free_args command1 w) as [[] w1|w1|w1]; simpl in *; try done.
  pose proof (free_args_frame command2 w1) as H2.
  destruct H1 as (E1 & E2 & E3 & E4 & _).
  rewrite E1, E2, E3, E4 in H2.
  by destruct (free_args command2 w1) as [[] w2|w2|w2].
Qed.

Lemma events_since_release (command1 command2 : argv) (w w' : world) :
  events_since w (world_of (release_both command1 command2 w'))
  = events_since w w'.
Proof.
  unfold events_since.
  by destruct (release_both_frame command1 command2 w') as (-> & _).
Qed.

Lemma entries_single (args : nat) (command : list string) :
  entries (single_vector args command) = command.
Proof. apply argv_at_terminated. Qed.

Lemma entries_first (args : nat) (command1 command2 : list string) :
  entries (first_vector args command1 command2) = command1.
Proof. apply argv_at_terminated. Qed.

Lemma entries_second (args : nat) (command1 command2 : list string) :
  entries (second_vector args command1 command2) = command2.
Proof. apply argv_at_terminated. Qed.

Lemma handle_pipe_usage (command1 command2 : argv) (w : world) :
  entries command1 = [] \/ entries command2 = [] ->
  handle_pipe command1 command2 w = Ret 1 (log pipe_usage w).
Proof.
  unfold handle_pipe. intros [-> | ->]; [done|].
  by destruct (entries command1).
Qed.

End Pipeline.

(** C4.  A pipeline with an empty side is turned down by [handle_pipe]
    before anything is created: the usage error is written and the call
    returns; [pipe] and [fork] are not called, no child exists that did
    not exist before, the descriptor table is untouched.  So it is with
    any line that [parse_line] splits into such a pipeline: apart from
    allocating its array, all that [parse_line] does is write the
    message; it returns NULL. *)
Theorem handle_pipe_rejects_empty_side (w : world) :
  (forall command1 command2 : argv,
      entries command1 = [] \/ entries command2 = [] ->
      handle_pipe command1 command2 w = Ret 1 (log pipe_usage w)) /\
  (forall line before after,
      classify line = Piped before after ->
      before = [] \/ after = [] ->
      parse_line line w = Ret None (log pipe_usage (allocated w))) /\
  (forall w0, let w' := log pipe_usage w0 in
   w_children w' = w_children w0 /\ w_nforks w' = w_nforks w0 /\
   w_npipes w' = w_npipes w0 /\ w_fds w' = w_fds w0 /\
   events_since w0 w' = [pipe_usage]) /\
  w_children (allocated w) = w_children w /\ w_nforks (allocated w) = w_nforks w /\
  w_npipes (allocated w) = w_npipes w /\ w_fds (allocated w) = w_fds w /\
  w_trace (allocated w) = w_trace w.
Proof.
  split; [|split; [|split]].
  - intros command1 command2. apply handle_pipe_usage.
  - intros line before after Hline Hempty.
    rewrite parse_line_classify, Hline. unfold run_parsed, bind at 1 2, malloc_args.
    rewrite handle_pipe_usage; [done|].
    by rewrite entries_first, entries_second.
  - intros w0. simpl. repeat split. by apply events_since_app.
  - done.
Qed.

Lemma handle_pipe_rejects_empty_side_witness :
  parse_line "ls |" (demo_world None []) =
    Ret None (log pipe_usage (allocated (demo_world None []))).
Proof.
  refine (proj1 (proj2 (handle_pipe_rejects_empty_side (demo_world None [])))
            "ls |" ["ls"] [] _ _).
  - reflexivity.
  - right. reflexivity.
Defined.

(** The other line the specification names. *)
Example parse_line_pipe_first :
  parse_line "| ls" (demo_world None []) =
    Ret None (log pipe_usage (allocated (demo_world None []))).
Proof. rewrite parse_line_classify. reflexivity. Qed.

Lemma release_both_fds (command1 command2 : argv) (w : world) :
  w_fds (world_of (release_both command1 command2 w)) = w_fds w.
Proof. by destruct (release_both_frame command1 command2 w) as (_ & -> & _). Qed.

(** The calls a run has added to the trace, computed from the trace. *)
Ltac new_events H :=
  erewrite events_since_app in H
    by (simpl; rewrite <- !app_assoc; simpl; reflexivity).

(** [H] says that a call is among explicitly listed ones, and it is
    none of them. *)
Ltac not_among H :=
  repeat (apply elem_of_cons in H as [H|H]; [discriminate|]);
  by apply elem_of_nil in H.

(** The calls of a pipeline that runs to its end. *)
Example pipeline_calls :
  let w := allocated (demo_world None [WaitStatus (WExited 0); WaitStatus (WExited 0)]) in
  let o := handle_pipe (first_vector 0 ["ls"] ["wc"]) (second_vector 0 ["ls"] ["wc"]) w in
  events_since w (world_of o)
  = [EvPipe (inl (3, 4)%nat); EvFork (inl 101%positive); EvFork (inl 102%positive);
     EvClose 3; EvClose 4;
     EvWaitpid 101 0 (Some (inl (WExited 0)));
     EvWaitpid 102 0 (Some (inl (WExited 0)))].
Proof. by vm_compute. Qed.

(** ** The [cd] built-in *)

Definition cd_needs_argument : event :=
  EvWrite STDERR_FILENO
    ("shell: 'cd' requires an argument if HOME is not set." +:+ nl).

Definition cd_body (rest : list string) : M Z :=
  match rest with
  | [] =>
      do home_dir <- Sys.getenv_HOME;
      match home_dir with
      | None =>
          Sys.eprintf ("shell: 'cd' requires an argument if HOME is not set." +:+ nl);;
          ret 1
      | Some dir =>
          do r <- Sys.chdir dir;
          (if negb (r =? 0) then Sys.perror "shell" else ret tt);;
          ret 1
      end
  | path :: _ =>
      do r <- Sys.chdir path;
      (if negb (r =? 0) then Sys.perror "shell" else ret tt);;
      ret 1
  end.

(** The dispatcher sends [cd] to the branch of [handle_builtin] for it. *)
Lemma execute_command_cd (rest : list string) :
  execute_command ("cd" :: rest) = cd_body rest.
Proof. reflexivity. Qed.

(** C8.  [cd path], when [chdir(path)] fails with [errno = e]: the error
    is reported by [perror("shell")], the working directory is the one
    it was, nothing but [errno] and the trace has changed, and the
    result is 1 (continue).  [cd] alone asks the environment for [HOME];
    when it is not set the error message is written and nothing else is
    done; when it is set [chdir] is called on it. *)
Theorem cd_failure_is_not_fatal (w : world) :
  (forall path more e,
      w_fs w (w_cwd w) path = inr e ->
      execute_command ("cd" :: path :: more) w =
        Ret 1 (log (EvPerror "shell" e)
                 (log (EvChdir path (Some e)) (with_errno e w))) /\
      w_cwd (world_of (execute_command ("cd" :: path :: more) w)) = w_cwd w) /\
  (w_home w = None ->
   execute_command ["cd"] w =
     Ret 1 (log cd_needs_argument (log (EvGetenv "HOME" None) w))) /\
  (forall dir,
      w_home w = Some dir ->
      execute_command ["cd"] w =
        (do r <- Sys.chdir dir;
         (if negb (r =? 0) then Sys.perror "shell" else ret tt);; ret 1)
          (log (EvGetenv "HOME" (Some dir)) w)).
Proof.
  split; [|split].
  - intros path more e Hfs. rewrite execute_command_cd.
    unfold cd_body, bind, Sys.chdir. by rewrite Hfs.
  - intros Hhome. rewrite execute_command_cd.
    unfold cd_body, bind, Sys.getenv_HOME. by rewrite Hhome.
  - intros dir Hhome. rewrite execute_command_cd.
    unfold cd_body, bind at 1, Sys.getenv_HOME. by rewrite Hhome.
Qed.

Lemma cd_failure_is_not_fatal_witness :
  let w := demo_world (Some "/home/user") [] in
  execute_command ["cd"; "/nonexistent-path"] w =
    Ret 1 (log (EvPerror "shell" ENOENT)
             (log (EvChdir "/nonexistent-path" (Some ENOENT)) (with_errno ENOENT w))) /\
  w_cwd (world_of (execute_command ["cd"; "/nonexistent-path"] w)) = w_cwd w.
Proof.
  intros w.
  refine (proj1 (cd_failure_is_not_fatal w) "/nonexistent-path" [] ENOENT _).
  reflexivity.
Defined.

(** The end-to-end case of the specification: a failed [cd] and then
    [cd] alone, with a home directory configured. *)
Example cd_then_home :
  let w := demo_world (Some "/home/user") [] in
  let o := (execute_command ["cd"; "/nonexistent-path"];;
            execute_command ["cd"]) w in
  returned o = Some 1 /\ w_cwd (world_of o) = "/home/user" /\
  w_trace (world_of o) =
    [EvChdir "/nonexistent-path" (Some ENOENT); EvPerror "shell" ENOENT;
     EvGetenv "HOME" (Some "/home/user"); EvChdir "/home/user" None].
Proof. vm_compute. done. Qed.

(** ** What [parse_line] does besides tokenizing *)

Definition pipe_count (ts : list string) : nat :=
  length (List.filter (fun t => bool_decide (t = "|")) ts).

Section ParseEffects.

Lemma classify_single (line : string) :
  "|" ∉ tokens line ->
  (length (tokens line) <= MAX_ARGS)%nat ->
  classify line = Single (tokens line).
Proof.
  intros Hno Hlen. unfold classify.
  rewrite (proj2 (Nat.ltb_ge _ _)) by done.
  by rewrite (proj2 (split_pipe_None _) Hno).
Qed.

Lemma classify_too_many (line : string) :
  (MAX_ARGS < length (tokens line))%nat -> classify line = TooMany.
Proof. intros Hlen. unfold classify. by rewrite (proj2 (Nat.ltb_lt _ _)). Qed.

Lemma classify_piped (line : string) :
  "|" ∈ tokens line ->
  (length (tokens line) <= MAX_ARGS)%nat ->
  exists before after,
    classify line = Piped before after /\
    tokens line = before ++ "|" :: after /\ "|" ∉ before.
Proof.
  intros Hin Hlen. unfold classify.
  rewrite (proj2 (Nat.ltb_ge _ _)) by done.
  destruct (split_pipe (tokens line)) as [[before after]|] eqn:Hsp.
  - exists before, after. split; [done|]. by apply split_pipe_Some.
  - by apply split_pipe_None in Hsp.
Qed.

Lemma pipe_count_0 (ts : list string) : "|" ∉ ts <-> pipe_count ts = 0%nat.
Proof.
  unfold pipe_count. induction ts as [|t ts IH]; simpl.
  - split; [done|]. intros _. apply not_elem_of_nil.
  - rewrite not_elem_of_cons. case_bool_decide as Ht; simpl.
    + split; [intros [H _]; by subst|done].
    + rewrite IH. split; [by intros [_ ?]|]. intros H. split; [congruence|done].
Qed.

Lemma pipe_count_app (l k : list string) :
  pipe_count (l ++ k) = (pipe_count l + pipe_count k)%nat.
Proof. unfold pipe_count. by rewrite List.filter_app, length_app. Qed.

(** The three things [parse_line] does, by the kind of the line. *)
Lemma parse_line_single (line : string) (w : world) :
  "|" ∉ tokens line ->
  (length (tokens line) <= MAX_ARGS)%nat ->
  parse_line line w
  = Ret (Some (single_vector (w_nblocks w) (tokens line))) (allocated w).
Proof. intros Hno Hlen. by rewrite parse_line_classify, classify_single. Qed.

Lemma parse_line_too_many (line : string) (w : world) :
  (MAX_ARGS < length (tokens line))%nat ->
  parse_line line w = Undefined (log too_many_arguments (allocated w)).
Proof. intros Hlen. by rewrite parse_line_classify, classify_too_many. Qed.

Lemma parse_line_piped (line : string) (before after : list string) (w : world) :
  classify line = Piped before after ->
  parse_line line w
  = (handle_pipe (first_vector (w_nblocks w) before after)
                 (second_vector (w_nblocks w) before after);;
     ret None) (allocated w).
Proof. intros Hc. by rewrite parse_line_classify, Hc. Qed.

End ParseEffects.


(** C3, as the claim states it, fails twice.  The first line has two
    pipe tokens, and the second command still holds the second of them.
    The second line has a pipe token and more than [MAX_ARGS] tokens:
    nothing is split, and no command is run. *)
Lemma second_half_keeps_later_pipes :
  let w := demo_world None [WaitStatus (WExited 0); WaitStatus (WExited 0)] in
  (tokens "a | b | c" = ["a"; "|"; "b"; "|"; "c"] /\
   ch_end <$> w_children (world_of (parse_line "a | b | c" w))
     = [Image ["a"]; Image ["b"; "|"; "c"]] /\
   "|" ∈ ["b"; "|"; "c"]) /\
  ("|" ∈ tokens long_piped_line /\
   events_since w (world_of (parse_line long_piped_line w)) = [too_many_arguments] /\
   w_children (world_of (parse_line long_piped_line w)) = []).
Proof.
  assert (Hlong : tokens long_piped_line = repeat "a" 65 ++ ["|"; "wc"])
    by (by vm_compute).
  split; [split; [done|split; [by vm_compute|]]|split].
  - apply elem_of_cons. right. apply elem_of_cons. by left.
  - rewrite Hlong. apply elem_of_app. right. by left.
  - rewrite parse_line_too_many; [done|].
    rewrite Hlong, length_app, repeat_length. unfold MAX_ARGS. simpl. lia.
Qed.

(** C3, amended.  On a line of at most [MAX_ARGS] tokens, one of which is
    ["|"], the token sequence is cut at its first ["|"]: the commands
    [handle_pipe] receives are the tokens before it and the tokens after
    it, in order, and the token itself is dropped.  ["|"] is not in the
    first command; it is in the second one exactly when the line has
    more than one ["|"] token. *)
Theorem parse_line_splits_at_first_pipe (line : string) (w : world) :
  (length (tokens line) <= MAX_ARGS)%nat ->
  "|" ∈ tokens line ->
  exists (before after : list string) (command1 command2 : argv),
    tokens line = before ++ "|" :: after /\
    parse_line line w = (handle_pipe command1 command2;; ret None) (allocated w) /\
    entries command1 = before /\
    entries command2 = after /\
    ("|" ∉ before) /\
    (("|" ∈ after) <-> (2 <= pipe_count (tokens line))%nat).
Proof.
  intros Hlen Hin.
  destruct (classify_piped line Hin Hlen) as (before & after & Hc & Hts & Hno).
  exists before, after, (first_vector (w_nblocks w) before after),
    (second_vector (w_nblocks w) before after).
  split; [done|]. split; [by apply parse_line_piped|].
  split; [apply entries_first|]. split; [apply entries_second|].
  split; [done|].
  rewrite Hts, pipe_count_app. change ("|" :: after) with (["|"] ++ after).
  rewrite pipe_count_app. apply pipe_count_0 in Hno. rewrite Hno.
  change (pipe_count ["|"]) with 1%nat.
  pose proof (pipe_count_0 after) as H0.
  destruct (decide ("|" ∈ after)) as [Hyes|Hnot].
  - split; [|done]. intros _.
    destruct (pipe_count after) eqn:E; [|lia].
    exfalso. by apply (proj2 H0).
  - apply H0 in Hnot. rewrite Hnot. split; [|lia]. intros H.
    apply H0 in Hnot. done.
Qed.

Lemma parse_line_splits_at_first_pipe_witness :
  exists (before after : list string) (command1 command2 : argv),
    tokens "ls -l | wc" = before ++ "|" :: after /\
    parse_line "ls -l | wc" (demo_world None [])
      = (handle_pipe command1 command2;; ret None) (allocated (demo_world None [])) /\
    entries command1 = before /\
    entries command2 = after /\
    ("|" ∉ before) /\
    (("|" ∈ after) <-> (2 <= pipe_count (tokens "ls -l | wc"))%nat).
Proof.
  apply (parse_line_splits_at_first_pipe "ls -l | wc" (demo_world None [])).
  - vm_compute. lia.
  - vm_compute. apply elem_of_cons. right. apply elem_of_cons. right.
    apply elem_of_cons. by left.
Defined.

(** ** Lines that [parse_line] answers with NULL, and the main loop *)

Definition prompt : event := EvWrite STDOUT_FILENO "> ".
Definition goodbye : event := EvWrite STDOUT_FILENO ("Exiting simple shell..." +:+ nl).

Section MainLoop.

(** When [parse_line] does not return a vector the turn is the prompt
    and [parse_line]; [status] is not assigned. *)
Lemma shell_turn_null (line : string) (status : option Z) (w : world) :
  (forall args, returned (parse_line line (log prompt w)) <> Some (Some args)) ->
  shell_turn (Some line) status w
  = (Sys.printf "> ";; parse_line line;; ret (Some status)) w.
Proof.
  intros Hnull. unfold shell_turn, bind, Sys.printf. fold prompt.
  destruct (parse_line line (log prompt w)) as [[args|] w'|w'|w']; try done.
  by destruct (Hnull args).
Qed.

Lemma shell_loop_null (buffer : string) (stdin : list string)
    (status : option Z) (w : world) :
  (forall args,
      returned (parse_line (chop_newline buffer) (log prompt w)) <> Some (Some args)) ->
  shell_loop (buffer :: stdin) status w
  = (Sys.printf "> ";; parse_line (chop_newline buffer);;
     do again <- loop_test status;
     if again then shell_loop stdin status else ret tt) w.
Proof.
  intros Hnull. simpl. unfold bind at 1.
  rewrite shell_turn_null by done.
  unfold bind at 1 2 4 5, Sys.printf. fold prompt.
  by destruct (parse_line (chop_newline buffer) (log prompt w)) as [[args|] w'|w'|w'].
Qed.

Lemma parse_line_piped_null (line : string) (w : world) :
  "|" ∈ tokens line ->
  forall args, returned (parse_line line w) <> Some (Some args).
Proof.
  intros Hin args.
  destruct (decide (length (tokens line) <= MAX_ARGS)%nat) as [Hlen|Hlen].
  - destruct (classify_piped line Hin Hlen) as (before & after & Hc & _).
    rewrite (parse_line_piped _ _ _ _ Hc). unfold bind.
    by destruct (handle_pipe _ _ _).
  - by rewrite parse_line_too_many by lia.
Qed.

Lemma long_line_tokens : tokens long_line = repeat "a" 65.
Proof. by vm_compute. Qed.

Lemma long_piped_line_tokens : tokens long_piped_line = repeat "a" 65 ++ ["|"; "wc"].
Proof. by vm_compute. Qed.

Lemma handle_pipe_not_too_many (command1 command2 : argv) (w : world) :
  too_many_arguments ∉ events_since w (world_of (handle_pipe command1 command2 w)).
Proof.
  unfold handle_pipe.
  change (free_args command1;; free_args command2;; ret 1)
    with (release_both command1 command2).
  destruct (entries command1) as [|a1 l1], (entries command2) as [|a2 l2];
    try (intros Hin; simpl in Hin;
         rewrite (events_since_app _ _ [pipe_usage]) in Hin by done;
         apply list_elem_of_singleton in Hin; by vm_compute in Hin).
  unfold bind, Sys.pipe.
  destruct (w_pipe_ans w (w_npipes w)) as [e|].
  { intros Hin. new_events Hin. not_among Hin. }
  unfold Sys.fork; simpl.
  destruct (w_fork_ans w (w_nforks w)) as [pid1 env1|e1]; simpl.
  2:{ intros Hin. new_events Hin. not_among Hin. }
  destruct (pipe_child1 _ _ _ _ _) as [c1 ce1]; simpl.
  destruct (w_fork_ans w (S (w_nforks w))) as [pid2 env2|e2]; simpl.
  - destruct (pipe_child2 _ _ _ _ _) as [c2 ce2]; simpl.
    unfold Sys.waitpid; simpl.
    destruct (w_waits w) as [|a rest]; simpl;
      [|destruct a; (destruct rest as [|a' rest]; simpl; [|destruct a'])];
      simpl; rewrite ?events_since_release;
      intros Hin; new_events Hin; not_among Hin.
  - unfold Sys.waitpid; simpl.
    destruct (w_waits w) as [|a rest]; simpl; [|destruct a]; simpl;
      intros Hin; new_events Hin; not_among Hin.
Qed.

End MainLoop.

(** A session of two lines, as [fgets] delivers them. *)
Example session_ended_by_exit :
  let w := demo_world None [WaitStatus (WExited 0)] in
  let o := main ["ls -l" +:+ nl; "exit" +:+ nl] w in
  returned o = Some 0 /\
  w_trace (world_of o)
  = [EvSignal SIGINT SIG_IGN; prompt; EvFork (inl 101%positive);
     EvWaitpid 101 WUNTRACED (Some (inl (WExited 0))); prompt; goodbye] /\
  w_live (world_of o) = ∅.
Proof. by vm_compute. Qed.

(** C5: the code at the failing input.  A line of 65 tokens, first of
    the session.  The error is written, and then [free_args] is given
    the array, in which 64 cells have been written and no NULL: the
    statement that writes the terminator comes after this return.  What
    [free_args] finds in the 65th cell is not defined, so neither is
    what becomes of the session and of the rest of its input. *)
Theorem line_too_long_is_undefined (stdin : list string) (w : world) :
  main (long_line :: stdin) w =
    Undefined
      (log too_many_arguments
         (allocated (log prompt (log (EvSignal SIGINT SIG_IGN) (with_sigint SIG_IGN w))))).
Proof.
  unfold main, bind at 1 2, Sys.signal.
  assert (Hlong : (MAX_ARGS < length (tokens (chop_newline long_line)))%nat).
  { change (chop_newline long_line) with long_line.
    rewrite long_line_tokens, repeat_length. unfold MAX_ARGS. lia. }
  rewrite shell_loop_null.
  - unfold bind at 1 2, Sys.printf. fold prompt.
    by rewrite parse_line_too_many.
  - intros args. by rewrite parse_line_too_many.
Qed.

(** The test on the number of tokens comes before the search for the
    pipe token.  This line has the token ["|"], but also more than
    [MAX_ARGS] tokens: [parse_line] writes the error message and makes
    no call besides, which no call of [handle_pipe] does; no channel is
    created and nothing is forked. *)
Lemma long_piped_line_runs_no_pipeline :
  let w := demo_world None [WaitStatus (WExited 0); WaitStatus (WExited 0)] in
  let o := parse_line long_piped_line w in
  "|" ∈ tokens long_piped_line /\
  returned o = None /\
  events_since w (world_of o) = [too_many_arguments] /\
  w_npipes (world_of o) = 0%nat /\
  w_children (world_of o) = [] /\
  forall command1 command2 w',
    events_since w' (world_of (handle_pipe command1 command2 w'))
    <> [too_many_arguments].
Proof.
  intros w o. subst o.
  rewrite parse_line_too_many.
  2:{ rewrite long_piped_line_tokens, length_app, repeat_length. unfold MAX_ARGS.
      simpl. lia. }
  split; [|repeat split].
  - rewrite long_piped_line_tokens. apply elem_of_app. right. by left.
  - intros command1 command2 w' H.
    apply (handle_pipe_not_too_many command1 command2 w').
    rewrite H. by left.
Qed.

(** ** Two uses of what was never written, and a release too many *)

Section Slips.

(** The first line of the session is turned down, here for its empty
    side.  [continue] leads to the loop test, which uses [status]; it
    has not been assigned. *)
Lemma rejected_first_line_reads_status (stdin : list string) (w : world) :
  parse_line "| ls" (log prompt w) = Ret None (log pipe_usage (allocated (log prompt w))) /\
  shell_loop ("| ls" :: stdin) None w
  = (do again <- loop_test None;
     if again then shell_loop stdin None else ret tt)
      (log pipe_usage (allocated (log prompt w))) /\
  shell_loop ("| ls" :: stdin) None w
  = Undefined (log pipe_usage (allocated (log prompt w))).
Proof.
  assert (Hp : forall w', parse_line "| ls" w' = Ret None (log pipe_usage (allocated w'))).
  { intros w'. by rewrite parse_line_classify. }
  split; [apply Hp|].
  rewrite shell_loop_null.
  - change (chop_newline "| ls") with "| ls".
    unfold bind, Sys.printf. fold prompt. by rewrite Hp.
  - intros args. change (chop_newline "| ls") with "| ls". by rewrite Hp.
Qed.

(** In a session that has run a command, the same line is discarded and
    the loop goes on. *)
Lemma rejected_line_goes_on (stdin : list string) (w : world) :
  shell_loop ("| ls" :: stdin) (Some 1) w
  = shell_loop stdin (Some 1) (log pipe_usage (allocated (log prompt w))).
Proof.
  assert (Hp : forall w', parse_line "| ls" w' = Ret None (log pipe_usage (allocated w'))).
  { intros w'. by rewrite parse_line_classify. }
  rewrite shell_loop_null.
  - change (chop_newline "| ls") with "| ls".
    unfold bind, Sys.printf. fold prompt. by rewrite Hp.
  - intros args. change (chop_newline "| ls") with "| ls". by rewrite Hp.
Qed.

(** [handle_pipe] releases both commands.  They are in one array: the
    first release frees it, and the second walks its cells and then
    frees a pointer into its middle. *)
Lemma release_both_undefined (args : nat) (before after : list string) (w : world) :
  args ∈ w_live w ->
  release_both (first_vector args before after) (second_vector args before after) w
  = Undefined (released args w).
Proof.
  intros Hlive. unfold release_both, bind, free_args, terminated. simpl.
  rewrite (bool_decide_eq_true_2 (args ∈ w_live w)) by done.
  rewrite (bool_decide_eq_true_2 (None ∈ _))
    by (apply elem_of_app; right; by left).
  simpl.
  rewrite (bool_decide_eq_false_2 (args ∈ _)); [done|].
  intros H. apply elem_of_difference in H as [_ H]. apply H.
  by apply elem_of_singleton.
Qed.

(** So a pipeline that [parse_line] has run with both children forked
    does not come back to [main]: the interpreter waits for ever, or it
    gets to that release. *)
Lemma forked_pipeline_is_not_over (args : nat) (before after : list string)
    (w : world) :
  args ∈ w_live w ->
  let o := handle_pipe (first_vector args before after)
             (second_vector args before after) w in
  length (w_children (world_of o)) = (2 + length (w_children w))%nat ->
  returned o = None.
Proof.
  intros Hlive o. subst o. unfold handle_pipe.
  change (free_args (first_vector args before after);;
          free_args (second_vector args before after);; ret 1)
    with (release_both (first_vector args before after)
            (second_vector args before after)).
  rewrite entries_first, entries_second.
  destruct before as [|a1 l1], after as [|a2 l2];
    try (simpl; intros H; lia).
  unfold bind, Sys.pipe.
  destruct (w_pipe_ans w (w_npipes w)) as [e|]; [simpl; intros H; lia|].
  unfold Sys.fork; simpl.
  destruct (w_fork_ans w (w_nforks w)) as [pid1 env1|e1]; simpl;
    [|intros H; lia].
  destruct (pipe_child1 _ _ _ _ _) as [c1 ce1]; simpl.
  destruct (w_fork_ans w (S (w_nforks w))) as [pid2 env2|e2]; simpl.
  - destruct (pipe_child2 _ _ _ _ _) as [c2 ce2]; simpl.
    unfold Sys.waitpid; simpl.
    destruct (w_waits w) as [|a rest]; simpl;
      [|destruct a; (destruct rest as [|a' rest]; simpl; [|destruct a'])];
      simpl; try done;
      by rewrite release_both_undefined.
  - unfold Sys.waitpid; simpl.
    destruct (w_waits w) as [|a rest]; simpl; [|destruct a]; simpl;
      rewrite length_app; simpl; intros H; lia.
Qed.

Lemma forked_pipeline_does_not_return (line : string) (before after : list string)
    (w : world) :
  classify line = Piped before after ->
  let o := parse_line line w in
  length (w_children (world_of o)) = (2 + length (w_children w))%nat ->
  returned o = None.
Proof.
  intros Hc o. subst o. rewrite (parse_line_piped _ _ _ _ Hc).
  pose proof (forked_pipeline_is_not_over (w_nblocks w) before after (allocated w)) as H.
  simpl in H. unfold bind.
  destruct (handle_pipe _ _ (allocated w)); simpl in *; [|done|done].
  intros Hlen. by specialize (H ltac:(set_solver) Hlen).
Qed.

(** The release in [main], of a vector [parse_line] has returned, is in
    order: the vector is the whole array, it is terminated, and the
    array is live. *)
Lemma free_args_single (command : list string) (w : world) :
  free_args (single_vector (w_nblocks w) command) (allocated w)
  = Ret tt (released (w_nblocks w) (allocated w)).
Proof.
  unfold free_args, terminated. simpl.
  rewrite (bool_decide_eq_true_2 (w_nblocks w ∈ _)) by set_solver.
  rewrite (bool_decide_eq_true_2 (None ∈ _)) by (apply elem_of_app; right; by left).
  done.
Qed.

End Slips.

(** ** The cap on the number of tokens, and blank lines *)

Section Cap.

(** At most [MAX_ARGS] tokens: whatever [parse_line] does, it does not
    report too many arguments.  More: it does. *)
Lemma parse_line_cap (line : string) (w : world) :
  let new := events_since w (world_of (parse_line line w)) in
  ((MAX_ARGS < length (tokens line))%nat -> new = [too_many_arguments]) /\
  ((length (tokens line) <= MAX_ARGS)%nat -> too_many_arguments ∉ new).
Proof.
  split; intros Hlen.
  - rewrite parse_line_too_many by done. by apply events_since_app.
  - rewrite parse_line_classify. unfold classify.
    rewrite (proj2 (Nat.ltb_ge _ _)) by done.
    destruct (split_pipe (tokens line)) as [[before after]|]; simpl.
    + unfold run_parsed, bind at 1 2, malloc_args.
      pose proof (handle_pipe_not_too_many
                    (first_vector (w_nblocks w) before after)
                    (second_vector (w_nblocks w) before after) (allocated w)) as H.
      by destruct (handle_pipe _ _ _).
    + unfold events_since. simpl. rewrite drop_all. apply not_elem_of_nil.
Qed.

(** A line of delimiters only has no token. *)
Fixpoint blank (s : string) : bool :=
  match s with
  | EmptyString => true
  | String c s' => is_delim c && blank s'
  end.

Lemma blank_tokens (s : string) : blank s = true -> tokens s = [].
Proof.
  induction s as [|c s IH]; [done|].
  simpl. intros [Hc Hs]%andb_true_iff.
  rewrite tokens_cons, Hc. by apply IH.
Qed.

(** On a line without tokens the turn of the main loop writes the
    prompt, allocates the array and releases it, and hands 1 to the loop
    test: no call but the prompt. *)
Lemma blank_line_turn (line : string) (status : option Z) (w : world) :
  tokens line = [] ->
  let w1 := log prompt w in
  shell_turn (Some line) status w
  = Ret (Some (Some 1)) (released (w_nblocks w1) (allocated w1)).
Proof.
  intros Hts w1.
  assert (Hp : parse_line line w1
               = Ret (Some (single_vector (w_nblocks w1) [])) (allocated w1)).
  { rewrite parse_line_single; rewrite Hts; [done|apply not_elem_of_nil|simpl; lia]. }
  unfold shell_turn, bind at 1 2, Sys.printf. fold prompt. fold w1. rewrite Hp.
  rewrite entries_single. unfold bind, free, ret at 2. simpl.
  pose proof (free_args_single [] w1) as Hf.
  change (w_nblocks w1) with (w_nblocks w) in Hf. by rewrite Hf.
Qed.

End Cap.

(** ** The disposition of the interrupt signal *)

Definition is_signal (e : event) : bool :=
  match e with
  | EvSignal _ _ => true
  | _ => false
  end.

(** What is asked of a child: it inherited the ignored disposition, the
    first thing it did was [signal(SIGINT, SIG_DFL)], the disposition
    was the default one when it stopped running the interpreter's code,
    and if it did so by taking on a program image, [execvp] was its last
    call. *)
Definition child_restores (ch : child) : Prop :=
  ch_inherited ch = SIG_IGN /\
  c_sigint (ch_state ch) = SIG_DFL /\
  exists rest,
    c_trace (ch_state ch) = EvSignal SIGINT SIG_DFL :: rest /\
    forall argv, ch_end ch = Image argv -> last rest = Some (EvExecvp argv None).

(** What holds of the interpreter from its first statement on. *)
Definition steady (w : world) : Prop :=
  w_sigint w = SIG_IGN /\
  head (w_trace w) = Some (EvSignal SIGINT SIG_IGN) /\
  List.filter is_signal (w_trace w) = [EvSignal SIGINT SIG_IGN] /\
  Forall child_restores (w_children w).

Definition keeps {A} (m : M A) : Prop :=
  forall w, steady w -> steady (world_of (m w)).

(** The branch of a [fork] restores the default disposition first. *)
Definition restores (code : child_code) : Prop :=
  forall env c,
    c_trace c = [] ->
    c_sigint (code env c).1 = SIG_DFL /\
    exists rest,
      c_trace (code env c).1 = EvSignal SIGINT SIG_DFL :: rest /\
      forall argv, (code env c).2 = Image argv -> last rest = Some (EvExecvp argv None).

Section Disposition.

Lemma keeps_ret {A} (a : A) : keeps (ret a).
Proof. by intros w Hw. Qed.

Lemma keeps_bind {A B} (m : M A) (k : A -> M B) :
  keeps m -> (forall a, keeps (k a)) -> keeps (bind m k).
Proof.
  intros Hm Hk w Hw. unfold bind. specialize (Hm w Hw).
  destruct (m w) as [a w'|w'|w']; [|done|done]. by apply Hk.
Qed.

(** A step that is not [signal], forks nothing and leaves the
    disposition alone. *)
Lemma steady_step (e : event) (w w' : world) :
  is_signal e = false ->
  w_sigint w' = w_sigint w ->
  w_children w' = w_children w ->
  w_trace w' = w_trace w ++ [e] ->
  steady w -> steady w'.
Proof.
  intros He Hs Hc Ht (H1 & H2 & H3 & H4). unfold steady.
  rewrite Hs, Hc, Ht, List.filter_app. simpl. rewrite He, app_nil_r.
  split; [done|]. split; [|done].
  destruct (w_trace w); [done|exact H2].
Qed.

Lemma steady_fork (pid : positive) (ch : child) (w w' : world) :
  child_restores ch ->
  w_sigint w' = w_sigint w ->
  w_children w' = w_children w ++ [ch] ->
  w_trace w' = w_trace w ++ [EvFork (inl pid)] ->
  steady w -> steady w'.
Proof.
  intros Hch Hs Hc Ht (H1 & H2 & H3 & H4). unfold steady.
  rewrite Hs, Hc, Ht, List.filter_app. simpl. rewrite app_nil_r.
  split; [done|]. split; [|split; [done|]].
  - destruct (w_trace w); [done|exact H2].
  - apply Forall_app. split; [done|]. by apply Forall_singleton.
Qed.

Ltac step w Hw :=
  eapply (steady_step _ w); [| | |simpl; reflexivity|exact Hw]; done.

Lemma keeps_printf (text : string) : keeps (Sys.printf text).
Proof. intros w Hw. step w Hw. Qed.
Lemma keeps_eprintf (text : string) : keeps (Sys.eprintf text).
Proof. intros w Hw. step w Hw. Qed.
Lemma keeps_perror (prefix : string) : keeps (Sys.perror prefix).
Proof. intros w Hw. step w Hw. Qed.
Lemma keeps_getenv : keeps Sys.getenv_HOME.
Proof. intros w Hw. step w Hw. Qed.
Lemma keeps_close (fd : nat) : keeps (Sys.close fd).
Proof. intros w Hw. step w Hw. Qed.
Lemma keeps_kill (pid : positive) (sig : Z) : keeps (Sys.kill pid sig).
Proof. intros w Hw. step w Hw. Qed.

Lemma keeps_malloc_args : keeps malloc_args.
Proof. by intros w Hw. Qed.

Lemma keeps_free_args (args : argv) : keeps (free_args args).
Proof.
  intros w Hw. unfold steady.
  by destruct (free_args_frame args w) as (-> & _ & -> & -> & _).
Qed.

Lemma keeps_loop_test (status : option Z) : keeps (loop_test status).
Proof. intros w Hw. by destruct status. Qed.

Lemma keeps_chdir (path : string) : keeps (Sys.chdir path).
Proof.
  intros w Hw. unfold Sys.chdir.
  destruct (w_fs w (w_cwd w) path); step w Hw.
Qed.

Lemma keeps_pipe : keeps Sys.pipe.
Proof.
  intros w Hw. unfold Sys.pipe.
  destruct (w_pipe_ans w (w_npipes w)); step w Hw.
Qed.

Lemma keeps_waitpid (pid : positive) (options : Z) : keeps (Sys.waitpid pid options).
Proof.
  intros w Hw. unfold Sys.waitpid.
  destruct (w_waits w) as [|[st|e] rest]; step w Hw.
Qed.

Lemma keeps_fork (code : child_code) : restores code -> keeps (Sys.fork code).
Proof.
  intros Hcode w Hw. unfold Sys.fork.
  destruct (w_fork_ans w (w_nforks w)) as [pid env|e].
  - specialize (Hcode env {| c_sigint := w_sigint w; c_fds := w_fds w; c_trace := [] |} eq_refl).
    destruct (code env _) as [c ce]. simpl in *.
    eapply (steady_fork pid _ w); [| | |simpl; reflexivity|exact Hw]; try done.
    split; [apply Hw|]. exact Hcode.
  - step w Hw.
Qed.

Lemma restores_execvp (argv : list string) (env : child_env) (c : cproc) (pre : list event) :
  c_sigint c = SIG_DFL ->
  c_trace c = EvSignal SIGINT SIG_DFL :: pre ->
  c_sigint (c_execvp argv env c).1 = SIG_DFL /\
  exists rest,
    c_trace (c_execvp argv env c).1 = EvSignal SIGINT SIG_DFL :: rest /\
    forall argv', (c_execvp argv env c).2 = Image argv' ->
                  last rest = Some (EvExecvp argv' None).
Proof.
  intros Hs Ht. unfold c_execvp. destruct (ce_exec env) as [e|]; simpl.
  - split; [done|]. rewrite Ht. eexists. split; [reflexivity|]. done.
  - split; [done|]. rewrite Ht. eexists. split; [reflexivity|].
    intros argv' [= <-]. apply last_snoc.
Qed.

Lemma restores_launch_child (args : list string) : restores (launch_child args).
Proof.
  intros env c Hc. unfold launch_child.
  apply (restores_execvp _ _ _ []); [done|]. simpl. by rewrite Hc.
Qed.

Lemma restores_pipe_child1 (rd wr : nat) (command1 : list string) :
  restores (pipe_child1 rd wr command1).
Proof.
  intros env c Hc. unfold pipe_child1. destruct (ce_dup2 env) as [e|].
  - simpl. rewrite Hc. split; [done|]. eexists. split; [reflexivity|]. done.
  - eapply restores_execvp; [done|]. simpl. rewrite Hc. reflexivity.
Qed.

Lemma restores_pipe_child2 (rd wr : nat) (command2 : list string) :
  restores (pipe_child2 rd wr command2).
Proof.
  intros env c Hc. unfold pipe_child2. destruct (ce_dup2 env) as [e|].
  - simpl. rewrite Hc. split; [done|]. eexists. split; [reflexivity|]. done.
  - eapply restores_execvp; [done|]. simpl. rewrite Hc. reflexivity.
Qed.

End Disposition.

Create HintDb keeps discriminated.
#[export] Hint Resolve keeps_ret keeps_printf keeps_eprintf keeps_perror
  keeps_getenv keeps_close keeps_kill keeps_chdir keeps_pipe keeps_waitpid
  keeps_fork keeps_malloc_args keeps_free_args keeps_loop_test
  restores_launch_child restores_pipe_child1 restores_pipe_child2 : keeps.

(** Goes through a program written with [bind], [match] and [if]. *)
Ltac keeps :=
  repeat first
    [ solve [eauto with keeps]
    | progress cbv zeta
    | match goal with
      | |- keeps (match ?x with _ => _ end) => destruct x
      | |- keeps (if ?b then _ else _) => destruct b
      | |- keeps (let (_, _) := ?x in _) => destruct x
      | |- keeps (bind _ _) => apply keeps_bind; [|intros ?]
      end ].

Section DispositionOfProgram.

Lemma keeps_wait_child (turns : nat) (pid : positive) : keeps (wait_child turns pid).
Proof.
  induction turns as [|turns IH]; [by intros w Hw|].
  simpl. keeps.
Qed.

Lemma keeps_launch_process (args : list string) : keeps (launch_process args).
Proof.
  unfold launch_process. apply keeps_bind; [eauto with keeps|].
  intros [pid|]; [|keeps].
  intros w Hw. by apply keeps_wait_child.
Qed.

Lemma keeps_handle_builtin (arg0 : string) (rest : list string) :
  keeps (handle_builtin arg0 rest).
Proof. unfold handle_builtin. keeps. Qed.

Lemma keeps_execute_command (args : list string) : keeps (execute_command args).
Proof.
  unfold execute_command. destruct args as [|arg0 rest]; [keeps|].
  destruct (is_builtin arg0);
    [apply keeps_handle_builtin|apply keeps_launch_process].
Qed.

Lemma keeps_handle_pipe (command1 command2 : argv) :
  keeps (handle_pipe command1 command2).
Proof. unfold handle_pipe. keeps. Qed.

Lemma keeps_parse_line (line : string) : keeps (parse_line line).
Proof.
  unfold parse_line, free.
  destruct (tokenize (strdup line)) as [token cells].
  pose proof keeps_handle_pipe. keeps.
Qed.

Lemma keeps_shell_turn (line : option string) (status : option Z) :
  keeps (shell_turn line status).
Proof.
  unfold shell_turn, free.
  pose proof keeps_parse_line. pose proof keeps_execute_command. keeps.
Qed.

Lemma keeps_shell_loop (stdin : list string) :
  forall status, keeps (shell_loop stdin status).
Proof.
  induction stdin as [|buffer stdin IH]; intros status; simpl;
    (apply keeps_bind; [apply keeps_shell_turn|]); intros [status'|]; keeps.
Qed.

Lemma steady_after_signal (w : world) :
  w_trace w = [] -> w_children w = [] ->
  steady (world_of (Sys.signal SIG_IGN w)).
Proof.
  intros Ht Hc. unfold steady. simpl. rewrite Ht, Hc. simpl.
  repeat split. constructor.
Qed.

End DispositionOfProgram.

(** C7.  Run [main] on any input, from the world the interpreter starts
    in, up to the point where it returns, waits for ever, or does
    something undefined.  The first
    call of the interpreter is [signal(SIGINT, SIG_IGN)] and it is its
    only call of [signal]: its disposition is the ignored one.  Every
    child it has forked, for an external command or for either side of a
    pipeline, inherited the ignored disposition, called
    [signal(SIGINT, SIG_DFL)] before anything else, and had the default
    disposition when it called [execvp]. *)
Theorem interrupt_disposition (stdin : list string)
    (cwd : string) (home : option string) (fs : string -> string -> string + Z)
    (pipe_ans : nat -> option Z) (fork_ans : nat -> fork_answer)
    (waits : list wait_answer) :
  let w := world_of (main stdin (boot cwd home fs pipe_ans fork_ans waits)) in
  w_sigint w = SIG_IGN /\
  head (w_trace w) = Some (EvSignal SIGINT SIG_IGN) /\
  List.filter is_signal (w_trace w) = [EvSignal SIGINT SIG_IGN] /\
  Forall child_restores (w_children w).
Proof.
  intros w. subst w.
  set (w0 := boot cwd home fs pipe_ans fork_ans waits).
  assert (Hk : keeps (shell_loop stdin None;;
                      Sys.printf ("Exiting simple shell..." +:+ nl);; ret 0)).
  { pose proof keeps_shell_loop. keeps. }
  assert (Hmain : steady (world_of (main stdin w0))).
  { unfold main, bind at 1. simpl. apply Hk.
    by apply (steady_after_signal w0). }
  exact Hmain.
Qed.

(** A session with an external command and a pipeline: three children.
    The session ends with the pipeline, in the release of its second
    command; the line after it is not reached. *)
Example three_children :
  let w := demo_world (Some "/home/user")
             [WaitStatus (WExited 0); WaitStatus (WExited 0); WaitStatus (WExited 0)] in
  let o := main ["ls -l"; "cat notes | wc -l"; "cd /home/user"] w in
  o = Undefined (world_of o) /\ w_cwd (world_of o) = "/" /\
  (fun ch => (ch_inherited ch, c_sigint (ch_state ch), ch_end ch))
    <$> w_children (world_of o)
  = [(SIG_IGN, SIG_DFL, Image ["ls"; "-l"]);
     (SIG_IGN, SIG_DFL, Image ["cat"; "notes"]);
     (SIG_IGN, SIG_DFL, Image ["wc"; "-l"])].
Proof. by vm_compute. Qed.

(** * More of the program *)

(** ** The token sequence of a line *)

(** No character of the string is a delimiter. *)
Fixpoint no_delim (s : string) : bool :=
  match s with
  | EmptyString => true
  | String c s' => negb (is_delim c) && no_delim s'
  end.

(** What [strtok] hands out: at least one character, and no delimiter. *)
Definition is_word (t : string) : Prop :=
  t <> EmptyString /\ no_delim t = true.

(** The line [parse_line] reads as one command: no pipe token, and no
    more tokens than the array has room for. *)
Definition plain (line : string) : Prop :=
  ("|" ∉ tokens line) /\ (length (tokens line) <= MAX_ARGS)%nat.

Section Words.

Lemma cons_word_app (w : string) (l k : list string) :
  cons_word w (l ++ k) = cons_word w l ++ k.
Proof. by destruct w. Qed.

Lemma words_are_words (s : string) :
  no_delim (fst (words s)) = true /\ Forall is_word (snd (words s)).
Proof.
  induction s as [|c s [IH1 IH2]]; simpl; [by split|].
  destruct (words s) as [w ws]; simpl in *.
  destruct (is_delim c) eqn:Ec; simpl.
  - split; [done|]. destruct w; simpl; [done|].
    by constructor.
  - by rewrite Ec.
Qed.

Lemma tokens_are_words (s : string) : Forall is_word (tokens s).
Proof.
  unfold tokens. destruct (words_are_words s) as [H1 H2].
  destruct (words s) as [w ws]; simpl in *.
  destruct w; simpl; [done|]. by constructor.
Qed.

Lemma no_delim_strchr (t : string) (c : ascii) :
  no_delim t = true -> c ∈ TOKEN_DELIMITERS -> strchr t c = false.
Proof.
  intros Ht Hc. induction t as [|a t IH]; [done|].
  simpl in *. apply andb_true_iff in Ht as [Ha Ht].
  destruct (Ascii.eqb a c) eqn:Eac; [|by apply IH].
  apply Ascii.eqb_eq in Eac. subst a. exfalso.
  apply negb_true_iff in Ha. unfold is_delim in Ha.
  assert (Hex : existsb (Ascii.eqb c) TOKEN_DELIMITERS = true).
  { apply existsb_exists. exists c. split; [|apply Ascii.eqb_refl].
    by apply list_elem_of_In. }
  congruence.
Qed.

(** A delimiter ends the run in progress: the tokens of the two sides
    follow each other. *)
Lemma append_cons (c : ascii) (a b : string) :
  String c a +:+ b = String c (a +:+ b).
Proof. reflexivity. Qed.

Lemma append_empty (s : string) : s +:+ EmptyString = s.
Proof.
  induction s as [|c s IH]; [done|]. by rewrite append_cons, IH.
Qed.

Lemma append_assoc (a b c : string) : (a +:+ b) +:+ c = a +:+ (b +:+ c).
Proof.
  induction a as [|x a IH]; [done|]. by rewrite !append_cons, IH.
Qed.

Lemma append_length (a b : string) :
  String.length (a +:+ b) = (String.length a + String.length b)%nat.
Proof.
  induction a as [|x a IH]; [done|]. rewrite append_cons. simpl. by rewrite IH.
Qed.

Lemma words_app_delim (a : string) (d : ascii) (b : string) :
  is_delim d = true ->
  words (a +:+ String d b) = (fst (words a), snd (words a) ++ tokens b).
Proof.
  intros Hd. induction a as [|c a IH].
  - change (EmptyString +:+ String d b) with (String d b). simpl.
    rewrite Hd. unfold tokens. by destruct (words b).
  - rewrite append_cons. simpl.
    rewrite IH. destruct (words a) as [w ws]; simpl.
    destruct (is_delim c); [|done]. by rewrite cons_word_app.
Qed.

Lemma tokens_app_delim (a : string) (d : ascii) (b : string) :
  is_delim d = true ->
  tokens (a +:+ String d b) = tokens a ++ tokens b.
Proof.
  intros Hd. unfold tokens at 1 2. rewrite words_app_delim by done.
  destruct (words a) as [w ws]; simpl. apply cons_word_app.
Qed.

Lemma tokens_blank_l (p s : string) :
  blank p = true -> tokens (p +:+ s) = tokens s.
Proof.
  induction p as [|c p IH]; [done|].
  simpl. intros [Hc Hp]%andb_true_iff.
  rewrite append_cons, tokens_cons, Hc. by apply IH.
Qed.

Lemma tokens_blank_r (s q : string) :
  blank q = true -> tokens (s +:+ q) = tokens s.
Proof.
  destruct q as [|d q]; [by rewrite append_empty|].
  simpl. intros [Hd Hq]%andb_true_iff.
  by rewrite tokens_app_delim, (blank_tokens q), app_nil_r.
Qed.

Lemma tokens_word (t : string) : is_word t -> tokens t = [t].
Proof.
  intros [Hne Hnd].
  assert (H : words t = (t, [])).
  { clear Hne. induction t as [|c t IH]; [done|].
    simpl in *. apply andb_true_iff in Hnd as [Hc Ht].
    apply negb_true_iff in Hc. by rewrite (IH Ht), Hc. }
  unfold tokens. rewrite H. by destruct t.
Qed.

Lemma tokens_concat (ts : list string) :
  Forall is_word ts -> tokens (String.concat " " ts) = ts.
Proof.
  induction ts as [|t ts IH]; [done|].
  intros [Ht Hts]%Forall_cons. specialize (IH Hts).
  destruct ts as [|t' ts]; [by apply tokens_word|].
  change (String.concat " " (t :: t' :: ts))
    with (t +:+ String " " (String.concat " " (t' :: ts))).
  by rewrite tokens_app_delim, IH, tokens_word.
Qed.

(** [parse_line] looks at the line through its tokens only. *)
Lemma parse_line_tokens (a b : string) (w : world) :
  tokens a = tokens b -> parse_line a w = parse_line b w.
Proof.
  intros H. rewrite !parse_line_classify. unfold classify. by rewrite H.
Qed.

(** The three kinds of line. *)
Lemma line_kinds (line : string) :
  (MAX_ARGS < length (tokens line))%nat \/
  ((length (tokens line) <= MAX_ARGS)%nat /\ "|" ∈ tokens line) \/
  plain line.
Proof.
  unfold plain.
  destruct (decide (MAX_ARGS < length (tokens line))%nat); [by left|].
  right. destruct (decide ("|" ∈ tokens line)); [left|right]; split; (done || lia).
Qed.

End Words.

(** X1.  The vector [parse_line] returns holds the tokens of the line,
    in order.  Each is a string of at least one character, none of them
    a space, a tab or a newline.  There are at most [MAX_ARGS] of them,
    so with the terminating NULL the cells written are within the
    [MAX_ARGS + 1] cells of the array, and the vector starts at its
    first cell. *)
Theorem command_of_words (line : string) (w : world) (args : argv) :
  returned (parse_line line w) = Some (Some args) ->
  entries args = tokens line /\
  Forall (fun t => t <> EmptyString /\
                   forall c, c ∈ TOKEN_DELIMITERS -> strchr t c = false)
    (entries args) /\
  (length (entries args) <= MAX_ARGS)%nat /\
  (length (av_cells args) <= MAX_ARGS + 1)%nat /\
  last (av_cells args) = Some None /\
  av_index args = 0%nat /\ av_block args = w_nblocks w.
Proof.
  intros Hr.
  destruct (line_kinds line) as [Hlong|[[Hlen Hin]|[Hno Hlen]]].
  - by rewrite parse_line_too_many in Hr.
  - by apply parse_line_piped_null in Hr.
  - rewrite parse_line_single in Hr by done. injection Hr as <-.
    rewrite entries_single. simpl.
    split; [done|]. split; [|split; [done|split; [|split; [|done]]]].
    + eapply Forall_impl; [apply tokens_are_words|].
      intros t [Hne Hnd]. split; [done|]. intros c. by apply no_delim_strchr.
    + rewrite length_app, length_fmap. unfold MAX_ARGS in *. simpl. lia.
    + apply last_snoc.
Qed.

Lemma command_of_words_witness :
  entries (single_vector 0 ["ls"; "-l"]) = tokens "  ls   -l " /\
  Forall (fun t => t <> EmptyString /\
                   forall c, c ∈ TOKEN_DELIMITERS -> strchr t c = false)
    (entries (single_vector 0 ["ls"; "-l"])) /\
  (length (entries (single_vector 0 ["ls"; "-l"])) <= MAX_ARGS)%nat /\
  (length (av_cells (single_vector 0 ["ls"; "-l"])) <= MAX_ARGS + 1)%nat /\
  last (av_cells (single_vector 0 ["ls"; "-l"])) = Some None /\
  av_index (single_vector 0 ["ls"; "-l"]) = 0%nat /\
  av_block (single_vector 0 ["ls"; "-l"]) = w_nblocks (demo_world None []).
Proof.
  apply (command_of_words "  ls   -l " (demo_world None [])).
  reflexivity.
Defined.

(** X2.  Join words with single spaces, and [parse_line] gives the words
    back: a command of at most [MAX_ARGS] words, none of them the pipe
    token, is the vector returned for the line that spells it. *)
Theorem parse_line_of_joined_words (command : list string) (w : world) :
  Forall is_word command ->
  "|" ∉ command ->
  (length command <= MAX_ARGS)%nat ->
  tokens (String.concat " " command) = command /\
  exists args,
    parse_line (String.concat " " command) w = Ret (Some args) (allocated w) /\
    entries args = command.
Proof.
  intros Hwords Hno Hlen.
  pose proof (tokens_concat command Hwords) as Hts.
  split; [done|].
  exists (single_vector (w_nblocks w) command).
  rewrite parse_line_single, Hts, entries_single; rewrite ?Hts; done.
Qed.

Lemma parse_line_of_joined_words_witness :
  tokens (String.concat " " ["grep"; "-n"; "a|b"]) = ["grep"; "-n"; "a|b"] /\
  exists args,
    parse_line (String.concat " " ["grep"; "-n"; "a|b"]) (demo_world None [])
    = Ret (Some args) (allocated (demo_world None [])) /\
    entries args = ["grep"; "-n"; "a|b"].
Proof.
  apply (parse_line_of_joined_words ["grep"; "-n"; "a|b"] (demo_world None [])).
  - repeat (apply List.Forall_cons; [split; [discriminate|reflexivity]|]).
    apply List.Forall_nil.
  - intros H. repeat (apply elem_of_cons in H as [H|H]; [discriminate|]).
    by apply elem_of_nil in H.
  - vm_compute. lia.
Defined.

(** X3.  Delimiters before the first token and after the last one do
    not count, and a run of delimiters between two tokens counts as one
    space: [parse_line] does the same thing, in every world, on lines
    that differ in this way only. *)
Theorem parse_line_ignores_padding (w : world) :
  (forall pad1 line pad2,
      blank pad1 = true -> blank pad2 = true ->
      parse_line (pad1 +:+ line +:+ pad2) w = parse_line line w) /\
  (forall a d gap b,
      is_delim d = true -> blank gap = true ->
      tokens (a +:+ String d gap +:+ b) = tokens a ++ tokens b /\
      parse_line (a +:+ String d gap +:+ b) w = parse_line (a +:+ " " +:+ b) w).
Proof.
  split.
  - intros pad1 line pad2 H1 H2. apply parse_line_tokens.
    by rewrite tokens_blank_l, tokens_blank_r.
  - intros a d gap b Hd Hgap.
    assert (H : tokens (a +:+ String d gap +:+ b) = tokens a ++ tokens b).
    { change (String d gap +:+ b) with (String d (gap +:+ b)).
      by rewrite tokens_app_delim, tokens_blank_l. }
    split; [exact H|]. apply parse_line_tokens. rewrite H.
    change (" " +:+ b) with (String " " b).
    by rewrite tokens_app_delim.
Qed.

Lemma parse_line_ignores_padding_witness :
  parse_line ("  " +:+ "ls -l" +:+ nl) (demo_world None [])
  = parse_line "ls -l" (demo_world None []).
Proof.
  apply (proj1 (parse_line_ignores_padding (demo_world None []))); reflexivity.
Defined.

(** X4.  [parse_line] returns a vector exactly for the plain lines, those
    with at most [MAX_ARGS] tokens and no pipe token among them, and the
    vector is then the one of the tokens in the array just allocated.  A
    pipe character inside a longer token does not make a pipe token. *)
Theorem parse_line_returns_vector (line : string) (w : world) (args : argv) :
  returned (parse_line line w) = Some (Some args) <->
  (plain line /\ args = single_vector (w_nblocks w) (tokens line)).
Proof.
  split.
  - intros Hr.
    destruct (line_kinds line) as [Hlong|[[Hlen Hin]|[Hno Hlen]]].
    + by rewrite parse_line_too_many in Hr.
    + by apply parse_line_piped_null in Hr.
    + rewrite parse_line_single in Hr by done. injection Hr as <-. by split.
  - intros [[Hno Hlen] ->]. by rewrite parse_line_single.
Qed.

Lemma parse_line_returns_vector_witness :
  returned (parse_line "ls |wc" (demo_world None []))
  = Some (Some (single_vector 0 ["ls"; "|wc"])).
Proof.
  refine (proj2 (parse_line_returns_vector "ls |wc" (demo_world None [])
                   (single_vector 0 ["ls"; "|wc"])) _).
  split; [split|reflexivity].
  - vm_compute. intros H.
    repeat (apply elem_of_cons in H as [H|H]; [discriminate|]).
    by apply elem_of_nil in H.
  - vm_compute. lia.
Defined.

(** ** Reading lines *)

Definition newline : ascii := "010"%char.
Definition NUL : ascii := "000"%char.

(** A line of text as it is typed: no newline and no NUL in it, and
    short enough to fit the buffer of [read_line] with its newline. *)
Definition fits (line : string) : Prop :=
  strchr line newline = false /\ strchr line NUL = false /\
  (String.length line + 1 < MAX_LINE_LENGTH)%nat.

Section ReadLine.

Lemma fgets_loop_input (room : nat) :
  forall input,
    input = fst (fgets_loop room input) +:+ snd (fgets_loop room input) /\
    (String.length (fst (fgets_loop room input)) <= room)%nat.
Proof.
  induction room as [|room IH]; intros input; [by destruct input; split|].
  destruct input as [|c input]; [by split; [|simpl; lia]|].
  simpl. destruct (Ascii.eqb c "010"); simpl; [split; [done|lia]|].
  destruct (IH input) as [H1 H2].
  destruct (fgets_loop room input) as [b rest]; simpl in *.
  rewrite append_cons, <- H1. split; [done|lia].
Qed.

(** Something is taken when there is room and the input is not at its
    end. *)
Lemma fgets_loop_takes (room : nat) (c : ascii) (input : string) :
  (String.length (snd (fgets_loop (S room) (String c input)))
   <= String.length input)%nat.
Proof.
  simpl. destruct (Ascii.eqb c "010"); simpl; [lia|].
  pose proof (fgets_loop_input room input) as [H1 _].
  destruct (fgets_loop room input) as [b rest]; simpl in *.
  apply (f_equal String.length) in H1.
  rewrite append_length in H1. lia.
Qed.

Lemma c_str_length (stored : string) :
  (String.length (c_str stored) <= String.length stored)%nat.
Proof.
  induction stored as [|c s IH]; simpl; [lia|].
  destruct (Ascii.eqb c "000"); simpl; lia.
Qed.

Lemma c_str_no_nul (stored : string) : strchr (c_str stored) NUL = false.
Proof.
  induction stored as [|c s IH]; [done|].
  simpl. destruct (Ascii.eqb c "000") eqn:E; [done|].
  simpl. unfold NUL. by rewrite E.
Qed.

Lemma c_str_text (s : string) : strchr s NUL = false -> c_str s = s.
Proof.
  induction s as [|c s IH]; [done|].
  simpl. unfold NUL. destruct (Ascii.eqb c "000"); [done|].
  intros H. by rewrite IH.
Qed.

Lemma chop_newline_length (s : string) :
  (String.length (chop_newline s) <= String.length s)%nat.
Proof.
  induction s as [|c s IH]; [done|].
  destruct s as [|c' s]; [simpl; destruct (Ascii.eqb c "010"); simpl; lia|].
  change (chop_newline (String c (String c' s)))
    with (String c (chop_newline (String c' s))).
  simpl in *. lia.
Qed.

Lemma chop_newline_snoc (s : string) :
  strchr s newline = false -> chop_newline (s +:+ nl) = s.
Proof.
  induction s as [|a s IH]; [done|].
  rewrite append_cons. simpl strchr. unfold newline.
  destruct (Ascii.eqb a "010"); [done|]. intros H.
  destruct (s +:+ nl) as [|a' s'] eqn:E.
  - by destruct s.
  - change (chop_newline (String a (String a' s')))
      with (String a (chop_newline (String a' s'))).
    by rewrite IH.
Qed.

Lemma chop_newline_none (s : string) :
  strchr s newline = false -> chop_newline s = s.
Proof.
  induction s as [|a s IH]; [done|].
  simpl strchr. unfold newline in *. destruct (Ascii.eqb a "010") eqn:E; [done|].
  intros H. destruct s as [|a' s]; [simpl; by rewrite E|].
  change (chop_newline (String a (String a' s)))
    with (String a (chop_newline (String a' s))).
  by rewrite IH.
Qed.

(** What [read_line] returns has no newline in it: the only one [fgets]
    stores is the last character, and that one is overwritten. *)
Lemma stored_line_no_newline (room : nat) :
  forall input,
    strchr (chop_newline (c_str (fst (fgets_loop room input)))) newline = false.
Proof.
  induction room as [|room IH]; intros input; [by destruct input|].
  destruct input as [|c input]; [done|].
  simpl. destruct (Ascii.eqb c "010") eqn:Enl; simpl.
  - apply Ascii.eqb_eq in Enl. by subst c.
  - specialize (IH input).
    destruct (fgets_loop room input) as [b rest]; simpl in *.
    destruct (Ascii.eqb c "000"); [done|].
    destruct (c_str b) as [|c' s'] eqn:E.
    + simpl. rewrite Enl. simpl. unfold newline. by rewrite Enl.
    + change (chop_newline (String c (String c' s')))
        with (String c (chop_newline (String c' s'))).
      simpl. unfold newline at 1. by rewrite Enl.
Qed.

(** With room for the line and its newline, [fgets] stores them and
    leaves what follows. *)
Lemma fgets_loop_line (line : string) :
  forall room rest,
    strchr line newline = false ->
    (String.length line < room)%nat ->
    fgets_loop room (line +:+ nl +:+ rest) = (line +:+ nl, rest).
Proof.
  induction line as [|c line IH]; intros room rest Hnl Hlen.
  - destruct room as [|room]; [simpl in Hlen; lia|]. done.
  - destruct room as [|room]; [simpl in Hlen; lia|].
    simpl in Hnl. unfold newline in Hnl.
    rewrite !append_cons. simpl.
    destruct (Ascii.eqb c "010"); [done|].
    rewrite IH; [done|done|simpl in Hlen; lia].
Qed.

(** Without a newline among the first [room] characters, [fgets] stores
    these and leaves what follows. *)
Lemma fgets_loop_full (chunk : string) :
  forall rest,
    strchr chunk newline = false ->
    fgets_loop (String.length chunk) (chunk +:+ rest) = (chunk, rest).
Proof.
  induction chunk as [|c chunk IH]; intros rest Hnl; [by destruct rest|].
  simpl in Hnl. unfold newline in Hnl. rewrite append_cons. simpl.
  destruct (Ascii.eqb c "010"); [done|]. by rewrite IH.
Qed.

(** The calls of [fgets] that a given number allows are enough once
    there are as many as characters. *)
Lemma buffers_loop_enough (calls : nat) :
  forall more input,
    (String.length input <= calls)%nat ->
    buffers_loop (calls + more) input = buffers_loop calls input.
Proof.
  induction calls as [|calls IH]; intros more input Hlen.
  - destruct input; [|simpl in Hlen; lia]. by destruct more.
  - destruct input as [|c input]; [done|].
    change (S calls + more)%nat with (S (calls + more)).
    unfold buffers_loop; fold buffers_loop. unfold fgets.
    change (MAX_LINE_LENGTH - 1)%nat with (S 1022).
    pose proof (fgets_loop_takes 1022 c input) as Htake.
    destruct (fgets_loop (S 1022) (String c input)) as [b rest]; simpl in Htake.
    f_equal. apply IH. simpl in Hlen. lia.
Qed.

Lemma buffers_cons (stored rest : string) (input : string) :
  input <> EmptyString ->
  fgets_loop (MAX_LINE_LENGTH - 1) input = (stored, rest) ->
  buffers input = c_str stored :: buffers rest.
Proof.
  intros Hne Hf. destruct input as [|c input]; [done|].
  unfold buffers. simpl String.length.
  unfold buffers_loop at 1; fold buffers_loop. unfold fgets. rewrite Hf.
  f_equal.
  pose proof (fgets_loop_takes 1022 c input) as Htake.
  change (S 1022) with (MAX_LINE_LENGTH - 1)%nat in Htake.
  rewrite Hf in Htake. simpl in Htake.
  replace (String.length input)
    with (String.length rest + (String.length input - String.length rest))%nat by lia.
  by apply buffers_loop_enough.
Qed.

End ReadLine.

(** One call of [read_line] on the characters the stream is going to
    deliver: the line returned, and the characters left in the stream. *)
Definition read_stdin (input : string) : option string * string :=
  let (stored, rest) := fgets MAX_LINE_LENGTH input in
  (read_line (c_str <$> stored), rest).

Section OneCall.

Lemma fgets_loop_end (line : string) :
  forall room,
    strchr line newline = false ->
    (String.length line <= room)%nat ->
    fgets_loop room line = (line, EmptyString).
Proof.
  induction line as [|c line IH]; intros room Hnl Hlen; [by destruct room|].
  destruct room as [|room]; [simpl in Hlen; lia|].
  simpl in Hnl. unfold newline in Hnl. simpl.
  destruct (Ascii.eqb c "010"); [done|].
  rewrite IH; [done|done|simpl in Hlen; lia].
Qed.

Lemma append_text (line : string) (c : ascii) (rest : string) :
  strchr line c = false -> strchr (line +:+ rest) c = strchr rest c.
Proof.
  induction line as [|a line IH]; [done|].
  rewrite append_cons. simpl. destruct (Ascii.eqb a c); [done|]. exact IH.
Qed.

End OneCall.

(** X5.  One call of [read_line], on whatever the stream is going to
    deliver.  It returns NULL exactly at the end of the input.  A line
    it returns has at most [MAX_LINE_LENGTH - 1] characters and no
    newline among them, and at least one character of the input has
    been taken.  When the input starts with a line that fits the buffer,
    followed by a newline, the call returns that line as it was typed
    and leaves what follows the newline; a last line that no newline
    follows is returned as well.  What the stream delivers to the calls
    after this one is not fixed by the interpreter alone: its children
    share the stream. *)
Theorem read_line_returns_a_line (input : string) :
  (fst (read_stdin input) = None <-> input = EmptyString) /\
  (forall line rest,
      read_stdin input = (Some line, rest) ->
      (String.length line <= MAX_LINE_LENGTH - 1)%nat /\
      strchr line newline = false /\
      (String.length rest < String.length input)%nat) /\
  (forall line rest,
      fits line ->
      input = line +:+ nl +:+ rest ->
      read_stdin input = (Some line, rest)) /\
  (forall line,
      fits line -> line <> EmptyString ->
      input = line ->
      read_stdin input = (Some line, EmptyString)).
Proof.
  split; [|split; [|split]].
  - unfold read_stdin, fgets. destruct input as [|c input]; [done|].
    destruct (fgets_loop _ _). by split.
  - intros line rest. unfold read_stdin, fgets.
    destruct input as [|c input]; [done|].
    change (MAX_LINE_LENGTH - 1)%nat with (S 1022).
    pose proof (fgets_loop_input (S 1022) (String c input)) as [_ Hlen].
    pose proof (stored_line_no_newline (S 1022) (String c input)) as Hnl.
    pose proof (fgets_loop_takes 1022 c input) as Htake.
    destruct (fgets_loop (S 1022) (String c input)) as [b r].
    simpl fst in *. simpl snd in *. intros [= <- <-].
    split; [|split; [exact Hnl|simpl; lia]].
    pose proof (chop_newline_length (c_str b)).
    pose proof (c_str_length b). lia.
  - intros line rest (Hnl & Hnul & Hlen) ->. unfold read_stdin, fgets.
    destruct (line +:+ nl +:+ rest) as [|c s] eqn:E; [by destruct line|].
    rewrite <- E. rewrite fgets_loop_line
      by (done || (unfold MAX_LINE_LENGTH in *; lia)).
    simpl. rewrite c_str_text, chop_newline_snoc; [done|done|].
    by rewrite append_text.
  - intros line (Hnl & Hnul & Hlen) Hne ->. unfold read_stdin, fgets.
    destruct line as [|c s] eqn:E; [done|].
    rewrite <- E in *. rewrite fgets_loop_end
      by (done || (unfold MAX_LINE_LENGTH in *; lia)).
    simpl. by rewrite c_str_text, chop_newline_none.
Qed.

Lemma read_line_returns_a_line_witness :
  read_stdin ("ls -l" +:+ nl +:+ "exit" +:+ nl) = (Some "ls -l", "exit" +:+ nl).
Proof.
  refine (proj1 (proj2 (proj2 (read_line_returns_a_line
                                 ("ls -l" +:+ nl +:+ "exit" +:+ nl))))
            "ls -l" ("exit" +:+ nl) _ _).
  - split; [reflexivity|split; [reflexivity|vm_compute; lia]].
  - reflexivity.
Defined.

(** X6.  A line too long for the buffer is not cut short and not turned
    down: [read_line] returns its first [MAX_LINE_LENGTH - 1] characters
    as a line, and the characters after them are read by the next call,
    as the start of another line. *)
Theorem long_line_is_read_in_pieces (chunk rest : string) :
  String.length chunk = (MAX_LINE_LENGTH - 1)%nat ->
  strchr chunk newline = false ->
  strchr chunk NUL = false ->
  buffers (chunk +:+ rest) = chunk :: buffers rest /\
  read_line (head (buffers (chunk +:+ rest))) = Some chunk.
Proof.
  intros Hlen Hnl Hnul.
  assert (Hb : buffers (chunk +:+ rest) = chunk :: buffers rest).
  { rewrite (buffers_cons chunk rest).
    - by rewrite c_str_text.
    - by destruct chunk.
    - rewrite <- Hlen. by apply fgets_loop_full. }
  split; [exact Hb|]. rewrite Hb. simpl. by rewrite chop_newline_none.
Qed.

(** A line of [MAX_LINE_LENGTH - 1] characters and more. *)
Definition full_buffer : string := String.concat EmptyString (repeat "a" 1023).

Lemma long_line_is_read_in_pieces_witness :
  buffers (full_buffer +:+ " exit" +:+ nl) = full_buffer :: buffers (" exit" +:+ nl) /\
  read_line (head (buffers (full_buffer +:+ " exit" +:+ nl))) = Some full_buffer.
Proof.
  apply (long_line_is_read_in_pieces full_buffer (" exit" +:+ nl)).
  - vm_compute. reflexivity.
  - vm_compute. reflexivity.
  - vm_compute. reflexivity.
Defined.

(** ** External commands and built-in ones *)

(** Between the two states the interpreter has kept its descriptors, its
    directory, its disposition and its argument arrays. *)
Definition untouched (w w' : world) : Prop :=
  w_fds w' = w_fds w /\ w_cwd w' = w_cwd w /\ w_sigint w' = w_sigint w /\
  w_live w' = w_live w /\ w_nblocks w' = w_nblocks w.

(** The calls of the wait loop for the child [pid]. *)
Definition wait_event (pid : positive) (e : event) : Prop :=
  match e with
  | EvWaitpid p options _ => p = pid /\ options = WUNTRACED
  | EvPerror prefix _ => prefix = "waitpid failed"
  | _ => False
  end.

(** The child of [launch_process], as [fork] records it. *)
Definition launched (pid : positive) (env : child_env) (args : list string)
    (w : world) : child :=
  {| ch_pid := pid;
     ch_inherited := w_sigint w;
     ch_state :=
       {| c_sigint := SIG_DFL;
          c_fds := w_fds w;
          c_trace :=
            EvSignal SIGINT SIG_DFL ::
            match ce_exec env with
            | None => [EvExecvp args None]
            | Some e => [EvExecvp args (Some e); EvPerror "shell" e; EvExit 1]
            end |};
     ch_end := match ce_exec env with
               | None => Image args
               | Some _ => Exited 1
               end |}.

(** What the wait loop for the child [pid] does to the world: calls of
    [waitpid(pid, &status, WUNTRACED)], with a report when one fails,
    and nothing else. *)
Definition waited (pid : positive) (w w' : world) : Prop :=
  untouched w w' /\
  w_children w' = w_children w /\ w_nforks w' = w_nforks w /\
  w_npipes w' = w_npipes w /\
  exists new, w_trace w' = w_trace w ++ new /\ Forall (wait_event pid) new.

Section External.

Lemma wait_child_waited (turns : nat) (pid : positive) :
  forall w, waited pid w (world_of (wait_child turns pid w)).
Proof.
  induction turns as [|turns IH]; intros w; simpl.
  { repeat split. exists []. by rewrite app_nil_r. }
  unfold bind at 1, Sys.waitpid.
  destruct (w_waits w) as [|[st|e] rest]; simpl.
  - repeat split. eexists. split; [reflexivity|]. by repeat constructor.
  - destruct st as [code|sig|sig]; simpl;
      try (repeat split; eexists; split; [reflexivity|]; by repeat constructor).
    match goal with |- context [wait_child turns pid ?w1] =>
      destruct (IH w1) as ((F1 & F2 & F3 & F4 & F5) & Hc & Hf & Hp & new & Ht & Hnew)
    end.
    simpl in *. unfold waited, untouched. rewrite F1, F2, F3, F4, F5, Hc, Hf, Hp, Ht.
    repeat split. eexists. rewrite <- app_assoc. split; [reflexivity|].
    by repeat constructor.
  - repeat split. eexists. simpl. rewrite <- app_assoc. split; [reflexivity|].
    by repeat constructor.
Qed.

Lemma launch_process_failed (args : list string) (w : world) (e : Z) :
  w_fork_ans w (w_nforks w) = ForkFail e ->
  launch_process args w
  = Ret 1 (log (EvPerror "fork failed" e)
             (log (EvFork (inr e)) (count_fork (with_errno e w)))).
Proof. intros H. unfold launch_process, bind, Sys.fork. by rewrite H. Qed.

(** Once the child is forked the rest of [launch_process] is the wait
    loop. *)
Lemma launch_process_after_fork (args : list string) (w : world)
    (pid : positive) (env : child_env) :
  w_fork_ans w (w_nforks w) = ForkOk pid env ->
  let w1 := log (EvFork (inl pid)) (with_child (launched pid env args w) w) in
  launch_process args w = wait_child (S (length (w_waits w1))) pid w1.
Proof.
  intros H. unfold launch_process, bind, Sys.fork, launch_child, c_execvp, launched.
  rewrite H. by destruct (ce_exec env).
Qed.

End External.

(** X7.  An external command leaves the interpreter its descriptors, its
    directory and its disposition.  When [fork] fails, the failure is
    reported, 1 is returned, and there is no child and no wait.  When it
    succeeds, the child restores the default disposition, keeps the
    descriptors it inherited as they are and calls [execvp]; if that
    fails the child itself reports it and exits with status 1.  After
    the [fork] the interpreter makes no call but those of the wait
    loop. *)
Theorem launch_process_child (args : list string) (w : world) :
  untouched w (world_of (launch_process args w)) /\
  (forall e,
      w_fork_ans w (w_nforks w) = ForkFail e ->
      launch_process args w
      = Ret 1 (log (EvPerror "fork failed" e)
                 (log (EvFork (inr e)) (count_fork (with_errno e w)))) /\
      w_children (world_of (launch_process args w)) = w_children w /\
      w_waits (world_of (launch_process args w)) = w_waits w) /\
  (forall pid env,
      w_fork_ans w (w_nforks w) = ForkOk pid env ->
      w_children (world_of (launch_process args w))
      = w_children w ++ [launched pid env args w] /\
      exists new,
        w_trace (world_of (launch_process args w))
        = w_trace w ++ EvFork (inl pid) :: new /\
        Forall (wait_event pid) new).
Proof.
  destruct (w_fork_ans w (w_nforks w)) as [pid env|e] eqn:Hfork.
  - rewrite (launch_process_after_fork args w pid env Hfork).
    match goal with |- context [wait_child _ pid ?w1] =>
      destruct (wait_child_waited (S (length (w_waits w1))) pid w1)
        as (Hu & Hc & _ & _ & new & Ht & Hnew)
    end.
    split; [exact Hu|]. split; [done|].
    intros pid' env' [= <- <-]. split; [exact Hc|].
    exists new. split; [|done]. rewrite Ht. simpl. by rewrite <- app_assoc.
  - rewrite (launch_process_failed args w e Hfork).
    split; [done|]. split; [|done].
    by intros e' [= <-].
Qed.

Lemma launch_process_child_witness :
  let w := demo_world None [WaitStatus (WExited 0)] in
  w_children (world_of (launch_process ["ls"; "-l"] w))
  = w_children w
      ++ [launched 101 {| ce_dup2 := None; ce_exec := None |} ["ls"; "-l"] w] /\
  exists new,
    w_trace (world_of (launch_process ["ls"; "-l"] w))
    = w_trace w ++ EvFork (inl 101%positive) :: new /\
    Forall (wait_event 101) new.
Proof.
  intros w.
  apply (proj2 (proj2 (launch_process_child ["ls"; "-l"] w))).
  reflexivity.
Defined.

(** The calls of [execute_command] that write a message with [fprintf]:
    the one of [cd] without an argument and without [HOME]. *)
Definition no_message_but_cd (e : event) : Prop :=
  match e with
  | EvWrite _ _ => e = cd_needs_argument
  | _ => True
  end.

Definition not_implemented (name : string) : event :=
  EvWrite STDERR_FILENO
    ("shell: built-in command '" +:+ name +:+ "' not implemented." +:+ nl).

(** The calls a run has added to the trace, one or several. *)
Ltac added :=
  erewrite events_since_app
    by (simpl; rewrite <- ?app_assoc; simpl; reflexivity).

Section Builtins.

Lemma builtin_names (arg0 : string) :
  arg0 ∈ builtin_commands -> arg0 = "cd" \/ arg0 = "exit".
Proof.
  unfold builtin_commands. rewrite !elem_of_cons, elem_of_nil. tauto.
Qed.

Lemma execute_command_external (arg0 : string) (rest : list string) :
  arg0 ∉ builtin_commands ->
  execute_command (arg0 :: rest) = launch_process (arg0 :: rest).
Proof.
  intros H. unfold execute_command. rewrite is_builtin_spec.
  by rewrite bool_decide_eq_false_2.
Qed.

Lemma wait_event_no_message (pid : positive) (new : list event) :
  Forall (wait_event pid) new -> Forall no_message_but_cd new.
Proof. intros H. eapply Forall_impl; [exact H|]. by intros []. Qed.

Lemma execute_command_messages (args : list string) (w : world) :
  Forall no_message_but_cd (events_since w (world_of (execute_command args w))).
Proof.
  destruct args as [|arg0 rest].
  { unfold events_since. simpl. rewrite drop_all. constructor. }
  destruct (decide (arg0 ∈ builtin_commands)) as [Hb|Hb].
  - apply builtin_names in Hb as [-> | ->].
    + rewrite execute_command_cd. unfold cd_body, bind, Sys.getenv_HOME, Sys.chdir.
      destruct rest as [|path more].
      * destruct (w_home w) as [dir|]; simpl;
          [destruct (w_fs w (w_cwd w) dir); simpl|];
          added; by repeat constructor.
      * destruct (w_fs w (w_cwd w) path); simpl;
          added; by repeat constructor.
    + change (execute_command ("exit" :: rest) w) with (Ret 0 w).
      unfold events_since. simpl. rewrite drop_all. constructor.
  - rewrite execute_command_external by done.
    destruct (w_fork_ans w (w_nforks w)) as [pid env|e] eqn:Hfork.
    + rewrite (launch_process_after_fork _ w pid env Hfork).
      match goal with |- context [wait_child _ pid ?w1] =>
        destruct (wait_child_waited (S (length (w_waits w1))) pid w1)
          as (_ & _ & _ & _ & new & Ht & Hnew)
      end.
      rewrite (events_since_app w _ (EvFork (inl pid) :: new))
        by (rewrite Ht; simpl; by rewrite <- app_assoc).
      constructor; [done|]. by eapply wait_event_no_message.
    + rewrite (launch_process_failed _ w e Hfork).
      added. by repeat constructor.
Qed.

End Builtins.

(** X8.  The branch of [handle_builtin] for a built-in command without a
    handler cannot be reached through [execute_command]: it sends to
    [handle_builtin] the names of [builtin_commands] only, and each has
    its branch.  So the message of that branch is not among the calls of
    [execute_command], whatever the command and the name reported;
    called on another name, [handle_builtin] does write it. *)
Theorem builtin_fallback_is_unreachable (args : list string) (w : world)
    (name : string) :
  (not_implemented name ∉ events_since w (world_of (execute_command args w))) /\
  (forall arg0 rest,
      arg0 ∉ builtin_commands ->
      handle_builtin arg0 rest w = Ret 1 (log (not_implemented arg0) w)).
Proof.
  split.
  - intros Hin.
    pose proof (execute_command_messages args w) as Hall.
    rewrite Forall_forall in Hall. specialize (Hall _ Hin).
    simpl in Hall. discriminate Hall.
  - intros arg0 rest Hb. unfold handle_builtin. rewrite !strcmp_0.
    unfold builtin_commands in Hb. rewrite !elem_of_cons, elem_of_nil in Hb.
    rewrite !bool_decide_eq_false_2 by tauto. done.
Qed.

Lemma builtin_fallback_is_unreachable_witness :
  handle_builtin "pwd" [] (demo_world None [])
  = Ret 1 (log (not_implemented "pwd") (demo_world None [])).
Proof.
  apply (proj2 (builtin_fallback_is_unreachable [] (demo_world None []) "pwd")).
  intros H. repeat (apply elem_of_cons in H as [H|H]; [discriminate|]).
  by apply elem_of_nil in H.
Defined.

(** X9.  A built-in command runs in the interpreter itself: it always
    returns, forks nothing, waits for nothing, and leaves the
    descriptors, the disposition and the argument arrays as they are.
    Its calls are those of [cd]: [getenv], [chdir], and the report of a
    failure. *)
Theorem builtins_run_in_the_interpreter (arg0 : string) (rest : list string)
    (w : world) :
  arg0 ∈ builtin_commands ->
  let o := execute_command (arg0 :: rest) w in
  (exists status, returned o = Some status) /\
  w_children (world_of o) = w_children w /\
  w_nforks (world_of o) = w_nforks w /\
  w_npipes (world_of o) = w_npipes w /\
  w_waits (world_of o) = w_waits w /\
  w_fds (world_of o) = w_fds w /\
  w_sigint (world_of o) = w_sigint w /\
  w_live (world_of o) = w_live w /\
  w_nblocks (world_of o) = w_nblocks w /\
  Forall (fun e => match e with
                   | EvGetenv _ _ | EvChdir _ _ | EvPerror _ _ => True
                   | _ => e = cd_needs_argument
                   end)
    (events_since w (world_of o)).
Proof.
  intros Hb o. subst o.
  apply builtin_names in Hb as [-> | ->].
  - rewrite execute_command_cd. unfold cd_body, bind, Sys.getenv_HOME, Sys.chdir.
    destruct rest as [|path more].
    + destruct (w_home w) as [dir|]; simpl;
        [destruct (w_fs w (w_cwd w) dir); simpl|];
        added; (split; [by eexists|]); repeat split;
        by repeat constructor.
    + destruct (w_fs w (w_cwd w) path); simpl;
        added; (split; [by eexists|]); repeat split;
        by repeat constructor.
  - change (execute_command ("exit" :: rest) w) with (Ret 0 w).
    unfold events_since. simpl. rewrite drop_all.
    split; [by eexists|]. repeat split. constructor.
Qed.

Lemma builtins_run_in_the_interpreter_witness :
  let w := demo_world (Some "/home/user") [] in
  let o := execute_command ["cd"] w in
  (exists status, returned o = Some status) /\
  w_children (world_of o) = w_children w /\
  w_nforks (world_of o) = w_nforks w /\
  w_npipes (world_of o) = w_npipes w /\
  w_waits (world_of o) = w_waits w /\
  w_fds (world_of o) = w_fds w /\
  w_sigint (world_of o) = w_sigint w /\
  w_live (world_of o) = w_live w /\
  w_nblocks (world_of o) = w_nblocks w /\
  Forall (fun e => match e with
                   | EvGetenv _ _ | EvChdir _ _ | EvPerror _ _ => True
                   | _ => e = cd_needs_argument
                   end)
    (events_since w (world_of o)).
Proof.
  intros w.
  apply (builtins_run_in_the_interpreter "cd" [] w).
  apply elem_of_cons. by left.
Defined.

(** X10.  [cd] looks at its first argument only.  When [chdir] accepts
    it, the working directory becomes the directory [chdir] found,
    nothing is written, [errno] is left as it was, and 1 is returned. *)
Theorem cd_changes_directory (w : world) (path : string) (more : list string) :
  execute_command ("cd" :: path :: more) w = execute_command ["cd"; path] w /\
  (forall dir,
      w_fs w (w_cwd w) path = inl dir ->
      execute_command ("cd" :: path :: more) w
      = Ret 1 (log (EvChdir path None) (with_cwd dir w)) /\
      w_cwd (world_of (execute_command ("cd" :: path :: more) w)) = dir /\
      w_errno (world_of (execute_command ("cd" :: path :: more) w)) = w_errno w).
Proof.
  split; [done|].
  intros dir Hfs. rewrite execute_command_cd.
  unfold cd_body, bind, Sys.chdir. by rewrite Hfs.
Qed.

Lemma cd_changes_directory_witness :
  let w := demo_world None [] in
  execute_command ["cd"; "/home/user"; "x"] w
  = Ret 1 (log (EvChdir "/home/user" None) (with_cwd "/home/user" w)) /\
  w_cwd (world_of (execute_command ["cd"; "/home/user"; "x"] w)) = "/home/user" /\
  w_errno (world_of (execute_command ["cd"; "/home/user"; "x"] w)) = w_errno w.
Proof.
  intros w.
  apply (proj2 (cd_changes_directory w "/home/user" ["x"]) "/home/user").
  reflexivity.
Defined.

(** ** The two sides of a pipeline *)

(** The child [fork] records when the caller is in the state [w] and the
    branch of the child is [code]. *)
Definition forked (pid : positive) (env : child_env) (code : child_code)
    (w : world) : child :=
  let c0 := {| c_sigint := w_sigint w; c_fds := w_fds w; c_trace := [] |} in
  {| ch_pid := pid; ch_inherited := w_sigint w;
     ch_state := (code env c0).1; ch_end := (code env c0).2 |}.

(** The descriptors [pipe] is going to return in the state [w]. *)
Definition pipe_ends (w : world) : nat * nat :=
  let rd := Sys.lowest_free (w_fds w) in
  (rd, Sys.lowest_free (<[rd := PipeRead (w_npipes w)]> (w_fds w))).

(** The state after a successful [pipe]. *)
Definition piped (w : world) : world :=
  let (rd, wr) := pipe_ends w in
  log (EvPipe (inl (rd, wr)))
    (count_pipe
       (with_fds (<[wr := PipeWrite (w_npipes w)]>
                    (<[rd := PipeRead (w_npipes w)]> (w_fds w))) w)).

(** The state after [close(pipe_fd[0]); close(pipe_fd[1])]. *)
Definition closed (rd wr : nat) (w : world) : world :=
  let w1 := log (EvClose rd) (with_fds (delete rd (w_fds w)) w) in
  log (EvClose wr) (with_fds (delete wr (w_fds w1)) w1).

(** The state after a failed [fork] and its report. *)
Definition fork_failed (prefix : string) (e : Z) (w : world) : world :=
  log (EvPerror prefix e) (log (EvFork (inr e)) (count_fork (with_errno e w))).

(** What [waitpid] records of an answer. *)
Definition answer_of (a : wait_answer) : wstatus + Z :=
  match a with
  | WaitStatus st => inl st
  | WaitFail e => inr e
  end.

(** [handle_pipe], call by call, for two commands that are not empty. *)
Definition pipeline (command1 command2 : argv) (w : world) : outcome Z :=
  let (rd, wr) := pipe_ends w in
  match w_pipe_ans w (w_npipes w) with
  | Some e =>
      Ret 1 (log (EvPerror "pipe failed" e)
               (log (EvPipe (inr e)) (count_pipe (with_errno e w))))
  | None =>
      let w1 := piped w in
      match w_fork_ans w (w_nforks w) with
      | ForkFail e =>
          Ret 1 (closed rd wr (fork_failed "fork failed for first command" e w1))
      | ForkOk pid1 env1 =>
          let ch1 := forked pid1 env1 (pipe_child1 rd wr (entries command1)) w1 in
          let w2 := log (EvFork (inl pid1)) (with_child ch1 w1) in
          match w_fork_ans w (S (w_nforks w)) with
          | ForkFail e =>
              (Sys.waitpid pid1 0;; Sys.close rd;; Sys.close wr;; ret 1)
                (log (EvKill pid1 SIGTERM)
                   (fork_failed "fork failed for second command" e w2))
          | ForkOk pid2 env2 =>
              let ch2 := forked pid2 env2 (pipe_child2 rd wr (entries command2)) w2 in
              (Sys.waitpid pid1 0;; Sys.waitpid pid2 0;;
               release_both command1 command2)
                (closed rd wr (log (EvFork (inl pid2)) (with_child ch2 w2)))
          end
      end
  end.

Section TwoSides.

Lemma handle_pipe_pipeline (command1 command2 : argv) (w : world) :
  entries command1 <> [] -> entries command2 <> [] ->
  handle_pipe command1 command2 w = pipeline command1 command2 w.
Proof.
  intros H1 H2. unfold handle_pipe, pipeline, piped, pipe_ends, forked.
  change (free_args command1;; free_args command2;; ret 1)
    with (release_both command1 command2).
  destruct (entries command1) as [|a1 l1]; [done|].
  destruct (entries command2) as [|a2 l2]; [done|].
  unfold bind at 1, Sys.pipe.
  destruct (w_pipe_ans w (w_npipes w)) as [e|]; [done|].
  unfold bind at 1, Sys.fork. simpl.
  destruct (w_fork_ans w (w_nforks w)) as [pid1 env1|e1]; [|done].
  destruct (pipe_child1 _ _ _ _ _) as [c1 ce1]; simpl.
  unfold bind at 1. simpl.
  destruct (w_fork_ans w (S (w_nforks w))) as [pid2 env2|e2]; [|done].
  by destruct (pipe_child2 _ _ _ _ _) as [c2 ce2].
Qed.

Lemma pipe_ends_fresh (w : world) :
  let (rd, wr) := pipe_ends w in
  w_fds w !! rd = None /\ w_fds w !! wr = None /\ rd <> wr.
Proof.
  unfold pipe_ends.
  destruct (close_new_pipe (w_fds w) (w_npipes w)) as (_ & Hrd & Hwr).
  cbv zeta in Hwr. split; [done|]. split; [done|].
  intros Heq.
  pose proof (lowest_free_fresh (<[Sys.lowest_free (w_fds w) := PipeRead (w_npipes w)]>
                                   (w_fds w))) as Hf.
  rewrite <- Heq, lookup_insert_eq in Hf. done.
Qed.

(** The table of the producer: the inherited one, with the standard
    output on what [wr] refers to, and [rd] and [wr] closed. *)
Lemma producer_table (t : gmap nat file) (rd wr : nat) (r p : file) :
  t !! rd = None -> t !! wr = None -> rd <> wr ->
  rd <> STDOUT_FILENO -> wr <> STDOUT_FILENO ->
  delete wr (<[STDOUT_FILENO := p]> (delete rd (<[wr := p]> (<[rd := r]> t))))
  = <[STDOUT_FILENO := p]> t.
Proof.
  intros Hrd Hwr Hne H1 H2. apply map_eq. intros k.
  destruct (decide (k = wr)) as [->|Hkw].
  { by rewrite lookup_delete_eq, lookup_insert_ne. }
  rewrite lookup_delete_ne by done.
  destruct (decide (k = STDOUT_FILENO)) as [->|Hk1].
  { by rewrite !lookup_insert_eq. }
  rewrite !(lookup_insert_ne _ STDOUT_FILENO) by done.
  destruct (decide (k = rd)) as [->|Hkr].
  { by rewrite lookup_delete_eq. }
  by rewrite lookup_delete_ne, !lookup_insert_ne.
Qed.

Lemma consumer_table (t : gmap nat file) (rd wr : nat) (r p : file) :
  t !! rd = None -> t !! wr = None -> rd <> wr ->
  rd <> STDIN_FILENO -> wr <> STDIN_FILENO ->
  delete rd (<[STDIN_FILENO := r]> (delete wr (<[wr := p]> (<[rd := r]> t))))
  = <[STDIN_FILENO := r]> t.
Proof.
  intros Hrd Hwr Hne H1 H2. apply map_eq. intros k.
  destruct (decide (k = rd)) as [->|Hkr].
  { by rewrite lookup_delete_eq, lookup_insert_ne. }
  rewrite lookup_delete_ne by done.
  destruct (decide (k = STDIN_FILENO)) as [->|Hk1].
  { by rewrite !lookup_insert_eq. }
  rewrite !(lookup_insert_ne _ STDIN_FILENO) by done.
  destruct (decide (k = wr)) as [->|Hkw].
  { by rewrite lookup_delete_eq. }
  by rewrite lookup_delete_ne, !lookup_insert_ne.
Qed.



(** The two waits and the release leave the children as they are. *)
Lemma pipeline_end_children (pid1 pid2 : positive) (command1 command2 : argv)
    (w : world) :
  w_children
    (world_of ((Sys.waitpid pid1 0;; Sys.waitpid pid2 0;;
                release_both command1 command2) w))
  = w_children w.
Proof.
  unfold bind, Sys.waitpid.
  destruct (w_waits w) as [|a rest]; [done|].
  destruct a; simpl; (destruct rest as [|a' rest]; [done|]);
    destruct a'; simpl;
    match goal with |- context [release_both _ _ ?w1] =>
      destruct (release_both_frame command1 command2 w1) as (_ & _ & Hc & _)
    end;
    by destruct (release_both _ _ _).
Qed.

End TwoSides.

Section Stages.

Lemma c_execvp_fds (argv : list string) (env : child_env) (c : cproc) :
  c_fds (c_execvp argv env c).1 = c_fds c.
Proof. unfold c_execvp. by destruct (ce_exec env). Qed.

Lemma c_execvp_end (argv : list string) (env : child_env) (c : cproc) :
  (c_execvp argv env c).2
  = match ce_exec env with None => Image argv | Some _ => Exited 1 end.
Proof. unfold c_execvp. by destruct (ce_exec env). Qed.

Lemma pipe_child1_redirects (rd wr : nat) (command : list string)
    (env : child_env) (c : cproc) (p : file) :
  ce_dup2 env = None -> c_fds c !! wr = Some p -> rd <> wr ->
  c_fds (pipe_child1 rd wr command env c).1
  = delete wr (<[STDOUT_FILENO := p]> (delete rd (c_fds c))) /\
  (pipe_child1 rd wr command env c).2
  = match ce_exec env with None => Image command | Some _ => Exited 1 end.
Proof.
  intros Hd Hp Hne. unfold pipe_child1. rewrite Hd, c_execvp_fds, c_execvp_end.
  split; [|done]. simpl. by rewrite lookup_delete_ne, Hp.
Qed.

Lemma pipe_child2_redirects (rd wr : nat) (command : list string)
    (env : child_env) (c : cproc) (r : file) :
  ce_dup2 env = None -> c_fds c !! rd = Some r -> rd <> wr ->
  c_fds (pipe_child2 rd wr command env c).1
  = delete rd (<[STDIN_FILENO := r]> (delete wr (c_fds c))) /\
  (pipe_child2 rd wr command env c).2
  = match ce_exec env with None => Image command | Some _ => Exited 1 end.
Proof.
  intros Hd Hp Hne. unfold pipe_child2. rewrite Hd, c_execvp_fds, c_execvp_end.
  split; [|done]. simpl. by rewrite lookup_delete_ne, Hp.
Qed.

(** A side whose [dup2] fails reports it and exits: it does not get to
    [execvp]. *)
Lemma pipe_child1_fails (rd wr : nat) (command : list string)
    (env : child_env) (c : cproc) (e : Z) :
  ce_dup2 env = Some e -> c_trace c = [] ->
  (pipe_child1 rd wr command env c).2 = Exited 1 /\
  c_trace (pipe_child1 rd wr command env c).1
  = [EvSignal SIGINT SIG_DFL; EvClose rd; EvDup2 wr STDOUT_FILENO (Some e);
     EvPerror "dup2 failed for first command" e; EvExit 1].
Proof.
  intros Hd Hc. unfold pipe_child1. rewrite Hd. simpl. by rewrite Hc.
Qed.

Lemma pipe_child2_fails (rd wr : nat) (command : list string)
    (env : child_env) (c : cproc) (e : Z) :
  ce_dup2 env = Some e -> c_trace c = [] ->
  (pipe_child2 rd wr command env c).2 = Exited 1 /\
  c_trace (pipe_child2 rd wr command env c).1
  = [EvSignal SIGINT SIG_DFL; EvClose wr; EvDup2 rd STDIN_FILENO (Some e);
     EvPerror "dup2 failed for second command" e; EvExit 1].
Proof.
  intros Hd Hc. unfold pipe_child2. rewrite Hd. simpl. by rewrite Hc.
Qed.

(** With both children forked, they are the two children that
    [handle_pipe] adds, whatever becomes of the waits. *)
Lemma handle_pipe_children (command1 command2 : argv) (w : world)
    (pid1 pid2 : positive) (env1 env2 : child_env) (rd wr : nat) :
  entries command1 <> [] -> entries command2 <> [] ->
  w_pipe_ans w (w_npipes w) = None ->
  w_fork_ans w (w_nforks w) = ForkOk pid1 env1 ->
  w_fork_ans w (S (w_nforks w)) = ForkOk pid2 env2 ->
  pipe_ends w = (rd, wr) ->
  let ch1 := forked pid1 env1 (pipe_child1 rd wr (entries command1)) (piped w) in
  let ch2 := forked pid2 env2 (pipe_child2 rd wr (entries command2)) (piped w) in
  w_children (world_of (handle_pipe command1 command2 w))
  = w_children w ++ [ch1; ch2].
Proof.
  intros H1 H2 Hp Hf1 Hf2 He.
  rewrite handle_pipe_pipeline by done. unfold pipeline.
  rewrite He, Hp, Hf1, Hf2. cbv zeta.
  rewrite pipeline_end_children. unfold piped. rewrite He. simpl.
  by rewrite <- app_assoc.
Qed.

End Stages.





(** What a side of a pipeline has become when it stops running the code
    of the interpreter: with [dup2] done, its table is [table] and it
    calls [execvp] on [command]; with [dup2] failing, it has exited
    with status 1 and has not called [execvp]. *)
Definition stage (env : child_env) (command : list string)
    (table : gmap nat file) (ch : child) : Prop :=
  match ce_dup2 env with
  | None =>
      c_fds (ch_state ch) = table /\
      ch_end ch = match ce_exec env with
                  | None => Image command
                  | Some _ => Exited 1
                  end
  | Some _ =>
      ch_end ch = Exited 1 /\
      forall argv r, EvExecvp argv r ∉ c_trace (ch_state ch)
  end.

(** X11.  The two children of a pipeline, when the interpreter has its
    standard input and its standard output open.  The first runs its
    command with the interpreter's descriptors, except that its standard
    output is the write end of the new channel; the second with the
    interpreter's descriptors, except that its standard input is the
    read end.  Neither keeps another descriptor of the channel.  A side
    whose [dup2] fails exits with status 1 and does not call [execvp]. *)
Theorem pipe_children_descriptors (command1 command2 : argv) (w : world)
    (pid1 pid2 : positive) (env1 env2 : child_env) :
  entries command1 <> [] -> entries command2 <> [] ->
  w_pipe_ans w (w_npipes w) = None ->
  w_fork_ans w (w_nforks w) = ForkOk pid1 env1 ->
  w_fork_ans w (S (w_nforks w)) = ForkOk pid2 env2 ->
  is_Some (w_fds w !! STDIN_FILENO) ->
  is_Some (w_fds w !! STDOUT_FILENO) ->
  exists ch1 ch2,
    w_children (world_of (handle_pipe command1 command2 w))
    = w_children w ++ [ch1; ch2] /\
    ch_pid ch1 = pid1 /\ ch_pid ch2 = pid2 /\
    stage env1 (entries command1)
      (<[STDOUT_FILENO := PipeWrite (w_npipes w)]> (w_fds w)) ch1 /\
    stage env2 (entries command2)
      (<[STDIN_FILENO := PipeRead (w_npipes w)]> (w_fds w)) ch2.
Proof.
  intros H1 H2 Hp Hf1 Hf2 [f0 H0] [f1 Hout].
  destruct (pipe_ends w) as [rd wr] eqn:He.
  pose proof (pipe_ends_fresh w) as Hfresh. rewrite He in Hfresh.
  destruct Hfresh as (Hrd & Hwr & Hne).
  assert (rd <> STDIN_FILENO /\ rd <> STDOUT_FILENO /\
          wr <> STDIN_FILENO /\ wr <> STDOUT_FILENO) as (R0 & R1 & W0 & W1).
  { repeat split; intros ->; congruence. }
  eexists _, _.
  split; [by apply (handle_pipe_children _ _ w pid1 pid2 env1 env2 rd wr)|].
  split; [done|]. split; [done|].
  unfold stage, forked, piped. rewrite He. simpl. split.
  - destruct (ce_dup2 env1) as [e|] eqn:Hd.
    + destruct (pipe_child1_fails rd wr (entries command1) env1
                  {| c_sigint := w_sigint w;
                     c_fds := <[wr:=PipeWrite (w_npipes w)]>
                                (<[rd:=PipeRead (w_npipes w)]> (w_fds w));
                     c_trace := [] |} e Hd eq_refl) as [-> ->].
      split; [done|]. intros argv r Hin. not_among Hin.
    + destruct (pipe_child1_redirects rd wr (entries command1) env1
                  {| c_sigint := w_sigint w;
                     c_fds := <[wr:=PipeWrite (w_npipes w)]>
                                (<[rd:=PipeRead (w_npipes w)]> (w_fds w));
                     c_trace := [] |} (PipeWrite (w_npipes w)) Hd)
        as [-> ->]; [simpl; by rewrite lookup_insert_eq|done|].
      split; [|done]. simpl. by apply producer_table.
  - destruct (ce_dup2 env2) as [e|] eqn:Hd.
    + destruct (pipe_child2_fails rd wr (entries command2) env2
                  {| c_sigint := w_sigint w;
                     c_fds := <[wr:=PipeWrite (w_npipes w)]>
                                (<[rd:=PipeRead (w_npipes w)]> (w_fds w));
                     c_trace := [] |} e Hd eq_refl) as [-> ->].
      split; [done|]. intros argv r Hin. not_among Hin.
    + destruct (pipe_child2_redirects rd wr (entries command2) env2
                  {| c_sigint := w_sigint w;
                     c_fds := <[wr:=PipeWrite (w_npipes w)]>
                                (<[rd:=PipeRead (w_npipes w)]> (w_fds w));
                     c_trace := [] |} (PipeRead (w_npipes w)) Hd)
        as [-> ->]; [simpl; by rewrite lookup_insert_ne, lookup_insert_eq|done|].
      split; [|done]. simpl. by apply consumer_table.
Qed.

Lemma pipe_children_descriptors_witness :
  let w := allocated (demo_world None []) in
  exists ch1 ch2,
    w_children (world_of (handle_pipe (first_vector 0 ["ls"] ["wc"])
                            (second_vector 0 ["ls"] ["wc"]) w))
    = w_children w ++ [ch1; ch2] /\
    ch_pid ch1 = 101%positive /\ ch_pid ch2 = 102%positive /\
    stage {| ce_dup2 := None; ce_exec := None |}
      (entries (first_vector 0 ["ls"] ["wc"]))
      (<[STDOUT_FILENO := PipeWrite (w_npipes w)]> (w_fds w)) ch1 /\
    stage {| ce_dup2 := None; ce_exec := None |}
      (entries (second_vector 0 ["ls"] ["wc"]))
      (<[STDIN_FILENO := PipeRead (w_npipes w)]> (w_fds w)) ch2.
Proof.
  intros w.
  apply (pipe_children_descriptors (first_vector 0 ["ls"] ["wc"])
           (second_vector 0 ["ls"] ["wc"]) w).
  - vm_compute. discriminate.
  - vm_compute. discriminate.
  - reflexivity.
  - reflexivity.
  - reflexivity.
  - exists Terminal. reflexivity.
  - exists Terminal. reflexivity.
Defined.




Section Failures.

Lemma pipe_ends_close (w : world) (rd wr : nat) :
  pipe_ends w = (rd, wr) ->
  delete wr (delete rd (<[wr := PipeWrite (w_npipes w)]>
                          (<[rd := PipeRead (w_npipes w)]> (w_fds w))))
  = w_fds w.
Proof.
  unfold pipe_ends. intros [= <- <-].
  by destruct (close_new_pipe (w_fds w) (w_npipes w)) as (H & _).
Qed.

End Failures.

(** X13.  When the second [fork] fails, the first child is not left
    behind: after the report [handle_pipe] sends it [SIGTERM], waits
    for it, and only then closes the two ends of the channel and
    returns 1.  Nothing is released.  While that wait lasts the
    interpreter still holds both ends. *)
Theorem second_fork_failure (command1 command2 : argv) (w : world)
    (pid1 : positive) (env1 : child_env) (e : Z) (rd wr : nat) :
  entries command1 <> [] -> entries command2 <> [] ->
  w_pipe_ans w (w_npipes w) = None ->
  w_fork_ans w (w_nforks w) = ForkOk pid1 env1 ->
  w_fork_ans w (S (w_nforks w)) = ForkFail e ->
  pipe_ends w = (rd, wr) ->
  let before_wait :=
    [EvPipe (inl (rd, wr)); EvFork (inl pid1); EvFork (inr e);
     EvPerror "fork failed for second command" e; EvKill pid1 SIGTERM] in
  (forall a rest,
      w_waits w = a :: rest ->
      exists w',
        handle_pipe command1 command2 w = Ret 1 w' /\
        events_since w w'
        = before_wait ++ [EvWaitpid pid1 0 (Some (answer_of a));
                          EvClose rd; EvClose wr] /\
        length (w_children w') = S (length (w_children w)) /\
        w_fds w' = w_fds w /\ w_live w' = w_live w /\ w_waits w' = rest) /\
  (w_waits w = [] ->
   exists w',
     handle_pipe command1 command2 w = Block w' /\
     events_since w w' = before_wait ++ [EvWaitpid pid1 0 None] /\
     w_fds w' !! rd = Some (PipeRead (w_npipes w)) /\
     w_fds w' !! wr = Some (PipeWrite (w_npipes w))).
Proof.
  intros H1 H2 Hp Hf1 Hf2 He before_wait. subst before_wait.
  pose proof (pipe_ends_close w rd wr He) as Hclose.
  pose proof (pipe_ends_fresh w) as Hfresh. rewrite He in Hfresh.
  destruct Hfresh as (Hrd & Hwr & Hne).
  rewrite handle_pipe_pipeline by done. unfold pipeline, piped.
  rewrite He, Hp, Hf1, Hf2. cbv zeta.
  unfold bind, Sys.waitpid. simpl. split.
  - intros a rest ->.
    destruct a as [st|e']; simpl; eexists; (split; [reflexivity|]); simpl;
      added; rewrite Hclose, length_app; simpl;
      (repeat split; try done; lia).
  - intros ->. eexists. split; [reflexivity|]. simpl. added.
    split; [done|]. by rewrite lookup_insert_ne, !lookup_insert_eq.
Qed.

Lemma second_fork_failure_witness :
  let w := boot "/" None demo_fs (fun _ => None)
             (fun n => match n with
                       | O => ForkOk 101 {| ce_dup2 := None; ce_exec := None |}
                       | _ => ForkFail 11
                       end)
             [WaitStatus (WSignaled SIGTERM)] in
  exists w',
    handle_pipe (first_vector 0 ["ls"] ["wc"]) (second_vector 0 ["ls"] ["wc"]) w
    = Ret 1 w' /\
    events_since w w'
    = [EvPipe (inl (3, 4)%nat); EvFork (inl 101%positive); EvFork (inr 11);
       EvPerror "fork failed for second command" 11; EvKill 101 SIGTERM]
        ++ [EvWaitpid 101 0 (Some (answer_of (WaitStatus (WSignaled SIGTERM))));
            EvClose 3; EvClose 4] /\
    length (w_children w') = S (length (w_children w)) /\
    w_fds w' = w_fds w /\ w_live w' = w_live w /\ w_waits w' = [].
Proof.
  intros w.
  refine (proj1 (second_fork_failure (first_vector 0 ["ls"] ["wc"])
                   (second_vector 0 ["ls"] ["wc"]) w
                   101 {| ce_dup2 := None; ce_exec := None |} 11 3 4 _ _ _ _ _ _)
            (WaitStatus (WSignaled SIGTERM)) [] _).
  - vm_compute. discriminate.
  - vm_compute. discriminate.
  - reflexivity.
  - reflexivity.
  - reflexivity.
  - vm_compute. reflexivity.
  - reflexivity.
Defined.

(** X14.  A pipeline that cannot be started.  When [pipe] fails the
    failure is reported and 1 is returned: nothing is forked and no
    descriptor is opened.  When the first [fork] fails it is reported,
    both ends of the channel are closed, and 1 is returned: there is no
    child, the descriptors are as before, and no [waitpid] is called. *)
Theorem pipeline_not_started (command1 command2 : argv) (w : world) :
  entries command1 <> [] -> entries command2 <> [] ->
  (forall e,
      w_pipe_ans w (w_npipes w) = Some e ->
      handle_pipe command1 command2 w
      = Ret 1 (log (EvPerror "pipe failed" e)
                 (log (EvPipe (inr e)) (count_pipe (with_errno e w))))) /\
  (forall e rd wr,
      w_pipe_ans w (w_npipes w) = None ->
      w_fork_ans w (w_nforks w) = ForkFail e ->
      pipe_ends w = (rd, wr) ->
      exists w',
        handle_pipe command1 command2 w = Ret 1 w' /\
        events_since w w'
        = [EvPipe (inl (rd, wr)); EvFork (inr e);
           EvPerror "fork failed for first command" e;
           EvClose rd; EvClose wr] /\
        w_children w' = w_children w /\ w_fds w' = w_fds w /\
        w_waits w' = w_waits w /\ w_live w' = w_live w).
Proof.
  intros H1 H2. rewrite handle_pipe_pipeline by done. unfold pipeline, piped.
  split.
  - intros e Hp. rewrite Hp. by destruct (pipe_ends w).
  - intros e rd wr Hp Hf He.
    pose proof (pipe_ends_close w rd wr He) as Hclose.
    rewrite He, Hp, Hf. cbv zeta. eexists. split; [reflexivity|].
    simpl. added. by rewrite Hclose.
Qed.

Lemma pipeline_not_started_witness :
  let w := boot "/" None demo_fs (fun _ => Some 24)
             (fun n => ForkFail 11) [] in
  handle_pipe (first_vector 0 ["ls"] ["wc"]) (second_vector 0 ["ls"] ["wc"]) w
  = Ret 1 (log (EvPerror "pipe failed" 24)
             (log (EvPipe (inr 24)) (count_pipe (with_errno 24 w)))).
Proof.
  intros w.
  refine (proj1 (pipeline_not_started (first_vector 0 ["ls"] ["wc"])
                   (second_vector 0 ["ls"] ["wc"]) w _ _) 24 _).
  - vm_compute. discriminate.
  - vm_compute. discriminate.
  - reflexivity.
Defined.

Section Release.

(** A pipeline that [parse_line] has built, both children forked and
    both waits answered: the first release frees the array, the second
    is given a pointer into it. *)
Lemma pipeline_completed (args : nat) (before after : list string) (w : world)
    (pid1 pid2 : positive) (env1 env2 : child_env)
    (a1 a2 : wait_answer) (rest : list wait_answer) (rd wr : nat) :
  before <> [] -> after <> [] ->
  args ∈ w_live w ->
  w_pipe_ans w (w_npipes w) = None ->
  w_fork_ans w (w_nforks w) = ForkOk pid1 env1 ->
  w_fork_ans w (S (w_nforks w)) = ForkOk pid2 env2 ->
  w_waits w = a1 :: a2 :: rest ->
  pipe_ends w = (rd, wr) ->
  exists w',
    handle_pipe (first_vector args before after)
      (second_vector args before after) w = Undefined w' /\
    events_since w w'
    = [EvPipe (inl (rd, wr)); EvFork (inl pid1); EvFork (inl pid2);
       EvClose rd; EvClose wr;
       EvWaitpid pid1 0 (Some (answer_of a1));
       EvWaitpid pid2 0 (Some (answer_of a2))] /\
    w_waits w' = rest /\ w_fds w' = w_fds w /\
    w_live w' = w_live w ∖ {[ args ]}.
Proof.
  intros Hb Ha Hlive Hp Hf1 Hf2 Hw He.
  pose proof (pipe_ends_close w rd wr He) as Hclose.
  rewrite handle_pipe_pipeline by (by rewrite ?entries_first, ?entries_second).
  unfold pipeline, piped. rewrite He, Hp, Hf1, Hf2. cbv zeta.
  unfold bind, Sys.waitpid. simpl. rewrite Hw.
  destruct a1 as [st1|e1], a2 as [st2|e2]; simpl;
    rewrite release_both_undefined by done;
    eexists; (split; [reflexivity|]); simpl; added; by rewrite Hclose.
Qed.

(** When [handle_pipe] returns, on the vectors [parse_line] gives it, it
    has released nothing. *)
Lemma handle_pipe_returns_store (args : nat) (before after : list string)
    (w w' : world) (status : Z) :
  args ∈ w_live w ->
  handle_pipe (first_vector args before after)
    (second_vector args before after) w = Ret status w' ->
  w_live w' = w_live w /\ w_nblocks w' = w_nblocks w.
Proof.
  intros Hlive.
  destruct (decide (before = [])) as [->|Hb].
  { rewrite handle_pipe_usage by (left; apply entries_first).
    by intros [= _ <-]. }
  destruct (decide (after = [])) as [->|Ha].
  { rewrite handle_pipe_usage by (right; apply entries_second).
    by intros [= _ <-]. }
  rewrite handle_pipe_pipeline by (by rewrite ?entries_first, ?entries_second).
  unfold pipeline, piped. destruct (pipe_ends w) as [rd wr].
  destruct (w_pipe_ans w (w_npipes w)) as [e|]; [by intros [= _ <-]|].
  destruct (w_fork_ans w (w_nforks w)) as [pid1 env1|e1]; [|by intros [= _ <-]].
  cbv zeta.
  destruct (w_fork_ans w (S (w_nforks w))) as [pid2 env2|e2];
    unfold bind, Sys.waitpid; simpl.
  - destruct (w_waits w) as [|a1 [|a2 rest]]; [done|by destruct a1|].
    destruct a1, a2; simpl; by rewrite release_both_undefined.
  - destruct (w_waits w) as [|a rest]; [done|].
    destruct a; simpl; by intros [= _ <-].
Qed.

End Release.


Section CompletedPipeline.

(** A pipeline that [parse_line] has built, both children forked and
    both waits answered, with the calls made up to the second release
    and the children left. *)
Lemma pipeline_completed_run (args : nat) (before after : list string) (w : world)
    (pid1 pid2 : positive) (env1 env2 : child_env)
    (a1 a2 : wait_answer) (rest : list wait_answer) (rd wr : nat) :
  before <> [] -> after <> [] ->
  args ∈ w_live w ->
  w_pipe_ans w (w_npipes w) = None ->
  w_fork_ans w (w_nforks w) = ForkOk pid1 env1 ->
  w_fork_ans w (S (w_nforks w)) = ForkOk pid2 env2 ->
  w_waits w = a1 :: a2 :: rest ->
  pipe_ends w = (rd, wr) ->
  exists w',
    handle_pipe (first_vector args before after)
      (second_vector args before after) w = Undefined w' /\
    w_trace w'
    = w_trace w
        ++ [EvPipe (inl (rd, wr)); EvFork (inl pid1); EvFork (inl pid2);
            EvClose rd; EvClose wr;
            EvWaitpid pid1 0 (Some (answer_of a1));
            EvWaitpid pid2 0 (Some (answer_of a2))] /\
    w_children w'
    = w_children w
        ++ [forked pid1 env1 (pipe_child1 rd wr before) (piped w);
            forked pid2 env2 (pipe_child2 rd wr after) (piped w)] /\
    w_live w' = w_live w ∖ {[ args ]}.
Proof.
  intros Hb Ha Hlive Hp Hf1 Hf2 Hw He.
  rewrite handle_pipe_pipeline by (by rewrite ?entries_first, ?entries_second).
  unfold pipeline, piped. rewrite He, Hp, Hf1, Hf2. cbv zeta.
  rewrite entries_first, entries_second.
  unfold bind, Sys.waitpid. simpl. rewrite Hw.
  destruct a1 as [st1|e1], a2 as [st2|e2]; simpl;
    rewrite release_both_undefined by done;
    eexists; (split; [reflexivity|]); simpl;
    rewrite <- !app_assoc; done.
Qed.

Lemma piped_line_completed (line : string) (before after : list string) (w : world)
    (pid1 pid2 : positive) (env1 env2 : child_env)
    (a1 a2 : wait_answer) (rest : list wait_answer) (rd wr : nat) :
  classify line = Piped before after ->
  before <> [] -> after <> [] ->
  w_pipe_ans w (w_npipes w) = None ->
  w_fork_ans w (w_nforks w) = ForkOk pid1 env1 ->
  w_fork_ans w (S (w_nforks w)) = ForkOk pid2 env2 ->
  w_waits w = a1 :: a2 :: rest ->
  pipe_ends w = (rd, wr) ->
  exists w',
    parse_line line w = Undefined w' /\
    w_trace w'
    = w_trace w
        ++ [EvPipe (inl (rd, wr)); EvFork (inl pid1); EvFork (inl pid2);
            EvClose rd; EvClose wr;
            EvWaitpid pid1 0 (Some (answer_of a1));
            EvWaitpid pid2 0 (Some (answer_of a2))] /\
    w_children w'
    = w_children w
        ++ [forked pid1 env1 (pipe_child1 rd wr before) (piped w);
            forked pid2 env2 (pipe_child2 rd wr after) (piped w)] /\
    (w_nblocks w ∉ w_live w').
Proof.
  intros Hc Hb Ha Hp Hf1 Hf2 Hw He.
  destruct (pipeline_completed_run (w_nblocks w) before after (allocated w)
              pid1 pid2 env1 env2 a1 a2 rest rd wr)
    as (w' & Hrun & Ht & Hch & Hl); try done.
  { apply elem_of_union. left. by apply elem_of_singleton. }
  exists w'. rewrite (parse_line_piped _ _ _ _ Hc). unfold bind at 1. rewrite Hrun.
  split; [done|]. split; [exact Ht|]. split; [exact Hch|].
  rewrite Hl. intros H. apply elem_of_difference in H as [_ H].
  apply H. by apply elem_of_singleton.
Qed.

End CompletedPipeline.

(** C10: the code at the failing input.  A line that splits into two
    commands, neither of them empty, such as [exit | exit]; the channel
    is made, both children are forked and both calls of [waitpid] are
    answered.  The dispatcher is not called: after the prompt the calls
    of the interpreter are those of [handle_pipe], and the two commands
    are run by the children.  But [parse_line] does not return NULL to
    [main].  [handle_pipe] ends by releasing the two commands, which are
    two parts of one array: the first release frees the array, and the
    second reads it and frees a pointer into its middle.  What happens
    then is not defined, whatever [status] was and whatever lines
    follow: the turn is not over, the loop test is not reached, and
    nothing says that the interpreter goes on. *)
Theorem completed_pipeline_ends_session (buffer : string) (stdin : list string)
    (before after : list string) (w : world)
    (pid1 pid2 : positive) (env1 env2 : child_env)
    (a1 a2 : wait_answer) (rest : list wait_answer) (rd wr : nat) :
  classify (chop_newline buffer) = Piped before after ->
  before <> [] -> after <> [] ->
  w_pipe_ans w (w_npipes w) = None ->
  w_fork_ans w (w_nforks w) = ForkOk pid1 env1 ->
  w_fork_ans w (S (w_nforks w)) = ForkOk pid2 env2 ->
  w_waits w = a1 :: a2 :: rest ->
  pipe_ends w = (rd, wr) ->
  let calls :=
    [prompt; EvPipe (inl (rd, wr)); EvFork (inl pid1); EvFork (inl pid2);
     EvClose rd; EvClose wr;
     EvWaitpid pid1 0 (Some (answer_of a1));
     EvWaitpid pid2 0 (Some (answer_of a2))] in
  (exists w',
      parse_line (chop_newline buffer) (log prompt w) = Undefined w' /\
      (forall status, shell_loop (buffer :: stdin) status w = Undefined w') /\
      events_since w w' = calls /\
      w_children w'
      = w_children w
          ++ [forked pid1 env1 (pipe_child1 rd wr before) (piped w);
              forked pid2 env2 (pipe_child2 rd wr after) (piped w)] /\
      (w_nblocks w ∉ w_live w')) /\
  (exists w',
      main (buffer :: stdin) w = Undefined w' /\
      events_since w w' = EvSignal SIGINT SIG_IGN :: calls).
Proof.
  intros Hc Hb Ha Hp Hf1 Hf2 Hw He calls. subst calls. split.
  - destruct (piped_line_completed (chop_newline buffer) before after
                (log prompt w) pid1 pid2 env1 env2 a1 a2 rest rd wr)
      as (w' & Hparse & Ht & Hch & Hl); try done.
    exists w'. split; [exact Hparse|].
    assert (Hnull : forall args,
               returned (parse_line (chop_newline buffer) (log prompt w))
               <> Some (Some args)) by (by rewrite Hparse).
    split; [|split; [|split; [exact Hch|exact Hl]]].
    + intros status. rewrite shell_loop_null by done.
      unfold bind, Sys.printf. fold prompt. by rewrite Hparse.
    + apply events_since_app. rewrite Ht. simpl. by rewrite <- app_assoc.
  - set (w0 := log (EvSignal SIGINT SIG_IGN) (with_sigint SIG_IGN w)).
    destruct (piped_line_completed (chop_newline buffer) before after
                (log prompt w0) pid1 pid2 env1 env2 a1 a2 rest rd wr)
      as (w' & Hparse & Ht & _); try done.
    exists w'.
    assert (Hnull : forall args,
               returned (parse_line (chop_newline buffer) (log prompt w0))
               <> Some (Some args)) by (by rewrite Hparse).
    split.
    + unfold main, bind at 1, Sys.signal. fold w0. unfold bind at 1.
      rewrite shell_loop_null by done.
      unfold bind, Sys.printf. fold prompt. by rewrite Hparse.
    + apply events_since_app. rewrite Ht. simpl. by rewrite <- !app_assoc.
Qed.

Lemma completed_pipeline_ends_session_witness :
  let w := demo_world None [WaitStatus (WExited 0); WaitStatus (WExited 0)] in
  exists w',
    main ("exit | exit" :: ["ls"]) w = Undefined w' /\
    events_since w w'
    = EvSignal SIGINT SIG_IGN
      :: [prompt; EvPipe (inl (3, 4)%nat);
          EvFork (inl 101%positive); EvFork (inl 102%positive);
          EvClose 3; EvClose 4;
          EvWaitpid 101 0 (Some (answer_of (WaitStatus (WExited 0))));
          EvWaitpid 102 0 (Some (answer_of (WaitStatus (WExited 0))))].
Proof.
  intros w.
  refine (proj2 (completed_pipeline_ends_session "exit | exit" ["ls"]
                   ["exit"] ["exit"] w
                   101 102 {| ce_dup2 := None; ce_exec := None |}
                   {| ce_dup2 := None; ce_exec := None |}
                   (WaitStatus (WExited 0)) (WaitStatus (WExited 0)) [] 3 4
                   _ _ _ _ _ _ _ _)).
  - reflexivity.
  - discriminate.
  - discriminate.
  - reflexivity.
  - reflexivity.
  - reflexivity.
  - reflexivity.
  - vm_compute. reflexivity.
Defined.

(** X15.  A pipeline that runs to its end does not give control back.
    On a line that splits into two commands, with the channel made, both
    children forked and both waits answered, [parse_line] makes these
    calls and then releases the two commands.  They are the two parts of
    one array: the first release frees it, and the second reads it and
    frees a pointer into its middle, which C leaves undefined.  With
    fewer than two answers the interpreter is still waiting. *)
Theorem completed_pipeline_is_undefined (line : string)
    (before after : list string) (w : world)
    (pid1 pid2 : positive) (env1 env2 : child_env) (rd wr : nat) :
  classify line = Piped before after ->
  before <> [] -> after <> [] ->
  w_pipe_ans w (w_npipes w) = None ->
  w_fork_ans w (w_nforks w) = ForkOk pid1 env1 ->
  w_fork_ans w (S (w_nforks w)) = ForkOk pid2 env2 ->
  pipe_ends w = (rd, wr) ->
  (forall a1 a2 rest,
      w_waits w = a1 :: a2 :: rest ->
      exists w',
        parse_line line w = Undefined w' /\
        events_since w w'
        = [EvPipe (inl (rd, wr)); EvFork (inl pid1); EvFork (inl pid2);
           EvClose rd; EvClose wr;
           EvWaitpid pid1 0 (Some (answer_of a1));
           EvWaitpid pid2 0 (Some (answer_of a2))] /\
        w_waits w' = rest /\ w_fds w' = w_fds w /\
        (w_nblocks w ∉ w_live w')) /\
  ((length (w_waits w) < 2)%nat -> blocked (parse_line line w)).
Proof.
  intros Hc Hb Ha Hp Hf1 Hf2 He.
  rewrite (parse_line_piped _ _ _ _ Hc). split.
  - intros a1 a2 rest Hw.
    destruct (pipeline_completed (w_nblocks w) before after (allocated w)
                pid1 pid2 env1 env2 a1 a2 rest rd wr)
      as (w' & Hrun & Hev & Hwaits & Hfds & Hl); try done.
    { apply elem_of_union. left. by apply elem_of_singleton. }
    exists w'. unfold bind at 1. rewrite Hrun.
    split; [done|]. split; [exact Hev|]. split; [done|]. split; [done|].
    rewrite Hl. intros H. apply elem_of_difference in H as [_ H].
    apply H. by apply elem_of_singleton.
  - intros Hlen. unfold bind at 1.
    rewrite handle_pipe_pipeline by (by rewrite ?entries_first, ?entries_second).
    unfold pipeline, piped.
    change (pipe_ends (allocated w)) with (pipe_ends w). rewrite He.
    change (w_pipe_ans (allocated w) (w_npipes (allocated w)))
      with (w_pipe_ans w (w_npipes w)).
    change (w_fork_ans (allocated w) (w_nforks (allocated w)))
      with (w_fork_ans w (w_nforks w)).
    change (w_fork_ans (allocated w) (S (w_nforks (allocated w))))
      with (w_fork_ans w (S (w_nforks w))).
    rewrite Hp, Hf1, Hf2. cbv zeta.
    unfold bind, Sys.waitpid. simpl.
    destruct (w_waits w) as [|a1 [|a2 rest]]; [done|by destruct a1|].
    simpl in Hlen. lia.
Qed.

Lemma completed_pipeline_is_undefined_witness :
  let w := demo_world None [WaitStatus (WExited 0); WaitStatus (WExited 0)] in
  exists w',
    parse_line "ls -l | wc" w = Undefined w' /\
    events_since w w'
    = [EvPipe (inl (3, 4)%nat); EvFork (inl 101%positive); EvFork (inl 102%positive);
       EvClose 3; EvClose 4;
       EvWaitpid 101 0 (Some (answer_of (WaitStatus (WExited 0))));
       EvWaitpid 102 0 (Some (answer_of (WaitStatus (WExited 0))))] /\
    w_waits w' = [] /\ w_fds w' = w_fds w /\
    (w_nblocks w ∉ w_live w').
Proof.
  intros w.
  refine (proj1 (completed_pipeline_is_undefined "ls -l | wc" ["ls"; "-l"] ["wc"] w
                   101 102 {| ce_dup2 := None; ce_exec := None |}
                   {| ce_dup2 := None; ce_exec := None |} 3 4 _ _ _ _ _ _ _)
            (WaitStatus (WExited 0)) (WaitStatus (WExited 0)) [] _).
  - reflexivity.
  - discriminate.
  - discriminate.
  - reflexivity.
  - reflexivity.
  - reflexivity.
  - vm_compute. reflexivity.
  - reflexivity.
Defined.

(** X16.  On a line of at most [MAX_ARGS] tokens, whenever [parse_line]
    returns NULL the array it allocated is still allocated, although the
    caller is given no pointer to it: the line had a pipe token,
    [handle_pipe] turned the pipeline down or failed to start it, and on
    these paths nothing is released. *)
Theorem rejected_pipeline_leaks (line : string) (w w' : world) :
  (length (tokens line) <= MAX_ARGS)%nat ->
  parse_line line w = Ret None w' ->
  "|" ∈ tokens line /\
  w_nblocks w ∈ w_live w' /\
  w_live w' = {[ w_nblocks w ]} ∪ w_live w /\
  w_nblocks w' = S (w_nblocks w).
Proof.
  intros Hcap Hr.
  destruct (line_kinds line) as [Hlong|[[Hlen Hin]|[Hno Hlen]]].
  - lia.
  - split; [done|].
    destruct (classify_piped line Hin Hlen) as (before & after & Hc & _).
    rewrite (parse_line_piped _ _ _ _ Hc) in Hr. unfold bind in Hr.
    destruct (handle_pipe _ _ (allocated w)) as [status w1|w1|w1] eqn:Hrun;
      [|done|done].
    injection Hr as <-.
    apply handle_pipe_returns_store in Hrun as [Hl Hn];
      [|apply elem_of_union; left; by apply elem_of_singleton].
    rewrite Hl, Hn. simpl. split; [|done].
    apply elem_of_union. left. by apply elem_of_singleton.
  - by rewrite parse_line_single in Hr.
Qed.

Lemma rejected_pipeline_leaks_witness :
  let w := demo_world None [] in
  "|" ∈ tokens "ls |" /\
  w_nblocks w ∈ w_live (log pipe_usage (allocated w)) /\
  w_live (log pipe_usage (allocated w)) = {[ w_nblocks w ]} ∪ w_live w /\
  w_nblocks (log pipe_usage (allocated w)) = S (w_nblocks w).
Proof.
  intros w.
  apply (rejected_pipeline_leaks "ls |" w (log pipe_usage (allocated w))).
  - vm_compute. lia.
  - vm_compute. reflexivity.
Defined.

(** ** Sessions *)

(** The arrays in use were all handed out by the allocator. *)
Definition fresh (w : world) : Prop :=
  forall block, block ∈ w_live w -> (block < w_nblocks w)%nat.

(** Where a run can be found waiting: in the wait loop of
    [launch_process], at a [waitpid] that has not returned. *)
Definition waiting (w : world) : Prop :=
  exists pid, last (w_trace w) = Some (EvWaitpid pid WUNTRACED None).

(** What a command or a turn of the loop leaves to the interpreter. *)
Definition kept (w w' : world) : Prop :=
  w_fds w' = w_fds w /\ w_sigint w' = w_sigint w /\
  w_live w' = w_live w /\ w_nblocks w' = w_nblocks w.

Section Turns.

Lemma wait_child_waiting (turns : nat) (pid : positive) :
  forall w w',
    (length (w_waits w) < turns)%nat ->
    wait_child turns pid w = Block w' -> waiting w'.
Proof.
  induction turns as [|turns IH]; intros w w' Hlen; [lia|].
  simpl. unfold bind at 1, Sys.waitpid.
  destruct (w_waits w) as [|[st|e] rest] eqn:Hw; simpl in *.
  - intros [= <-]. exists pid. simpl. apply last_snoc.
  - destruct st as [code|sig|sig]; simpl; try done.
    apply IH. simpl. lia.
  - done.
Qed.

Lemma execute_command_kept (args : list string) (w : world) :
  match execute_command args w with
  | Ret _ w' => kept w w'
  | Block w' => waiting w'
  | Undefined _ => False
  end.
Proof.
  destruct args as [|arg0 rest]; [done|].
  destruct (decide (arg0 ∈ builtin_commands)) as [Hb|Hb].
  - apply builtin_names in Hb as [-> | ->]; [|done].
    rewrite execute_command_cd. unfold cd_body, bind, Sys.getenv_HOME, Sys.chdir.
    destruct rest as [|path more].
    + destruct (w_home w) as [dir|]; simpl; [|done].
      by destruct (w_fs w (w_cwd w) dir).
    + by destruct (w_fs w (w_cwd w) path).
  - rewrite execute_command_external by done.
    destruct (w_fork_ans w (w_nforks w)) as [pid env|e] eqn:Hfork.
    + rewrite (launch_process_after_fork _ w pid env Hfork).
      match goal with |- context [wait_child ?n pid ?w1] =>
        pose proof (wait_child_waited n pid w1) as ((F1 & _ & F2 & F3 & F4) & _);
        pose proof (wait_child_outcome n pid w1 ltac:(lia)) as Ho;
        pose proof (wait_child_waiting n pid w1) as Hb';
        destruct (wait_child n pid w1) as [st w'|w'|w']
      end; [done| |done].
      apply (Hb' w'); [lia|done].
    + by rewrite (launch_process_failed _ w e Hfork).
Qed.

Lemma free_args_vector (args : nat) (command : list string) (w : world) :
  args ∈ w_live w ->
  free_args (single_vector args command) w = Ret tt (released args w).
Proof.
  intros Hlive. unfold free_args, terminated. simpl.
  rewrite (bool_decide_eq_true_2 (args ∈ _)) by done.
  rewrite (bool_decide_eq_true_2 (None ∈ _)) by (apply elem_of_app; right; by left).
  done.
Qed.

Lemma allocated_released (block : nat) (live : gset nat) :
  block ∉ live -> ({[ block ]} ∪ live) ∖ {[ block ]} = live.
Proof.
  intros Hno. apply set_eq. intros x.
  rewrite elem_of_difference, elem_of_union, elem_of_singleton.
  split; [tauto|]. intros Hx. split; [tauto|]. by intros ->.
Qed.

(** The turn of the loop on a plain line: the prompt, the allocation,
    the command, the release. *)
Lemma plain_turn (line : string) (status : option Z) (w : world) :
  plain line ->
  shell_turn (Some line) status w
  = (do status <- execute_command (tokens line);
     free_args (single_vector (w_nblocks w) (tokens line));;
     ret (Some (Some status))) (allocated (log prompt w)).
Proof.
  intros [Hno Hlen]. unfold shell_turn, bind at 1 2, Sys.printf. fold prompt.
  rewrite parse_line_single by done.
  by rewrite entries_single.
Qed.

Lemma plain_turn_outcome (line : string) (status : option Z) (w : world) :
  plain line -> fresh w ->
  match shell_turn (Some line) status w with
  | Ret next w' =>
      (exists status', next = Some (Some status')) /\
      w_fds w' = w_fds w /\ w_sigint w' = w_sigint w /\
      w_live w' = w_live w /\ fresh w'
  | Block w' => waiting w'
  | Undefined _ => False
  end.
Proof.
  intros Hplain Hfresh. rewrite plain_turn by done. unfold bind at 1.
  pose proof (execute_command_kept (tokens line) (allocated (log prompt w))) as Hk.
  destruct (execute_command _ _) as [st w1|w1|w1]; [|done|done].
  destruct Hk as (Hf & Hs & Hl & Hn). simpl in *.
  unfold bind. rewrite free_args_vector
    by (rewrite Hl; apply elem_of_union; left; by apply elem_of_singleton).
  simpl. rewrite Hf, Hs, Hl.
  assert (Hno : w_nblocks w ∉ w_live w).
  { intros Hin. apply Hfresh in Hin. lia. }
  rewrite allocated_released by done.
  split; [by eexists|]. repeat split.
  intros block Hin. simpl in *.
  rewrite Hl, allocated_released in Hin by done.
  rewrite Hn. apply Hfresh in Hin. lia.
Qed.

Lemma shell_loop_plain (stdin : list string) :
  Forall (fun buffer => plain (chop_newline buffer)) stdin ->
  forall status w,
    fresh w ->
    match shell_loop stdin status w with
    | Ret _ w' =>
        w_fds w' = w_fds w /\ w_sigint w' = w_sigint w /\
        w_live w' = w_live w
    | Block w' => waiting w'
    | Undefined _ => False
    end.
Proof.
  induction 1 as [|buffer stdin Hplain _ IH]; intros status w Hfresh; [done|].
  simpl. unfold bind at 1.
  pose proof (plain_turn_outcome (chop_newline buffer) status w Hplain Hfresh) as Ht.
  destruct (shell_turn _ status w) as [next w1|w1|w1]; [|done|done].
  destruct Ht as ([status' ->] & Hf & Hs & Hl & Hfresh1).
  unfold bind, loop_test, ret.
  destruct (negb (status' =? 0)); [|done].
  specialize (IH (Some status') w1 Hfresh1).
  destruct (shell_loop stdin (Some status') w1) as [[] w2|w2|w2]; [|done|done].
  destruct IH as (Hf2 & Hs2 & Hl2). by rewrite Hf2, Hs2, Hl2.
Qed.

Lemma blank_chop_newline (s : string) :
  blank s = true -> blank (chop_newline s) = true.
Proof.
  induction s as [|c s IH]; [done|].
  destruct s as [|c' s].
  - simpl. by destruct (Ascii.eqb c "010").
  - change (chop_newline (String c (String c' s)))
      with (String c (chop_newline (String c' s))).
    intros [Hc Hs]%andb_true_iff. simpl blank at 1.
    rewrite Hc. by apply IH.
Qed.

(** [exit]: the turn is the prompt, and the loop ends. *)
Lemma shell_loop_exit (buffer : string) (after : list string)
    (status : option Z) (w : world) :
  plain (chop_newline buffer) ->
  head (tokens (chop_newline buffer)) = Some "exit" ->
  shell_loop (buffer :: after) status w
  = Ret tt (released (w_nblocks w) (allocated (log prompt w))).
Proof.
  intros Hplain Hexit. simpl. unfold bind at 1.
  rewrite plain_turn by done.
  destruct (tokens (chop_newline buffer)) as [|arg0 rest]; [done|].
  injection Hexit as ->.
  unfold bind at 1.
  change (execute_command ("exit" :: rest) (allocated (log prompt w)))
    with (Ret (A:=Z) 0 (allocated (log prompt w))).
  unfold bind. rewrite free_args_vector
    by (apply elem_of_union; left; by apply elem_of_singleton).
  done.
Qed.

Lemma shell_loop_after_exit (lines after : list string) (buffer : string) :
  plain (chop_newline buffer) ->
  head (tokens (chop_newline buffer)) = Some "exit" ->
  forall status w,
    shell_loop (lines ++ buffer :: after) status w
    = shell_loop (lines ++ [buffer]) status w.
Proof.
  intros Hplain Hexit.
  induction lines as [|line lines IH]; intros status w.
  - simpl app. by rewrite !shell_loop_exit.
  - simpl. unfold bind.
    destruct (shell_turn _ status w) as [[status'|] w1|w1|w1]; try done.
    destruct (loop_test status' w1) as [[] w2|w2|w2]; first [done|apply IH].
Qed.

End Turns.

(** X17.  A line of spaces, tabs and newlines only, or an empty one,
    costs a prompt and nothing else: the interpreter makes no other
    call, forks nothing, releases the array it allocated, and goes on to
    the next line with the continuation status set. *)
Theorem blank_line_is_skipped (buffer : string) (stdin : list string)
    (status : option Z) (w : world) :
  blank buffer = true ->
  let w' := released (w_nblocks w) (allocated (log prompt w)) in
  shell_loop (buffer :: stdin) status w = shell_loop stdin (Some 1) w' /\
  w_trace w' = w_trace w ++ [prompt] /\
  w_children w' = w_children w /\ w_nforks w' = w_nforks w /\
  w_fds w' = w_fds w /\ w_cwd w' = w_cwd w /\
  (w_nblocks w ∉ w_live w -> w_live w' = w_live w).
Proof.
  intros Hblank w'. subst w'. split; [|repeat split].
  - simpl. unfold bind at 1.
    rewrite blank_line_turn
      by (by apply blank_tokens, blank_chop_newline).
    done.
  - intros Hno. simpl. by apply allocated_released.
Qed.

Lemma blank_line_is_skipped_witness :
  let w := demo_world None [] in
  let w' := released (w_nblocks w) (allocated (log prompt w)) in
  shell_loop ((" " +:+ nl) :: ["exit"]) None w = shell_loop ["exit"] (Some 1) w' /\
  w_trace w' = w_trace w ++ [prompt] /\
  w_children w' = w_children w /\ w_nforks w' = w_nforks w /\
  w_fds w' = w_fds w /\ w_cwd w' = w_cwd w /\
  (w_nblocks w ∉ w_live w -> w_live w' = w_live w).
Proof.
  intros w.
  apply (blank_line_is_skipped (" " +:+ nl) ["exit"] None w).
  reflexivity.
Defined.

(** X18.  A session all of whose lines are plain, whatever the commands
    and whatever becomes of them.  Nothing undefined is done.  Either
    the interpreter is left waiting for a child of [launch_process], or
    [main] returns 0, having written its last message, with every array
    it allocated released and its descriptors as they were. *)
Theorem plain_session (stdin : list string) (w : world) :
  Forall (fun buffer => plain (chop_newline buffer)) stdin ->
  fresh w ->
  match main stdin w with
  | Ret status w' =>
      status = 0 /\ last (w_trace w') = Some goodbye /\
      w_fds w' = w_fds w /\ w_live w' = w_live w
  | Block w' => waiting w'
  | Undefined _ => False
  end.
Proof.
  intros Hplain Hfresh. unfold main, bind at 1, Sys.signal.
  pose proof (shell_loop_plain stdin Hplain None
                (log (EvSignal SIGINT SIG_IGN) (with_sigint SIG_IGN w)) Hfresh) as H.
  unfold bind at 1.
  destruct (shell_loop stdin None _) as [[] w1|w1|w1]; [|done|done].
  destruct H as (Hf & _ & Hl). simpl.
  split; [done|]. split; [apply last_snoc|]. by split.
Qed.

Lemma plain_session_witness :
  match main ["cd /tmp" +:+ nl; "ls -l" +:+ nl; "exit" +:+ nl]
          (demo_world None [WaitStatus (WExited 0)]) with
  | Ret status w' =>
      status = 0 /\ last (w_trace w') = Some goodbye /\
      w_fds w' = w_fds (demo_world None [WaitStatus (WExited 0)]) /\
      w_live w' = w_live (demo_world None [WaitStatus (WExited 0)])
  | Block w' => waiting w'
  | Undefined _ => False
  end.
Proof.
  apply (plain_session ["cd /tmp" +:+ nl; "ls -l" +:+ nl; "exit" +:+ nl]
           (demo_world None [WaitStatus (WExited 0)])).
  - repeat (apply List.Forall_cons;
            [split;
             [vm_compute; intros H;
              repeat (apply elem_of_cons in H as [H|H]; [discriminate|]);
              by apply elem_of_nil in H
             |vm_compute; lia]|]).
    apply List.Forall_nil.
  - intros block H. by apply not_elem_of_empty in H.
Defined.

(** X19.  [exit] ends the session where it stands: on a plain line whose
    first token is [exit], the loop writes the prompt, releases the
    array and stops, and the lines after it are not read.  A session
    is the same with and without them. *)
Theorem exit_ends_session (lines after : list string) (buffer : string)
    (w : world) :
  plain (chop_newline buffer) ->
  head (tokens (chop_newline buffer)) = Some "exit" ->
  main (lines ++ buffer :: after) w = main (lines ++ [buffer]) w /\
  (forall status w0,
      shell_loop (buffer :: after) status w0
      = Ret tt (released (w_nblocks w0) (allocated (log prompt w0)))).
Proof.
  intros Hplain Hexit. split.
  - unfold main, bind, Sys.signal.
    by rewrite (shell_loop_after_exit lines after buffer Hplain Hexit).
  - intros status w0. by apply shell_loop_exit.
Qed.

Lemma exit_ends_session_witness :
  main (["ls" +:+ nl] ++ ("exit 3" +:+ nl) :: ["cd /" +:+ nl; "ls | wc" +:+ nl])
    (demo_world None [WaitStatus (WExited 0)])
  = main (["ls" +:+ nl] ++ ["exit 3" +:+ nl])
      (demo_world None [WaitStatus (WExited 0)]).
Proof.
  refine (proj1 (exit_ends_session ["ls" +:+ nl] ["cd /" +:+ nl; "ls | wc" +:+ nl]
                   ("exit 3" +:+ nl) (demo_world None [WaitStatus (WExited 0)]) _ _)).
  - split.
    + vm_compute. intros H.
      repeat (apply elem_of_cons in H as [H|H]; [discriminate|]).
      by apply elem_of_nil in H.
    + vm_compute. lia.
  - reflexivity.
Defined.

(** The calls made and the state of the interpreter, leaving out the
    argument arrays. *)
Definition same_calls (w1 w2 : world) : Prop :=
  w_trace w1 = w_trace w2 /\ w_children w1 = w_children w2 /\
  w_fds w1 = w_fds w2 /\ w_cwd w1 = w_cwd w2 /\
  w_sigint w1 = w_sigint w2 /\ w_waits w1 = w_waits w2.

Definition alike {A} (o1 o2 : outcome A) : Prop :=
  match o1, o2 with
  | Ret a1 w1, Ret a2 w2 => a1 = a2 /\ same_calls w1 w2
  | Block w1, Block w2 => same_calls w1 w2
  | Undefined w1, Undefined w2 => same_calls w1 w2
  | _, _ => False
  end.

Section EndOfInput.

Lemma alike_refl {A} (o : outcome A) : alike o o.
Proof. by destruct o. Qed.

Lemma shell_loop_end_of_input (lines : list string) (buffer : string) :
  plain (chop_newline buffer) ->
  head (tokens (chop_newline buffer)) = Some "exit" ->
  forall status w,
    alike (shell_loop (lines ++ [buffer]) status w) (shell_loop lines status w).
Proof.
  intros Hplain Hexit.
  induction lines as [|line lines IH]; intros status w.
  - simpl app. by rewrite shell_loop_exit.
  - simpl. unfold bind.
    destruct (shell_turn _ status w) as [[status'|] w1|w1|w1];
      try apply alike_refl.
    destruct (loop_test status' w1) as [[] w2|w2|w2];
      first [apply alike_refl|apply IH].
Qed.

End EndOfInput.

(** X20.  The end of the input ends the session as [exit] does.  Take a
    session and add a line with [exit] at its end: [main] makes the same
    calls, leaves the same children, descriptors and directory, and
    either returns the same status or fails to return in the same way. *)
Theorem end_of_input_is_exit (lines : list string) (buffer : string) (w : world) :
  plain (chop_newline buffer) ->
  head (tokens (chop_newline buffer)) = Some "exit" ->
  alike (main (lines ++ [buffer]) w) (main lines w).
Proof.
  intros Hplain Hexit. unfold main, bind, Sys.signal.
  pose proof (shell_loop_end_of_input lines buffer Hplain Hexit None
                (log (EvSignal SIGINT SIG_IGN) (with_sigint SIG_IGN w))) as H.
  destruct (shell_loop (lines ++ [buffer]) None _) as [[] w1|w1|w1],
           (shell_loop lines None _) as [[] w2|w2|w2]; try done.
  destruct H as (_ & Ht & Hc & Hf & Hd & Hs & Hw).
  unfold Sys.printf, ret. split; [done|].
  unfold same_calls. simpl. by rewrite Ht, Hc, Hf, Hd, Hs, Hw.
Qed.

Lemma end_of_input_is_exit_witness :
  alike (main (["ls" +:+ nl] ++ ["exit" +:+ nl]) (demo_world None [WaitStatus (WExited 0)]))
        (main ["ls" +:+ nl] (demo_world None [WaitStatus (WExited 0)])).
Proof.
  apply (end_of_input_is_exit ["ls" +:+ nl] ("exit" +:+ nl)
           (demo_world None [WaitStatus (WExited 0)])).
  - split.
    + vm_compute. intros H.
      repeat (apply elem_of_cons in H as [H|H]; [discriminate|]).
      by apply elem_of_nil in H.
    + vm_compute. lia.
  - reflexivity.
Defined.

(** ** The descriptors of the interpreter over a session *)

(** A run that is over, by returning or by doing something undefined,
    has left the descriptor table as it found it. *)
Definition restores_fds {A} (m : M A) : Prop :=
  forall w, ~ blocked (m w) -> w_fds (world_of (m w)) = w_fds w.

Section Descriptors.

Lemma restores_fds_bind {A B} (m : M A) (k : A -> M B) :
  restores_fds m -> (forall a, restores_fds (k a)) -> restores_fds (bind m k).
Proof.
  intros Hm Hk w. unfold bind. specialize (Hm w).
  destruct (m w) as [a w1|w1|w1]; simpl in *.
  - intros Hnb. rewrite (Hk a w1 Hnb). apply Hm. intros [].
  - intros Hnb. by destruct Hnb.
  - exact Hm.
Qed.

Lemma restores_fds_ret {A} (a : A) : restores_fds (ret a).
Proof. by intros w _. Qed.

Lemma restores_fds_printf (text : string) : restores_fds (Sys.printf text).
Proof. by intros w _. Qed.

Lemma restores_fds_loop_test (status : option Z) : restores_fds (loop_test status).
Proof. intros w _. by destruct status. Qed.

Lemma restores_fds_free_args (args : argv) : restores_fds (free_args args).
Proof. intros w _. by destruct (free_args_frame args w) as (_ & -> & _). Qed.

Lemma restores_fds_execute_command (args : list string) :
  restores_fds (execute_command args).
Proof.
  intros w Hnb. pose proof (execute_command_kept args w) as H.
  destruct (execute_command args w) as [st w1|w1|w1]; [|by destruct Hnb|done].
  exact (proj1 H).
Qed.

Lemma restores_fds_handle_pipe (command1 command2 : argv) :
  restores_fds (handle_pipe command1 command2).
Proof.
  intros w.
  destruct (decide (entries command1 = [])) as [H1|H1].
  { by rewrite handle_pipe_usage by (by left). }
  destruct (decide (entries command2 = [])) as [H2|H2].
  { by rewrite handle_pipe_usage by (by right). }
  rewrite handle_pipe_pipeline by done. unfold pipeline, piped.
  destruct (pipe_ends w) as [rd wr] eqn:He.
  pose proof (pipe_ends_close w rd wr He) as Hclose.
  destruct (w_pipe_ans w (w_npipes w)) as [e|]; [done|].
  destruct (w_fork_ans w (w_nforks w)) as [pid1 env1|e1]; [|done].
  cbv zeta.
  destruct (w_fork_ans w (S (w_nforks w))) as [pid2 env2|e2];
    unfold bind, Sys.waitpid; simpl.
  - destruct (w_waits w) as [|a1 [|a2 rest]].
    + intros Hnb. by destruct Hnb.
    + destruct a1; intros Hnb; by destruct Hnb.
    + destruct a1, a2; simpl; intros _; by rewrite release_both_fds.
  - destruct (w_waits w) as [|a rest].
    + intros Hnb. by destruct Hnb.
    + by destruct a.
Qed.

Lemma restores_fds_parse_line (line : string) : restores_fds (parse_line line).
Proof.
  intros w. rewrite parse_line_classify. unfold run_parsed.
  apply restores_fds_bind; [by intros w0 _|].
  intros args. destruct (classify line) as [|command|command1 command2].
  - by intros w0 _.
  - apply restores_fds_ret.
  - apply restores_fds_bind; [apply restores_fds_handle_pipe|].
    intros _. apply restores_fds_ret.
Qed.

Lemma restores_fds_shell_turn (line : option string) (status : option Z) :
  restores_fds (shell_turn line status).
Proof.
  unfold shell_turn, free.
  apply restores_fds_bind; [apply restores_fds_printf|]. intros _.
  destruct line as [line|]; [|apply restores_fds_ret].
  apply restores_fds_bind; [apply restores_fds_parse_line|].
  intros [args|];
    repeat first [ apply restores_fds_ret
                 | apply restores_fds_free_args
                 | apply restores_fds_execute_command
                 | apply restores_fds_bind; [|intros ?] ].
Qed.

Lemma restores_fds_shell_loop (stdin : list string) :
  forall status, restores_fds (shell_loop stdin status).
Proof.
  induction stdin as [|buffer stdin IH]; intros status; simpl;
    (apply restores_fds_bind; [apply restores_fds_shell_turn|]);
    intros [status'|]; try apply restores_fds_ret.
  apply restores_fds_bind; [apply restores_fds_loop_test|].
  intros []; [apply IH|apply restores_fds_ret].
Qed.

End Descriptors.


(** ** The channel of a pipeline in the interpreter *)

(** The calls of [waitpid] that end [handle_pipe] when both children are
    forked, as far as the answers of the environment let them get. *)
Definition pipeline_waits (pid1 pid2 : positive) (answers : list wait_answer)
  : list event :=
  match answers with
  | [] => [EvWaitpid pid1 0 None]
  | [a1] => [EvWaitpid pid1 0 (Some (answer_of a1)); EvWaitpid pid2 0 None]
  | a1 :: a2 :: _ =>
      [EvWaitpid pid1 0 (Some (answer_of a1));
       EvWaitpid pid2 0 (Some (answer_of a2))]
  end.

(** C6.  Whatever the commands and the world, when [handle_pipe] is over
    (it has returned, or it has come to a release of its arguments that
    is undefined) the descriptor table of the interpreter is what it was
    before the call.  For two commands that are not empty, once [pipe]
    has made the channel on two descriptors that were not open:
    - with both children forked, the calls of the interpreter are
      [pipe], [fork], [fork], then [close] of the read end and [close]
      of the write end, and only then the calls of [waitpid]; from the
      second [close] on, and so during the waits whether or not they
      ever end, the descriptor table is what it was before the call;
    - when the first [fork] fails, the report is followed by the two
      calls of [close];
    - when the second [fork] fails, the first child is killed and waited
      for, and when that wait is over the two calls of [close] follow. *)
Theorem handle_pipe_closes_channel (command1 command2 : argv) (w : world) :
  let o := handle_pipe command1 command2 w in
  let new := events_since w (world_of o) in
  (~ blocked o -> w_fds (world_of o) = w_fds w) /\
  (entries command1 <> [] -> entries command2 <> [] ->
   w_pipe_ans w (w_npipes w) = None ->
   forall rd wr,
     pipe_ends w = (rd, wr) ->
     (w_fds w !! rd = None /\ w_fds w !! wr = None /\ rd <> wr) /\
     (forall pid1 env1 pid2 env2,
         w_fork_ans w (w_nforks w) = ForkOk pid1 env1 ->
         w_fork_ans w (S (w_nforks w)) = ForkOk pid2 env2 ->
         new = [EvPipe (inl (rd, wr)); EvFork (inl pid1); EvFork (inl pid2);
                EvClose rd; EvClose wr]
                 ++ pipeline_waits pid1 pid2 (w_waits w) /\
         w_fds (world_of o) = w_fds w) /\
     (forall e,
         w_fork_ans w (w_nforks w) = ForkFail e ->
         new = [EvPipe (inl (rd, wr)); EvFork (inr e);
                EvPerror "fork failed for first command" e;
                EvClose rd; EvClose wr] /\
         w_fds (world_of o) = w_fds w) /\
     (forall pid1 env1 e a rest,
         w_fork_ans w (w_nforks w) = ForkOk pid1 env1 ->
         w_fork_ans w (S (w_nforks w)) = ForkFail e ->
         w_waits w = a :: rest ->
         new = [EvPipe (inl (rd, wr)); EvFork (inl pid1); EvFork (inr e);
                EvPerror "fork failed for second command" e;
                EvKill pid1 SIGTERM; EvWaitpid pid1 0 (Some (answer_of a));
                EvClose rd; EvClose wr] /\
         w_fds (world_of o) = w_fds w)).
Proof.
  intros o new. subst o new. split; [apply restores_fds_handle_pipe|].
  intros H1 H2 Hp rd wr He.
  pose proof (pipe_ends_close w rd wr He) as Hclose.
  pose proof (pipe_ends_fresh w) as Hfresh. rewrite He in Hfresh.
  split; [exact Hfresh|].
  rewrite handle_pipe_pipeline by done. unfold pipeline, piped.
  rewrite He, Hp. split; [|split].
  - intros pid1 env1 pid2 env2 Hf1 Hf2. rewrite Hf1, Hf2. cbv zeta.
    unfold bind, Sys.waitpid. simpl.
    destruct (w_waits w) as [|a1 [|a2 rest]]; simpl.
    + added. by rewrite Hclose.
    + destruct a1; simpl; added; by rewrite Hclose.
    + destruct a1, a2; simpl;
        rewrite events_since_release, release_both_fds; simpl;
        added; by rewrite Hclose.
  - intros e Hf1. rewrite Hf1. simpl. added. by rewrite Hclose.
  - intros pid1 env1 e a rest Hf1 Hf2 Hw. rewrite Hf1, Hf2. cbv zeta.
    unfold bind, Sys.waitpid. simpl. rewrite Hw.
    destruct a; simpl; added; by rewrite Hclose.
Qed.

Lemma handle_pipe_closes_channel_witness :
  let w := allocated (demo_world None [WaitStatus (WExited 0); WaitStatus (WExited 0)]) in
  let o := handle_pipe (first_vector 0 ["ls"] ["wc"]) (second_vector 0 ["ls"] ["wc"]) w in
  events_since w (world_of o)
  = [EvPipe (inl (3, 4)%nat); EvFork (inl 101%positive); EvFork (inl 102%positive);
     EvClose 3; EvClose 4]
      ++ pipeline_waits 101 102 (w_waits w) /\
  w_fds (world_of o) = w_fds w.
Proof.
  intros w o.
  refine (proj1 (proj2 (proj2 (handle_pipe_closes_channel
                                 (first_vector 0 ["ls"] ["wc"])
                                 (second_vector 0 ["ls"] ["wc"]) w)
                          _ _ _ 3%nat 4%nat _))
            101%positive {| ce_dup2 := None; ce_exec := None |}
            102%positive {| ce_dup2 := None; ce_exec := None |} _ _).
  - vm_compute. discriminate.
  - vm_compute. discriminate.
  - reflexivity.
  - vm_compute. reflexivity.
  - reflexivity.
  - reflexivity.
Defined.

(** X21.  The interpreter keeps no descriptor of its pipelines.  Take any
    input and any environment.  When [main] is over, having returned or
    come to something undefined, the descriptors of the interpreter are
    those it started with; so they are each time a turn of its loop is
    over, and after each call of [handle_pipe] that is over. *)
Theorem session_descriptors (stdin : list string) (w : world) :
  (~ blocked (main stdin w) -> w_fds (world_of (main stdin w)) = w_fds w) /\
  (forall line status w0,
      ~ blocked (shell_turn line status w0) ->
      w_fds (world_of (shell_turn line status w0)) = w_fds w0).
Proof.
  split.
  - apply (restores_fds_bind (Sys.signal SIG_IGN)); [by intros w0 _|].
    intros _. apply restores_fds_bind; [apply restores_fds_shell_loop|].
    intros _. apply restores_fds_bind; [apply restores_fds_printf|].
    intros _. apply restores_fds_ret.
  - intros line status w0. apply restores_fds_shell_turn.
Qed.

Lemma session_descriptors_witness :
  let w := demo_world None [WaitStatus (WExited 0); WaitStatus (WExited 0)] in
  w_fds (world_of (main ["ls | wc" +:+ nl] w)) = w_fds w.
Proof.
  intros w.
  apply (proj1 (session_descriptors ["ls | wc" +:+ nl] w)).
  vm_compute. intros H. exact H.
Defined.

(** ** A line that [parse_line] answers with NULL, first in the session *)

(** X22.  When [parse_line] returns NULL the turn ends by [continue],
    which leads to the test [while (status)] with [status] as it was.
    After a command has run, [status] is not 0 and the loop goes on to
    the next line.  On the first line of a session [status] has never
    been assigned: the test reads a variable without a value, which C
    leaves undefined, and nothing is said of the lines that follow. *)
Theorem rejected_line_and_status (buffer : string) (stdin : list string)
    (w w1 : world) :
  let w0 := log (EvSignal SIGINT SIG_IGN) (with_sigint SIG_IGN w) in
  parse_line (chop_newline buffer) (log prompt w0) = Ret None w1 ->
  main (buffer :: stdin) w = Undefined w1 /\
  (forall status,
      status <> 0 ->
      shell_loop (buffer :: stdin) (Some status) w0
      = shell_loop stdin (Some status) w1).
Proof.
  intros w0 Hp.
  assert (Hnull : forall args,
             returned (parse_line (chop_newline buffer) (log prompt w0))
             <> Some (Some args)) by (by rewrite Hp).
  split.
  - unfold main, bind at 1, Sys.signal. fold w0. unfold bind at 1.
    rewrite shell_loop_null by done.
    unfold bind, Sys.printf. fold prompt. by rewrite Hp.
  - intros status Hne. rewrite shell_loop_null by done.
    unfold bind, Sys.printf, loop_test, ret. fold prompt. rewrite Hp.
    by rewrite (proj2 (Z.eqb_neq status 0) Hne).
Qed.

Lemma rejected_line_and_status_witness :
  let w := demo_world None [] in
  let w0 := log (EvSignal SIGINT SIG_IGN) (with_sigint SIG_IGN w) in
  main (("ls |" +:+ nl) :: ["exit"]) w
  = Undefined (log pipe_usage (allocated (log prompt w0))) /\
  (forall status,
      status <> 0 ->
      shell_loop (("ls |" +:+ nl) :: ["exit"]) (Some status) w0
      = shell_loop ["exit"] (Some status) (log pipe_usage (allocated (log prompt w0)))).
Proof.
  intros w w0.
  apply (rejected_line_and_status ("ls |" +:+ nl) ["exit"] w
           (log pipe_usage (allocated (log prompt w0)))).
  vm_compute. reflexivity.
Defined.
